(** * StudyCloud, static/animated-borders.js: the border decorator over a DOM model

    The script registers one DOMContentLoaded listener.  The listener runs two
    passes, one over form inputs and one over buttons.  Each pass takes the
    static NodeList of [document.querySelectorAll], and for every element that
    is neither below a wrapper already nor excluded by class it creates a
    [div] wrapper, inserts it before the element and moves the element into it.

    The file holds two variants of the script (they are separated by a marker
    line in the source file).  The second variant has a wider selector set,
    creates three decorative layers inside each wrapper, copies no width and
    gives the button wrappers [display: inline-block].

    The DOM is embedded as a store of node trees: the document tree, the trees
    that are not attached to it (a node made by [createElement] is one until
    it is inserted), and the next free node identity.  JavaScript references
    to nodes are node identities.  The DOM operations the script calls
    ([querySelectorAll], [closest], [classList.contains], [createElement],
    [parentNode], [insertBefore], [appendChild], the [className] and [style]
    setters) follow the DOM and HTML standards, with the exceptions they
    throw.  The document is an HTML document (text/html), in no-quirks or in
    quirks mode; an element of the page with a [name] or an [id] can stand
    in the way of a method of [document].

    The model follows one run of the listener, the function that the script
    registers (the registration itself, [document.addEventListener], is not
    part of it), with no other script of the page running in between.  Two
    things of a page are left out of it.  A control of a form that is named
    after a property the script reads from the form element ([closest],
    [classList], [parentNode], [insertBefore]) stands in the way of that
    property; and an element that is neither an HTML nor an SVG nor a MathML
    element has no [style].  On such a page a step of the script throws
    where the step of the model goes on.  So what is proved below about a
    run is proved about a run that returns, or about a run that throws
    before it gets to such an element; where a theorem says that a run
    returns, every step of that run stops at its guard. *)

From Stdlib Require Import List String Bool Arith Lia Sorted Ascii.
Import ListNotations.
Local Open Scope string_scope.
Local Open Scope list_scope.
Local Open Scope nat_scope.

(* ================================================================== *)
(** * Nodes and trees *)

Definition node_id := nat.

Inductive node_kind :=
| DocumentNode | DocumentTypeNode | ElementNode | TextNode | CommentNode.

(** What the script can observe of a node.  [typeAttr] is the [type] content
    attribute, [styleWidth] and [styleDisplay] are the serialised inline style
    declarations, the empty string when the property is not set.  [nameAttr]
    and [idAttr] are the [name] and [id] content attributes, the empty string
    when there is none.  [htmlElement] says that an element is in the HTML
    namespace, [fallback] that an [object] element shows its fallback
    content.  [quirks] says that the node document of the node is in quirks
    mode; for the document node it is the mode of the document. *)
Record attrs := {
  nodeType : node_kind;
  localName : string;
  typeAttr : option string;
  classList : list string;
  styleWidth : string;
  styleDisplay : string;
  nameAttr : string;
  idAttr : string;
  htmlElement : bool;
  fallback : bool;
  quirks : bool
}.

#[warnings="-register-all"]
Inductive tree := Node (i : node_id) (a : attrs) (ks : list tree).

Definition root_id (t : tree) : node_id := match t with Node i _ _ => i end.
Definition root_attrs (t : tree) : attrs := match t with Node _ a _ => a end.
Definition children (t : tree) : list tree := match t with Node _ _ ks => ks end.

Section FirstSome.
Context {A B : Type} (f : A -> option B).
Fixpoint first_some (l : list A) : option B :=
  match l with
  | [] => None
  | x :: r => match f x with Some b => Some b | None => first_some r end
  end.
End FirstSome.

(** Nodes in tree order (preorder, depth first). *)
Fixpoint nodes (t : tree) : list (node_id * attrs) :=
  match t with Node i a ks => (i, a) :: flat_map nodes ks end.

Definition ids (t : tree) : list node_id := map fst (nodes t).
Arguments ids : simpl never.
Definition descendants (t : tree) : list (node_id * attrs) := flat_map nodes (children t).

Fixpoint find_node (i : node_id) (t : tree) : option tree :=
  match t with
  | Node j _ ks => if j =? i then Some t else first_some (find_node i) ks
  end.

(** The inclusive ancestors of [i] inside [t], nearest first: [i] itself, its
    parent, and so on up to the root of [t]. *)
Fixpoint inclusive_ancestors (i : node_id) (t : tree) : option (list (node_id * attrs)) :=
  match t with
  | Node j a ks =>
      if j =? i then Some [(j, a)]
      else match first_some (inclusive_ancestors i) ks with
           | Some l => Some (l ++ [(j, a)])
           | None => None
           end
  end.

(** ** Tree updates *)

Fixpoint set_attrs (i : node_id) (f : attrs -> attrs) (t : tree) : tree :=
  match t with
  | Node j a ks => Node j (if j =? i then f a else a) (map (set_attrs i f) ks)
  end.

(** Remove the child subtrees rooted at [n]. *)
Fixpoint detach (n : node_id) (t : tree) : tree :=
  match t with
  | Node j a ks =>
      Node j a (filter (fun k => negb (root_id k =? n)) (map (detach n) ks))
  end.

(** Insert [n] before the child [c].  [insertBefore] has checked that [c] is a
    child; a list without it is left as it is. *)
Fixpoint insert_before_child (n : tree) (c : node_id) (ks : list tree) : list tree :=
  match ks with
  | [] => []
  | k :: rest => if root_id k =? c then n :: k :: rest
                 else k :: insert_before_child n c rest
  end.

(** Insert [n] before the reference child, at the end when there is none. *)
Definition insert_at_ref (n : tree) (r : option node_id) (ks : list tree) : list tree :=
  match r with
  | None => ks ++ [n]
  | Some c => insert_before_child n c ks
  end.

Fixpoint insert_into (p : node_id) (n : tree) (r : option node_id) (t : tree) : tree :=
  match t with
  | Node j a ks =>
      let ks' := map (insert_into p n r) ks in
      Node j a (if j =? p then insert_at_ref n r ks' else ks')
  end.

Fixpoint next_sibling_in (n : node_id) (ks : list tree) : option node_id :=
  match ks with
  | k1 :: rest =>
      if root_id k1 =? n
      then match rest with k2 :: _ => Some (root_id k2) | [] => None end
      else next_sibling_in n rest
  | [] => None
  end.

(* ================================================================== *)
(** * The store, and the monad of DOM operations *)

Record dom := {
  document : tree;
  detached : list tree;
  next_id : node_id
}.

Inductive exn := TypeError | HierarchyRequestError | NotFoundError.

Inductive outcome (A : Type) :=
| Ok (a : A)
| Throw (e : exn).
Arguments Ok {A} a.
Arguments Throw {A} e.

(** A computation returns a value or throws, and leaves a store either way:
    what was mutated before an exception stays mutated. *)
Definition M (A : Type) := dom -> outcome A * dom.

Definition ret {A} (a : A) : M A := fun s => (Ok a, s).
Definition throw {A} (e : exn) : M A := fun s => (Throw e, s).
Definition bind {A B} (m : M A) (f : A -> M B) : M B :=
  fun s => match m s with
           | (Ok a, s') => f a s'
           | (Throw e, s') => (Throw e, s')
           end.
Definition read {A} (f : dom -> A) : M A := fun s => (Ok (f s), s).
Definition modify (f : dom -> dom) : M unit := fun s => (Ok tt, f s).

Declare Scope dom_scope.
Delimit Scope dom_scope with dom.
Notation "x <- m ;; k" := (bind m (fun x => k))
  (at level 61, m at next level, right associativity) : dom_scope.
Notation "m ;; k" := (bind m (fun _ => k))
  (at level 61, right associativity) : dom_scope.
Local Open Scope dom_scope.

(** [NodeList.prototype.forEach]: the callback is called on each element of
    the static list in turn; an exception ends the iteration. *)
Fixpoint forEach (l : list node_id) (f : node_id -> M unit) : M unit :=
  match l with
  | [] => ret tt
  | x :: r => f x ;; forEach r f
  end.

Fixpoint mapM {A} (f : A -> M node_id) (l : list A) : M (list node_id) :=
  match l with
  | [] => ret []
  | x :: r => i <- f x ;; js <- mapM f r ;; ret (i :: js)
  end.

Definition forest (s : dom) : list tree := document s :: detached s.

Definition node_at (i : node_id) (s : dom) : option tree :=
  first_some (find_node i) (forest s).

Definition ancestors_at (i : node_id) (s : dom) : option (list (node_id * attrs)) :=
  first_some (inclusive_ancestors i) (forest s).

Definition map_trees (f : tree -> tree) (s : dom) : dom :=
  {| document := f (document s);
     detached := map f (detached s);
     next_id := next_id s |}.

Definition remove_node (n : node_id) (s : dom) : dom :=
  {| document := detach n (document s);
     detached := filter (fun k => negb (root_id k =? n)) (map (detach n) (detached s));
     next_id := next_id s |}.

(* ================================================================== *)
(** * Selectors *)

(** The compound selectors the script uses: a type selector ([select]), a
    class selector ([.btn-primary]) and a type selector with an attribute
    selector on [type] ([input[type="text"]]).  A selector list (the
    comma-separated string given to [querySelectorAll]) is a list of them. *)
Inductive compound :=
| SelTag (tag : string)
| SelClass (c : string)
| SelTagType (tag : string) (ty : string).

Definition selector := list compound.

(** [classList.contains(c)]: the class names are compared as they are. *)
Definition has_class (c : string) (a : attrs) : bool :=
  existsb (String.eqb c) (classList a).

Definition ascii_lower (c : ascii) : ascii :=
  let n := nat_of_ascii c in
  if (65 <=? n) && (n <=? 90) then ascii_of_nat (n + 32) else c.

(** ASCII lower case. *)
Fixpoint lower (s : string) : string :=
  match s with
  | EmptyString => EmptyString
  | String c r => String (ascii_lower c) (lower r)
  end.

(** The class selector [.c] on an element: in a document in quirks mode the
    class names are compared ASCII case-insensitively, in other documents as
    they are. *)
Definition selects_class (c : string) (a : attrs) : bool :=
  if quirks a
  then existsb (fun x => String.eqb (lower c) (lower x)) (classList a)
  else has_class c a.

Definition is_element (a : attrs) : bool :=
  match nodeType a with ElementNode => true | _ => false end.

(** The attribute selector [[type="ty"]], with [ty] in lower case: the value
    of the [type] attribute of an HTML element is compared ASCII
    case-insensitively, that of another element as it is. *)
Definition selects_type (ty : string) (a : attrs) : bool :=
  match typeAttr a with
  | Some v => String.eqb (if htmlElement a then lower v else v) ty
  | None => false
  end.

(** The type selectors of the script are in lower case, as is the local name
    of an HTML element that the parser made. *)
Definition matches1 (c : compound) (a : attrs) : bool :=
  is_element a &&
  match c with
  | SelTag tag => String.eqb (localName a) tag
  | SelClass cl => selects_class cl a
  | SelTagType tag ty => String.eqb (localName a) tag && selects_type ty a
  end.

Definition matches (sel : selector) (a : attrs) : bool :=
  existsb (fun c => matches1 c a) sel.

(* ================================================================== *)
(** * The DOM operations the script calls *)

(** ** The named properties of the document

    [document.p] is not the method [p] of the DOM when the document has a
    named property [p]: the named properties of a document come first.  They
    are the [name] of every [form], [iframe] and [img] element and of every
    exposed [embed] and [object] element of the document tree, the [id] of
    every exposed [object] element, and the [id] of every [img] element that
    has a [name] too. *)

Definition is_html (tag : string) (a : attrs) : bool :=
  is_element a && htmlElement a && String.eqb (localName a) tag.

(** An [embed] or [object] element is exposed when it has no exposed
    [object] ancestor and, for an [object], when it does not show its
    fallback content or has no [object] or [embed] descendant.  [under] says
    that there is an exposed [object] ancestor. *)
Definition is_plugin (na : node_id * attrs) : bool :=
  is_html "object" (snd na) || is_html "embed" (snd na).

Definition exposed (under : bool) (t : tree) : bool :=
  negb under &&
  (negb (is_html "object" (root_attrs t))
   || negb (fallback (root_attrs t))
   || negb (existsb is_plugin (flat_map nodes (children t)))).

Definition own_names (e : bool) (a : attrs) : list string :=
  let named := negb (String.eqb (nameAttr a) "") in
  let with_id := negb (String.eqb (idAttr a) "") in
  (if (is_html "form" a || is_html "iframe" a || is_html "img" a
       || ((is_html "embed" a || is_html "object" a) && e)) && named
   then [nameAttr a] else [])
  ++ (if is_html "object" a && e && with_id then [idAttr a] else [])
  ++ (if is_html "img" a && with_id && named then [idAttr a] else []).

Fixpoint names_below (under : bool) (t : tree) : list string :=
  match t with
  | Node _ a ks =>
      let e := exposed under t in
      own_names e a ++ flat_map (names_below (under || (is_html "object" a && e))) ks
  end.

Definition document_names (s : dom) : list string := names_below false (document s).

(** The element(s) named [p] stand in the way of [document.p]. *)
Definition shadowed (p : string) (s : dom) : bool :=
  existsb (String.eqb p) (document_names s).

(** [document.querySelectorAll(sel)]: the descendants of the document that
    match, in tree order, as a static list.  When the document has a named
    property [querySelectorAll], the call is a call of an element (or of a
    collection of elements, or of the window of an [iframe]): a TypeError. *)
Definition querySelectorAll (sel : selector) : M (list node_id) :=
  fun s =>
    if shadowed "querySelectorAll" s then (Throw TypeError, s)
    else (Ok (map fst (filter (fun na => matches sel (snd na))
                              (descendants (document s)))), s).

(** [el.closest(sel)]: the nearest inclusive ancestor that matches, or null. *)
Definition closest (el : node_id) (sel : selector) : M (option node_id) :=
  read (fun s =>
    match ancestors_at el s with
    | Some l => option_map fst (find (fun na => matches sel (snd na)) l)
    | None => None
    end).

(** [el.classList.contains(c)] *)
Definition classList_contains (el : node_id) (c : string) : M bool :=
  read (fun s =>
    match node_at el s with
    | Some t => has_class c (root_attrs t)
    | None => false
    end).

(** [el.style.width] *)
Definition style_width (el : node_id) : M string :=
  read (fun s =>
    match node_at el s with
    | Some t => styleWidth (root_attrs t)
    | None => ""
    end).

(** [el.parentNode] *)
Definition parent_in (el : node_id) (s : dom) : option node_id :=
  match ancestors_at el s with
  | Some (_ :: (p, _) :: _) => Some p
  | _ => None
  end.

Definition parentNode (el : node_id) : M (option node_id) := read (parent_in el).

(** The mode of the document. *)
Definition quirks_mode (s : dom) : bool := quirks (root_attrs (document s)).

(** A new HTML element of a document in the mode [q]: no attribute is set. *)
Definition new_element (q : bool) (tag : string) : attrs :=
  {| nodeType := ElementNode; localName := tag; typeAttr := None;
     classList := []; styleWidth := ""; styleDisplay := "";
     nameAttr := ""; idAttr := ""; htmlElement := true; fallback := false;
     quirks := q |}.

(** [document.createElement(tag)]: a new element of the document, attached
    to nothing.  When the document has a named property [createElement], the
    call is a TypeError. *)
Definition createElement (tag : string) : M node_id :=
  fun s =>
    if shadowed "createElement" s then (Throw TypeError, s)
    else
      let i := next_id s in
      (Ok i, {| document := document s;
                detached := detached s ++ [Node i (new_element (quirks_mode s) tag) []];
                next_id := S i |}).

Definition with_classList (l : list string) (a : attrs) : attrs :=
  {| nodeType := nodeType a; localName := localName a; typeAttr := typeAttr a;
     classList := l; styleWidth := styleWidth a; styleDisplay := styleDisplay a;
     nameAttr := nameAttr a; idAttr := idAttr a; htmlElement := htmlElement a;
     fallback := fallback a; quirks := quirks a |}.

Definition with_styleWidth (w : string) (a : attrs) : attrs :=
  {| nodeType := nodeType a; localName := localName a; typeAttr := typeAttr a;
     classList := classList a; styleWidth := w; styleDisplay := styleDisplay a;
     nameAttr := nameAttr a; idAttr := idAttr a; htmlElement := htmlElement a;
     fallback := fallback a; quirks := quirks a |}.

Definition with_styleDisplay (d : string) (a : attrs) : attrs :=
  {| nodeType := nodeType a; localName := localName a; typeAttr := typeAttr a;
     classList := classList a; styleWidth := styleWidth a; styleDisplay := d;
     nameAttr := nameAttr a; idAttr := idAttr a; htmlElement := htmlElement a;
     fallback := fallback a; quirks := quirks a |}.

(** [el.className = c], for a [c] that is one class name (every use in the
    script): the class list becomes that one name. *)
Definition set_className (el : node_id) (c : string) : M unit :=
  modify (map_trees (set_attrs el (with_classList [c]))).

(** [el.style.width = w] and [el.style.display = d], for values that are valid
    for the property (a serialised width, the keyword [inline-block]). *)
Definition set_style_width (el : node_id) (w : string) : M unit :=
  modify (map_trees (set_attrs el (with_styleWidth w))).

Definition set_style_display (el : node_id) (d : string) : M unit :=
  modify (map_trees (set_attrs el (with_styleDisplay d))).

Definition kind_eqb (k1 k2 : node_kind) : bool :=
  match k1, k2 with
  | DocumentNode, DocumentNode | DocumentTypeNode, DocumentTypeNode
  | ElementNode, ElementNode | TextNode, TextNode | CommentNode, CommentNode => true
  | _, _ => false
  end.

Definition has_kind (k : node_kind) (t : tree) : bool :=
  kind_eqb (nodeType (root_attrs t)) k.

Definition mem (i : node_id) (l : list node_id) : bool := existsb (Nat.eqb i) l.

(** The children of [ks] that come after the child [c]. *)
Fixpoint following (c : node_id) (ks : list tree) : list tree :=
  match ks with
  | [] => []
  | k :: rest => if root_id k =? c then rest else following c rest
  end.

(** The children of [ks] that come before the child [c]. *)
Fixpoint preceding (c : node_id) (ks : list tree) : list tree :=
  match ks with
  | [] => []
  | k :: rest => if root_id k =? c then [] else k :: preceding c rest
  end.

(** The DOM standard's "ensure pre-insertion validity" of [node] into
    [parent] before [child], for the node kinds of this model. *)
Definition pre_insert_error (pt nt : tree) (child : option node_id) : option exn :=
  let pk := nodeType (root_attrs pt) in
  let nk := nodeType (root_attrs nt) in
  let pks := children pt in
  if negb (kind_eqb pk DocumentNode || kind_eqb pk ElementNode)
  then Some HierarchyRequestError
  else if mem (root_id pt) (ids nt)
  then Some HierarchyRequestError
  else if match child with
          | Some c => negb (mem c (map root_id pks))
          | None => false
          end
  then Some NotFoundError
  else if kind_eqb nk DocumentNode
  then Some HierarchyRequestError
  else if (kind_eqb nk TextNode && kind_eqb pk DocumentNode)
          || (kind_eqb nk DocumentTypeNode && negb (kind_eqb pk DocumentNode))
  then Some HierarchyRequestError
  else if kind_eqb pk DocumentNode &&
          match nk with
          | ElementNode =>
              existsb (has_kind ElementNode) pks
              || match child with
                 | Some c =>
                     existsb (fun k => (root_id k =? c) && has_kind DocumentTypeNode k) pks
                     || existsb (has_kind DocumentTypeNode) (following c pks)
                 | None => false
                 end
          | DocumentTypeNode =>
              existsb (has_kind DocumentTypeNode) pks
              || match child with
                 | Some c => existsb (has_kind ElementNode) (preceding c pks)
                 | None => existsb (has_kind ElementNode) pks
                 end
          | _ => false
          end
  then Some HierarchyRequestError
  else None.

(** The DOM standard's "pre-insert" of [node] into [parent] before [child]:
    after the validity check, [node] is taken out of the tree it is in and
    put among the children of [parent], before [child].  A reference child
    that is [node] itself stands for the sibling after it. *)
Definition pre_insert (parent node : node_id) (child : option node_id) : M unit :=
  fun s =>
    match node_at parent s, node_at node s with
    | Some pt, Some nt =>
        match pre_insert_error pt nt child with
        | Some e => (Throw e, s)
        | None =>
            let ref := match child with
                       | Some c => if c =? node then next_sibling_in node (children pt)
                                   else Some c
                       | None => None
                       end in
            (Ok tt, map_trees (insert_into parent nt ref) (remove_node node s))
        end
    | _, _ => (Throw TypeError, s)
    end.

(** The call [n.m(...)] of the method [m] of the node [n]: when [n] is the
    document and the document has a named property [m], a TypeError. *)
Definition method_of {A} (n : node_id) (m : string) (call : M A) : M A :=
  fun s =>
    if (n =? root_id (document s)) && shadowed m s then (Throw TypeError, s)
    else call s.

(** [parent.insertBefore(node, child)] *)
Definition insertBefore (parent node : node_id) (child : option node_id) : M unit :=
  method_of parent "insertBefore" (pre_insert parent node child).

(** [parent.appendChild(node)] *)
Definition appendChild (parent node : node_id) : M unit :=
  method_of parent "appendChild" (pre_insert parent node None).

(** A method call on the value of [el.parentNode]: a null parent is a
    TypeError. *)
Definition parentNode_or_throw (el : node_id) : M node_id :=
  p <- parentNode el ;;
  match p with
  | Some p => ret p
  | None => throw TypeError
  end.

(* ================================================================== *)
(** * Variant 1 of the script (source lines 1-45) *)

Module V1.
Section Listener.

(** [getComputedStyle(el).width] is the browser's: it depends on the layout
    of the document the element is in.  It is a parameter of the embedding,
    a function of the document tree and the element. *)
Variable computedWidth : tree -> node_id -> string.

Definition input_selector : selector :=
  [SelTagType "input" "text"; SelTagType "input" "email";
   SelTagType "input" "password"; SelTag "select"; SelTag "textarea"].

Definition button_selector : selector :=
  [SelClass "btn-primary"; SelClass "submit-btn"; SelTagType "button" "submit"].

(** The callback of [inputs.forEach] (lines 7-26). *)
Definition wrap_input (input : node_id) : M unit :=
  c <- closest input [SelClass "input-animated-wrapper"] ;;
  match c with
  | Some _ => ret tt
  | None =>
      b <- classList_contains input "search-input" ;;
      if b then ret tt else
      wrapper <- createElement "div" ;;
      set_className wrapper "input-animated-wrapper" ;;
      sw <- style_width input ;;
      cw <- read (fun s => computedWidth (document s) input) ;;
      let inputWidth := if String.eqb sw "" then cw else sw in
      (if String.eqb inputWidth "" then ret tt
       else set_style_width wrapper inputWidth) ;;
      p <- parentNode_or_throw input ;;
      insertBefore p wrapper (Some input) ;;
      appendChild wrapper input
  end.

(** The callback of [buttons.forEach] (lines 31-44). *)
Definition wrap_button (button : node_id) : M unit :=
  c <- closest button [SelClass "btn-animated-wrapper"] ;;
  match c with
  | Some _ => ret tt
  | None =>
      b1 <- classList_contains button "nav-btn" ;;
      b2 <- (if b1 then ret true else classList_contains button "tab-btn") ;;
      b3 <- (if b2 then ret true else classList_contains button "card-btn") ;;
      if b3 then ret tt else
      wrapper <- createElement "div" ;;
      set_className wrapper "btn-animated-wrapper" ;;
      p <- parentNode_or_throw button ;;
      insertBefore p wrapper (Some button) ;;
      appendChild wrapper button
  end.

Definition input_pass : M unit :=
  inputs <- querySelectorAll input_selector ;;
  forEach inputs wrap_input.

Definition button_pass : M unit :=
  buttons <- querySelectorAll button_selector ;;
  forEach buttons wrap_button.

(** The DOMContentLoaded listener (lines 2-45). *)
Definition listener : M unit :=
  input_pass ;; button_pass.

End Listener.
End V1.

(* ================================================================== *)
(** * Variant 2 of the script (source lines 46-103) *)

Module V2.

Definition input_selector : selector :=
  [SelTagType "input" "text"; SelTagType "input" "email";
   SelTagType "input" "password"; SelClass "search-input";
   SelTag "select"; SelTag "textarea"].

Definition button_selector : selector :=
  [SelClass "btn"; SelClass "btn-primary"; SelClass "btn-secondary";
   SelClass "btn-danger"; SelClass "submit-btn"; SelTagType "button" "submit"].

(** The callback of [inputs.forEach] (lines 52-74). *)
Definition wrap_input (input : node_id) : M unit :=
  c <- closest input [SelClass "input-animated-wrapper"] ;;
  match c with
  | Some _ => ret tt
  | None =>
      wrapper <- createElement "div" ;;
      set_className wrapper "input-animated-wrapper" ;;
      glow <- createElement "div" ;;
      set_className glow "glow-input" ;;
      darkBorder <- createElement "div" ;;
      set_className darkBorder "darkBorderBg-input" ;;
      border <- createElement "div" ;;
      set_className border "border-input" ;;
      p <- parentNode_or_throw input ;;
      insertBefore p wrapper (Some input) ;;
      appendChild wrapper glow ;;
      appendChild wrapper darkBorder ;;
      appendChild wrapper border ;;
      appendChild wrapper input
  end.

(** The callback of [buttons.forEach] (lines 79-102). *)
Definition wrap_button (button : node_id) : M unit :=
  c <- closest button [SelClass "btn-animated-wrapper"] ;;
  b1 <- (match c with
         | Some _ => ret true
         | None => classList_contains button "nav-btn"
         end) ;;
  b2 <- (if b1 then ret true else classList_contains button "tab-btn") ;;
  if b2 then ret tt else
  wrapper <- createElement "div" ;;
  set_className wrapper "btn-animated-wrapper" ;;
  set_style_display wrapper "inline-block" ;;
  glow <- createElement "div" ;;
  set_className glow "glow-btn" ;;
  darkBorder <- createElement "div" ;;
  set_className darkBorder "darkBorderBg-btn" ;;
  border <- createElement "div" ;;
  set_className border "border-btn" ;;
  p <- parentNode_or_throw button ;;
  insertBefore p wrapper (Some button) ;;
  appendChild wrapper glow ;;
  appendChild wrapper darkBorder ;;
  appendChild wrapper border ;;
  appendChild wrapper button.

Definition input_pass : M unit :=
  inputs <- querySelectorAll input_selector ;;
  forEach inputs wrap_input.

Definition button_pass : M unit :=
  buttons <- querySelectorAll button_selector ;;
  forEach buttons wrap_button.

(** The DOMContentLoaded listener (lines 47-103). *)
Definition listener : M unit :=
  input_pass ;; button_pass.

End V2.

(* ================================================================== *)
(** * The decoration step in general

    The four callbacks are one algorithm with different settings.  [decorate_one]
    is that algorithm; the callbacks above are proved equal to its instances
    below, and the properties are proved once, about [decorate_one]. *)

Record config := {
  cfg_selector : selector;                 (* the eligible elements *)
  cfg_wrapper : string;                    (* the class of the wrapper *)
  cfg_excluded : list string;              (* the classes that veto *)
  cfg_layers : list string;                (* the classes of the inner layers *)
  cfg_width : option (tree -> node_id -> string);
                                           (* copy the width, taking the computed
                                              width from this function *)
  cfg_display : option string              (* the wrapper's [display] *)
}.

Fixpoint contains_any (el : node_id) (cs : list string) : M bool :=
  match cs with
  | [] => ret false
  | c :: r => b <- classList_contains el c ;;
              if b then ret true else contains_any el r
  end.

Definition new_layer (cl : string) : M node_id :=
  l <- createElement "div" ;; set_className l cl ;; ret l.

Definition copy_width (c : config) (el wrapper : node_id) : M unit :=
  match cfg_width c with
  | Some computedWidth =>
      sw <- style_width el ;;
      cw <- read (fun s => computedWidth (document s) el) ;;
      let w := if String.eqb sw "" then cw else sw in
      if String.eqb w "" then ret tt else set_style_width wrapper w
  | None => ret tt
  end.

Definition decorate_one (c : config) (el : node_id) : M unit :=
  hit <- closest el [SelClass (cfg_wrapper c)] ;;
  match hit with
  | Some _ => ret tt
  | None =>
      ex <- contains_any el (cfg_excluded c) ;;
      if ex then ret tt else
      wrapper <- createElement "div" ;;
      set_className wrapper (cfg_wrapper c) ;;
      copy_width c el wrapper ;;
      match cfg_display c with
      | Some d => set_style_display wrapper d
      | None => ret tt
      end ;;
      layers <- mapM new_layer (cfg_layers c) ;;
      p <- parentNode_or_throw el ;;
      insertBefore p wrapper (Some el) ;;
      forEach layers (appendChild wrapper) ;;
      appendChild wrapper el
  end.

Definition decorate (c : config) : M unit :=
  els <- querySelectorAll (cfg_selector c) ;;
  forEach els (decorate_one c).

Definition v1_inputs (computedWidth : tree -> node_id -> string) : config :=
  {| cfg_selector := V1.input_selector;
     cfg_wrapper := "input-animated-wrapper";
     cfg_excluded := ["search-input"];
     cfg_layers := [];
     cfg_width := Some computedWidth;
     cfg_display := None |}.

Definition v1_buttons : config :=
  {| cfg_selector := V1.button_selector;
     cfg_wrapper := "btn-animated-wrapper";
     cfg_excluded := ["nav-btn"; "tab-btn"; "card-btn"];
     cfg_layers := [];
     cfg_width := None;
     cfg_display := None |}.

Definition v2_inputs : config :=
  {| cfg_selector := V2.input_selector;
     cfg_wrapper := "input-animated-wrapper";
     cfg_excluded := [];
     cfg_layers := ["glow-input"; "darkBorderBg-input"; "border-input"];
     cfg_width := None;
     cfg_display := None |}.

Definition v2_buttons : config :=
  {| cfg_selector := V2.button_selector;
     cfg_wrapper := "btn-animated-wrapper";
     cfg_excluded := ["nav-btn"; "tab-btn"];
     cfg_layers := ["glow-btn"; "darkBorderBg-btn"; "border-btn"];
     cfg_width := None;
     cfg_display := Some "inline-block" |}.

(** ** What a step does, as functions of the store before it *)

Definition attrs_at (el : node_id) (s : dom) : option attrs :=
  option_map root_attrs (node_at el s).

(** The element or one of its ancestors carries the class [cl]. *)
Definition below_class (cl : string) (el : node_id) (s : dom) : bool :=
  match ancestors_at el s with
  | Some l => existsb (fun na => matches [SelClass cl] (snd na)) l
  | None => false
  end.

Definition excluded (c : config) (el : node_id) (s : dom) : bool :=
  match node_at el s with
  | Some t => existsb (fun cl => has_class cl (root_attrs t)) (cfg_excluded c)
  | None => false
  end.

(** The step leaves the element alone. *)
Definition skipped (c : config) (el : node_id) (s : dom) : bool :=
  below_class (cfg_wrapper c) el s || excluded c el s.

Definition with_copied_width (c : config) (el : node_id) (s : dom) (a : attrs) : attrs :=
  match cfg_width c with
  | Some computedWidth =>
      let sw := match node_at el s with
                | Some t => styleWidth (root_attrs t)
                | None => ""
                end in
      let w := if String.eqb sw "" then computedWidth (document s) el else sw in
      if String.eqb w "" then a else with_styleWidth w a
  | None => a
  end.

Definition with_display (c : config) (a : attrs) : attrs :=
  match cfg_display c with
  | Some d => with_styleDisplay d a
  | None => a
  end.

(** The attributes of the wrapper the step makes for [el]. *)
Definition wrapper_attrs (c : config) (el : node_id) (s : dom) : attrs :=
  with_display c
    (with_copied_width c el s
       (with_classList [cfg_wrapper c] (new_element (quirks_mode s) "div"))).

(** The attributes of a layer, in a document in the mode [q]. *)
Definition layer_attrs (q : bool) (cl : string) : attrs :=
  with_classList [cl] (new_element q "div").

Fixpoint layer_nodes (q : bool) (n : node_id) (cls : list string) : list tree :=
  match cls with
  | [] => []
  | cl :: r => Node n (layer_attrs q cl) [] :: layer_nodes q (S n) r
  end.

(** ** One-hole contexts: a tree around one of its subtrees *)

Inductive ctx :=
| Hole
| Below (j : node_id) (a : attrs) (l : list tree) (c : ctx) (r : list tree).

Fixpoint plug (c : ctx) (t : tree) : tree :=
  match c with
  | Hole => t
  | Below j a l c' r => Node j a (l ++ plug c' t :: r)
  end.

(** The nodes of the context on the way up from the hole, nearest first. *)
Fixpoint path (c : ctx) : list (node_id * attrs) :=
  match c with
  | Hole => []
  | Below j a _ c' _ => path c' ++ [(j, a)]
  end.

Fixpoint before (c : ctx) : list (node_id * attrs) :=
  match c with
  | Hole => []
  | Below j a l c' _ => (j, a) :: flat_map nodes l ++ before c'
  end.

Fixpoint after (c : ctx) : list (node_id * attrs) :=
  match c with
  | Hole => []
  | Below _ _ _ c' r => after c' ++ flat_map nodes r
  end.

(** ** Well-formed stores *)

Fixpoint nodupb (l : list node_id) : bool :=
  match l with
  | [] => true
  | x :: r => negb (mem x r) && nodupb r
  end.

(** Below the document node there are no document nodes, and only elements
    have children. *)
Fixpoint inner_ok (t : tree) : bool :=
  match t with
  | Node _ a ks =>
      match nodeType a with
      | ElementNode => true
      | DocumentNode => false
      | _ => match ks with [] => true | _ => false end
      end && forallb inner_ok ks
  end.

Definition all_ids (s : dom) : list node_id := flat_map ids (forest s).

Definition well_formed (s : dom) : bool :=
  nodupb (all_ids s)
  && forallb (fun i => i <? next_id s) (all_ids s)
  && has_kind DocumentNode (document s)
  && forallb inner_ok (children (document s)).

(** The induction principle of trees, with the hypothesis for the children. *)
Fixpoint tree_induction (P : tree -> Prop)
    (H : forall i a ks, Forall P ks -> P (Node i a ks)) (t : tree) : P t :=
  match t with
  | Node i a ks =>
      H i a ks ((fix go (l : list tree) : Forall P l :=
                   match l with
                   | [] => Forall_nil P
                   | k :: r => Forall_cons k (tree_induction P H k) (go r)
                   end) ks)
  end.

(** The store after a step that wrapped [el]: the wrapper [w], made of the
    next free identity, stands where [el] stood, and holds the layers and then
    [el] with everything below it. *)
Definition wrapped_store (c : config) (el : node_id) (s s' : dom) : Prop :=
  exists (cx : ctx) (p : node_id) (pa : attrs) (l r : list tree) (K : tree),
    document s = plug cx (Node p pa (l ++ K :: r)) /\
    root_id K = el /\
    document s' =
      plug cx (Node p pa (l ++ Node (next_id s) (wrapper_attrs c el s)
                                    (layer_nodes (quirks_mode s) (S (next_id s))
                                                 (cfg_layers c) ++ [K]) :: r)) /\
    detached s' = detached s /\
    next_id s' = S (next_id s) + List.length (cfg_layers c).

(** The position of the first [x] in the list, its length when there is
    none. *)
Fixpoint index_of (x : node_id) (l : list node_id) : nat :=
  match l with
  | [] => 0
  | y :: r => if y =? x then 0 else S (index_of x r)
  end.

(** [x] comes before [y] in the list. *)
Definition precedes (x y : node_id) (l : list node_id) : Prop :=
  In x l /\ In y l /\ index_of x l < index_of y l.

Definition child_ids (i : node_id) (s : dom) : option (list node_id) :=
  option_map (fun t => map root_id (children t)) (node_at i s).

Definition document_order (s : dom) : list node_id := ids (document s).

(** The position of a node in tree order. *)
Definition pos (x : node_id) (s : dom) : nat := index_of x (document_order s).

(** The elements a pass visits: the result of its [querySelectorAll]. *)
Definition targets (c : config) (s : dom) : list node_id :=
  map fst (filter (fun na => matches (cfg_selector c) (snd na))
                  (descendants (document s))).

(** What of a node does not depend on what is below its children. *)
Definition shape (t : tree) : attrs * list node_id :=
  (root_attrs t, map root_id (children t)).

Definition shape_at (i : node_id) (s : dom) : option (attrs * list node_id) :=
  option_map shape (node_at i s).

(** An element below the document node: what [querySelectorAll] can return. *)
Definition is_target_node (el : node_id) (s : dom) : Prop :=
  exists a, In (el, a) (descendants (document s)) /\ is_element a = true.

(** Every eligible element of the document is left alone by a step of [c]. *)
Definition settled (c : config) (s : dom) : Prop :=
  forall el a, In (el, a) (descendants (document s)) ->
    matches (cfg_selector c) a = true -> skipped c el s = true.

(** The nodes that the steps of [d] make are not eligible for [c], in either
    mode of the document. *)
Definition unmatched (c d : config) : bool :=
  forallb (fun q =>
    negb (matches (cfg_selector c)
            (with_classList [cfg_wrapper d] (new_element q "div")))
    && forallb (fun cl => negb (matches (cfg_selector c) (layer_attrs q cl)))
               (cfg_layers d)) [false; true].

(** The attributes of the nodes that the steps of [c] make. *)
Definition made_by (c : config) (a : attrs) : Prop :=
  (exists el s, a = wrapper_attrs c el s) \/
  (exists q cl, In cl (cfg_layers c) /\ a = layer_attrs q cl).

(** Among the nodes [l] (an element and its ancestors), those that carry the
    class [cls] and were created at or after the identity [n0]. *)
Definition created_wrappers (n0 : node_id) (cls : string)
    (l : list (node_id * attrs)) : list (node_id * attrs) :=
  filter (fun na => (n0 <=? fst na) && matches [SelClass cls] (snd na)) l.

(** Two trees that give a document the same named properties, wherever they
    stand in it. *)
Definition names_agree (T T' : tree) : Prop :=
  existsb is_plugin (nodes T) = existsb is_plugin (nodes T') /\
  forall under, names_below under T = names_below under T'.

(** No layer of [d] carries the class [cls], in either mode of the
    document. *)
Definition layers_free (cls : string) (d : config) : bool :=
  forallb (fun q =>
    forallb (fun cl => negb (matches [SelClass cls] (layer_attrs q cl))) (cfg_layers d))
    [false; true].

(** No node that the steps of [d] make carries the class [cls]. *)
Definition class_free (cls : string) (d : config) : bool :=
  forallb (fun q =>
    negb (matches [SelClass cls] (with_classList [cfg_wrapper d] (new_element q "div"))))
    [false; true]
  && layers_free cls d.

(** The list [l] of nodes is in the tree order of the document. *)
Definition in_tree_order (l : list node_id) (s : dom) : Prop :=
  StronglySorted (fun a b => pos a s < pos b s) l.

(** No node of the document from [n0] on carries the class. *)
Definition class_absent (n0 : node_id) (cls : string) (s : dom) : Prop :=
  forall x a, In (x, a) (descendants (document s)) -> n0 <= x ->
    matches [SelClass cls] a = false.

(** What the steps of a pass keep, for the class [cfg_wrapper c] of its
    wrappers: the elements still to visit are in tree order; a node has at
    most one created ancestor with the class; and there is no such ancestor
    between a node and an element still to visit. *)
Definition own_class_inv (c : config) (n0 : node_id) (rest : list node_id) (st : dom) : Prop :=
  in_tree_order rest st /\
  (forall y, In y rest -> In y (document_order st)) /\
  (forall x anc, In x (document_order st) -> ancestors_at x st = Some anc ->
     List.length (created_wrappers n0 (cfg_wrapper c) anc) <= 1) /\
  (forall y x l1 ay l2, In y rest -> In x (document_order st) ->
     ancestors_at x st = Some (l1 ++ (y, ay) :: l2) ->
     created_wrappers n0 (cfg_wrapper c) l1 = []).

(** What the steps keep of the tree order of the document [s0]: the order
    of its nodes, and, for a node that is inside a created wrapper, that the
    wrapper comes right before what comes before the node. *)
Definition keeps_order (s0 st : dom) : Prop :=
  next_id s0 <= next_id st /\
  (forall x, In x (document_order s0) -> In x (document_order st)) /\
  (forall x y, In x (document_order s0) -> In y (document_order s0) ->
     pos x s0 < pos y s0 -> pos x st < pos y st) /\
  (forall x wx, In x (document_order s0) -> parent_in x st = Some wx ->
     next_id s0 <= wx ->
     In wx (document_order st) /\ pos wx st < pos x st /\
     forall y, In y (document_order s0) -> pos y st < pos x st -> pos y st < pos wx st).

(** A listener: the input pass, then the button pass. *)
Definition listener_of (c1 c2 : config) : M unit := decorate c1 ;; decorate c2.


(** [w] is the wrapper that a step of [c] made for [x]: it is the parent of
    [x], it has the attributes the step gave it, and its children are the
    layers, in the order of the settings, and then [x]. *)
Definition wrapper_of (c : config) (x w : node_id) (s : dom) : Prop :=
  parent_in x s = Some w /\
  In w (document_order s) /\
  (exists s0, shape_at w s =
                Some (wrapper_attrs c x s0,
                      seq (S w) (List.length (cfg_layers c)) ++ [x]) /\
              attrs_at x s0 = attrs_at x s) /\
  forall i cl, nth_error (cfg_layers c) i = Some cl ->
    In (S w + i) (document_order s) /\
    shape_at (S w + i) s = Some (layer_attrs (quirks_mode s) cl, []).

(** What the steps of a pass over the document [s] keep, for an element
    [el0] with the ancestors [anc] that the pass is to decorate: it is still
    to visit, with the ancestors it had, or it is inside its wrapper. *)
Definition decorated_inv (c : config) (s : dom) (el0 : node_id)
    (anc : list (node_id * attrs)) (rest : list node_id) (st : dom) : Prop :=
  (forall x, In x rest -> In x (targets c s)) /\
  next_id s <= next_id st /\
  (forall x, In x (document_order s) ->
     In x (document_order st) /\ attrs_at x st = attrs_at x s) /\
  ((In el0 rest /\ ancestors_at el0 st = Some anc) \/
   (exists w, next_id s <= w /\ wrapper_of c el0 w st)).

(** ** The passes and the listeners of the two variants, by name *)

Inductive pass := V1_inputs | V1_buttons | V2_inputs | V2_buttons.

Inductive variant := Variant1 | Variant2.

Section Passes.
Variable computedWidth : tree -> node_id -> string.

(** The pass, as the script has it. *)
Definition run_pass (p : pass) : M unit :=
  match p with
  | V1_inputs => V1.input_pass computedWidth
  | V1_buttons => V1.button_pass
  | V2_inputs => V2.input_pass
  | V2_buttons => V2.button_pass
  end.

(** The callback of its [forEach], as the script has it. *)
Definition run_step (p : pass) : node_id -> M unit :=
  match p with
  | V1_inputs => V1.wrap_input computedWidth
  | V1_buttons => V1.wrap_button
  | V2_inputs => V2.wrap_input
  | V2_buttons => V2.wrap_button
  end.

(** Its settings. *)
Definition config_of (p : pass) : config :=
  match p with
  | V1_inputs => v1_inputs computedWidth
  | V1_buttons => v1_buttons
  | V2_inputs => v2_inputs
  | V2_buttons => v2_buttons
  end.

Definition run_listener (v : variant) : M unit :=
  match v with
  | Variant1 => V1.listener computedWidth
  | Variant2 => V2.listener
  end.

Definition input_pass_of (v : variant) : pass :=
  match v with Variant1 => V1_inputs | Variant2 => V2_inputs end.

Definition button_pass_of (v : variant) : pass :=
  match v with Variant1 => V1_buttons | Variant2 => V2_buttons end.
End Passes.

(* ================================================================== *)
(** * Sample documents *)

(** The document node of a document in no-quirks mode. *)
Definition document_attrs : attrs :=
  {| nodeType := DocumentNode; localName := ""; typeAttr := None;
     classList := []; styleWidth := ""; styleDisplay := "";
     nameAttr := ""; idAttr := ""; htmlElement := false; fallback := false;
     quirks := false |}.

(** An HTML element of such a document, without [name] and [id]. *)
Definition element (tag : string) (ty : option string) (cls : list string)
    (width : string) : attrs :=
  {| nodeType := ElementNode; localName := tag; typeAttr := ty;
     classList := cls; styleWidth := width; styleDisplay := "";
     nameAttr := ""; idAttr := ""; htmlElement := true; fallback := false;
     quirks := false |}.

(** The same node in a document in quirks mode. *)
Definition in_quirks (a : attrs) : attrs :=
  {| nodeType := nodeType a; localName := localName a; typeAttr := typeAttr a;
     classList := classList a; styleWidth := styleWidth a;
     styleDisplay := styleDisplay a;
     nameAttr := nameAttr a; idAttr := idAttr a; htmlElement := htmlElement a;
     fallback := fallback a; quirks := true |}.

Fixpoint quirks_tree (t : tree) : tree :=
  match t with
  | Node i a ks => Node i (in_quirks a) (map quirks_tree ks)
  end.

(** The same page without its doctype: the document is in quirks mode. *)
Definition quirks_page (s : dom) : dom :=
  {| document := quirks_tree (document s);
     detached := map quirks_tree (detached s);
     next_id := next_id s |}.

(** The same element with the [name] attribute [n]. *)
Definition named (n : string) (a : attrs) : attrs :=
  {| nodeType := nodeType a; localName := localName a; typeAttr := typeAttr a;
     classList := classList a; styleWidth := styleWidth a;
     styleDisplay := styleDisplay a;
     nameAttr := n; idAttr := idAttr a; htmlElement := htmlElement a;
     fallback := fallback a; quirks := quirks a |}.

(** A page [<html><body>...</body></html>] with the given body; the document
    node is 0, [html] is 1 and [body] is 2. *)
Definition page (body : list tree) (next : node_id) : dom :=
  {| document :=
       Node 0 document_attrs
         [Node 1 (element "html" None [] "")
            [Node 2 (element "body" None [] "") body]];
     detached := [];
     next_id := next |}.

(** A layout in which every computed width is [auto]. *)
Definition no_layout (_ : tree) (_ : node_id) : string := "auto".

(** [<input type="text" style="width:200px"> <button type="submit"
    class="btn card-btn"> <textarea class="submit-btn">] *)
Definition sample_form : dom :=
  page [Node 3 (element "input" (Some "text") [] "200px") [];
        Node 4 (element "button" (Some "submit") ["btn"; "card-btn"] "") [];
        Node 5 (element "textarea" None ["submit-btn"] "") []] 6.

(** [<div><p></p></div>]: nothing to decorate. *)
Definition sample_plain : dom :=
  page [Node 3 (element "div" None [] "") [Node 4 (element "p" None [] "") []]] 5.

(** [<div class="search-input"><input type="text"></div>] *)
Definition sample_search_box : dom :=
  page [Node 3 (element "div" None ["search-input"] "")
          [Node 4 (element "input" (Some "text") [] "") []]] 5.

(** [<div class="search-input"><input type="text"><input type="email"></div>] *)
Definition sample_search_pair : dom :=
  page [Node 3 (element "div" None ["search-input"] "")
          [Node 4 (element "input" (Some "text") [] "") [];
           Node 5 (element "input" (Some "email") [] "") []]] 6.

(** [<div class="btn-primary"><button type="submit" class="nav-btn"></div>] *)
Definition sample_nav_in_primary : dom :=
  page [Node 3 (element "div" None ["btn-primary"] "")
          [Node 4 (element "button" (Some "submit") ["nav-btn"] "") []]] 5.

(** [<div class="btn-primary"><div class="btn-animated-wrapper"><button
    type="submit"></div></div>]: a page that comes with a wrapper. *)
Definition sample_prewrapped : dom :=
  page [Node 3 (element "div" None ["btn-primary"] "")
          [Node 4 (element "div" None ["btn-animated-wrapper"] "")
             [Node 5 (element "button" (Some "submit") [] "") []]]] 6.

(** [<form name="querySelectorAll"><p></p></form>]: nothing to decorate, and
    a form that stands in the way of [document.querySelectorAll]. *)
Definition sample_named_form : dom :=
  page [Node 3 (named "querySelectorAll" (element "form" None [] ""))
          [Node 4 (element "p" None [] "") []]] 5.

(** [<input type="text"> <img name="createElement">]: an input to decorate,
    and an image that stands in the way of [document.createElement]. *)
Definition sample_named_image : dom :=
  page [Node 3 (element "input" (Some "text") [] "") [];
        Node 4 (named "createElement" (element "img" None [] "")) []] 5.

(** [<div class="Input-Animated-Wrapper"><input type="TEXT"></div>]: the
    class of the [div] is the wrapper class of the input pass but for the
    case of its letters. *)
Definition sample_capital_wrapper : dom :=
  page [Node 3 (element "div" None ["Input-Animated-Wrapper"] "")
          [Node 4 (element "input" (Some "TEXT") [] "") []]] 5.

(** [<html class="btn-primary">]: the document element is a button target. *)
Definition sample_root_button : dom :=
  {| document := Node 0 document_attrs
                   [Node 1 (element "html" None ["btn-primary"] "")
                      [Node 2 (element "body" None [] "") []]];
     detached := [];
     next_id := 3 |}.

(* ================================================================== *)
(** * Notation and tactics for the proofs *)

Local Abbreviation St d D n := {| document := d; detached := D; next_id := n |}.

(** Rewriting with the result of a guard of the step. *)
Ltac step_guard E := repeat (cbn beta iota; rewrite E); cbn beta iota.

Ltac run_both :=
  repeat first
    [ progress (cbn [forEach map_trees next_id document detached];
                unfold bind, ret; cbn beta iota zeta)
    | match goal with
      | |- context [if ?b then _ else _] => destruct b
      end
    | match goal with
      | |- context [match ?X with pair _ _ => _ end] => destruct X as [[?|?] ?]
      end ].

Ltac unfold_step c :=
  cbn [c cfg_layers cfg_width cfg_display cfg_wrapper cfg_excluded
       contains_any mapM forEach copy_width];
  unfold bind, ret, new_layer, createElement, set_className, set_style_display,
    set_style_width,
    classList_contains, style_width, modify, read.

(** Case analysis on the comparisons of positions. *)
Ltac split_ltb :=
  repeat match goal with
         | |- context [?a <? ?b] => destruct (Nat.ltb_spec a b)
         | H : context [?a <? ?b] |- _ => destruct (Nat.ltb_spec a b)
         end.
(* ================================================================== *)
(** * Facts about lists *)

Lemma mem_In (i : node_id) (l : list node_id) : mem i l = true <-> In i l.
Proof.
  unfold mem. rewrite existsb_exists. split.
  - intros (x & Hx & E). apply Nat.eqb_eq in E. now subst.
  - intros H. exists i. split; [assumption | apply Nat.eqb_refl].
Qed.

Lemma mem_false (i : node_id) (l : list node_id) : mem i l = false <-> ~ In i l.
Proof.
  rewrite <- mem_In. destruct (mem i l); split; intros H; try easy;
    exfalso; now apply H.
Qed.

Lemma nodupb_NoDup (l : list node_id) : nodupb l = true <-> NoDup l.
Proof.
  induction l as [|x r IH]; simpl.
  - split; [constructor | reflexivity].
  - rewrite andb_true_iff, negb_true_iff, mem_false, IH. split.
    + intros [H1 H2]. now constructor.
    + intros H. inversion H; subst. now split.
Qed.

Section FirstSomeFacts.
Context {A B : Type}.
Implicit Types (f g : A -> option B) (l : list A).

Lemma first_some_app f l1 l2 :
  first_some f (l1 ++ l2) =
  match first_some f l1 with Some b => Some b | None => first_some f l2 end.
Proof.
  induction l1 as [|x r IH]; simpl; [reflexivity|].
  destruct (f x); [reflexivity | exact IH].
Qed.

Lemma first_some_none f l :
  (forall x, In x l -> f x = None) -> first_some f l = None.
Proof.
  induction l as [|x r IH]; simpl; intros H; [reflexivity|].
  rewrite (H x (or_introl eq_refl)). apply IH. intros y Hy. apply H. now right.
Qed.

Lemma first_some_ext f g l :
  (forall x, In x l -> f x = g x) -> first_some f l = first_some g l.
Proof.
  induction l as [|x r IH]; simpl; intros H; [reflexivity|].
  rewrite (H x (or_introl eq_refl)), IH; [reflexivity|].
  intros y Hy. apply H. now right.
Qed.

Lemma first_some_In f l b :
  first_some f l = Some b -> exists x, In x l /\ f x = Some b.
Proof.
  induction l as [|x r IH]; simpl; [discriminate|].
  destruct (f x) eqn:E.
  - intros [= <-]. exists x. split; [now left | assumption].
  - intros H. destruct (IH H) as (y & Hy & Ey). exists y. split; [now right | assumption].
Qed.
End FirstSomeFacts.

(* ================================================================== *)
(** * Facts about trees *)

Lemma ids_Node i a ks : ids (Node i a ks) = i :: flat_map ids ks.
Proof.
  unfold ids. simpl. f_equal.
  induction ks as [|k r IH]; simpl; [reflexivity|].
  now rewrite map_app, IH.
Qed.

Lemma ids_root t : In (root_id t) (ids t).
Proof. destruct t. rewrite ids_Node. now left. Qed.

Lemma in_flat_ids x (ks : list tree) :
  In x (flat_map ids ks) <-> exists k, In k ks /\ In x (ids k).
Proof. apply in_flat_map. Qed.

Lemma notin_flat_ids x (ks : list tree) k :
  ~ In x (flat_map ids ks) -> In k ks -> ~ In x (ids k).
Proof. intros H Hk Hx. apply H. apply in_flat_ids. now exists k. Qed.

Lemma flat_ids_app (l1 l2 : list tree) :
  flat_map ids (l1 ++ l2) = flat_map ids l1 ++ flat_map ids l2.
Proof. apply flat_map_app. Qed.

Lemma find_node_notin i t : ~ In i (ids t) -> find_node i t = None.
Proof.
  induction t as [j a ks IH] using tree_induction. rewrite ids_Node. simpl.
  intros H. destruct (Nat.eqb_spec j i) as [->|N]; [exfalso; apply H; now left|].
  apply first_some_none. intros k Hk. rewrite Forall_forall in IH.
  apply IH; [assumption|]. intros Hx. apply H. right. apply in_flat_ids. now exists k.
Qed.

Lemma find_node_root i t T : find_node i t = Some T -> root_id T = i.
Proof.
  revert T. induction t as [j a ks IH] using tree_induction. simpl. intros T.
  destruct (Nat.eqb_spec j i) as [->|N].
  - now intros [= <-].
  - intros H. apply first_some_In in H as (k & Hk & E).
    rewrite Forall_forall in IH. exact (IH k Hk T E).
Qed.

Lemma find_node_ids i t T x : find_node i t = Some T -> In x (ids T) -> In x (ids t).
Proof.
  revert T. induction t as [j a ks IH] using tree_induction. cbn [find_node]. intros T.
  destruct (Nat.eqb_spec j i) as [->|N].
  - now intros [= <-].
  - intros H Hx. apply first_some_In in H as (k & Hk & E).
    rewrite Forall_forall in IH. rewrite ids_Node. right.
    apply in_flat_ids. exists k. split; [assumption|]. exact (IH k Hk T E Hx).
Qed.

Lemma find_node_in i t : In i (ids t) -> exists T, find_node i t = Some T.
Proof.
  induction t as [j a ks IH] using tree_induction. rewrite ids_Node. simpl.
  destruct (Nat.eqb_spec j i) as [->|N]; [now eexists|].
  intros [E|H]; [contradiction|].
  apply in_flat_ids in H as (k & Hk & Hx).
  rewrite Forall_forall in IH.
  induction ks as [|k0 r IHr]; [destruct Hk|]. simpl.
  destruct (find_node i k0) eqn:E0; [now eexists|].
  destruct Hk as [->|Hk].
  - destruct (IH k (or_introl eq_refl) Hx) as [T ET]. congruence.
  - apply IHr; [|assumption]. intros y Hy. apply IH. now right.
Qed.

Lemma anc_notin i t : ~ In i (ids t) -> inclusive_ancestors i t = None.
Proof.
  induction t as [j a ks IH] using tree_induction. rewrite ids_Node. simpl.
  intros H. destruct (Nat.eqb_spec j i) as [->|N]; [exfalso; apply H; now left|].
  rewrite first_some_none; [reflexivity|]. intros k Hk. rewrite Forall_forall in IH.
  apply IH; [assumption|]. intros Hx. apply H. right. apply in_flat_ids. now exists k.
Qed.

Lemma anc_in i t : In i (ids t) -> exists l, inclusive_ancestors i t = Some l.
Proof.
  induction t as [j a ks IH] using tree_induction. rewrite ids_Node. simpl.
  destruct (Nat.eqb_spec j i) as [->|N]; [now eexists|].
  intros [E|H]; [contradiction|].
  apply in_flat_ids in H as (k & Hk & Hx).
  rewrite Forall_forall in IH.
  assert (exists l, first_some (inclusive_ancestors i) ks = Some l) as [l ->]; [|now eexists].
  induction ks as [|k0 r IHr]; [destruct Hk|]. simpl.
  destruct (inclusive_ancestors i k0) eqn:E0; [now eexists|].
  destruct Hk as [->|Hk].
  - destruct (IH k (or_introl eq_refl) Hx) as [T ET]. congruence.
  - apply IHr; [|assumption]. intros y Hy. apply IH. now right.
Qed.

Lemma anc_some_in i t l : inclusive_ancestors i t = Some l -> In i (ids t).
Proof.
  intros H. destruct (in_dec Nat.eq_dec i (ids t)) as [Hi|Hi]; [assumption|].
  rewrite anc_notin in H by assumption. discriminate.
Qed.

Lemma find_some_in i t T : find_node i t = Some T -> In i (ids t).
Proof.
  intros H. destruct (in_dec Nat.eq_dec i (ids t)) as [Hi|Hi]; [assumption|].
  rewrite find_node_notin in H by assumption. discriminate.
Qed.

(** The ancestors of a node are nodes of the tree, and the first is the node. *)
Lemma anc_incl i t l na : inclusive_ancestors i t = Some l -> In na l -> In na (nodes t).
Proof.
  revert l. induction t as [j a ks IH] using tree_induction. simpl. intros l.
  destruct (Nat.eqb_spec j i) as [->|N].
  - intros [= <-] [<-|[]]. now left.
  - destruct (first_some (inclusive_ancestors i) ks) as [l'|] eqn:E; [|discriminate].
    intros [= <-] Hin. apply in_app_or in Hin as [Hin|[<-|[]]]; [|now left].
    right. apply first_some_In in E as (k & Hk & Ek).
    rewrite Forall_forall in IH. apply in_flat_map. exists k. split; [assumption|].
    exact (IH k Hk l' Ek Hin).
Qed.

Lemma anc_head i t l : inclusive_ancestors i t = Some l ->
  exists a rest, l = (i, a) :: rest /\ option_map root_attrs (find_node i t) = Some a.
Proof.
  revert l. induction t as [j a ks IH] using tree_induction. simpl. intros l.
  destruct (Nat.eqb_spec j i) as [->|N].
  - intros [= <-]. now exists a, [].
  - destruct (first_some (inclusive_ancestors i) ks) as [l'|] eqn:E; [|discriminate].
    intros [= <-]. rewrite Forall_forall in IH.
    induction ks as [|k0 r IHr]; [discriminate|]. simpl in E |- *.
    destruct (inclusive_ancestors i k0) as [l0|] eqn:E0.
    + injection E as <-. destruct (IH k0 (or_introl eq_refl) l0 E0) as (a0 & rest & -> & Hf).
      exists a0, (rest ++ [(j, a)]). split; [reflexivity|].
      destruct (find_node i k0); [assumption | discriminate].
    + rewrite find_node_notin.
      * apply IHr; [|assumption]. intros y Hy. apply IH. now right.
      * intros Hi. apply anc_in in Hi as [l1 E1]. congruence.
Qed.

(** ** The updates leave alone a tree that does not hold their target *)

Lemma map_id_on {A} (f : A -> A) (l : list A) :
  (forall x, In x l -> f x = x) -> map f l = l.
Proof.
  induction l as [|x r IH]; simpl; intros H; [reflexivity|].
  rewrite (H x (or_introl eq_refl)), IH; [reflexivity|]. intros y Hy. apply H. now right.
Qed.

Lemma set_attrs_notin i f t : ~ In i (ids t) -> set_attrs i f t = t.
Proof.
  induction t as [j a ks IH] using tree_induction. rewrite ids_Node. simpl. intros H.
  destruct (Nat.eqb_spec j i) as [->|N]; [exfalso; apply H; now left|].
  f_equal. apply map_id_on. intros k Hk. rewrite Forall_forall in IH.
  apply IH; [assumption|]. eapply notin_flat_ids; [|eassumption]. tauto.
Qed.

Lemma filter_id_on {A} (p : A -> bool) (l : list A) :
  (forall x, In x l -> p x = true) -> filter p l = l.
Proof.
  induction l as [|x r IH]; simpl; intros H; [reflexivity|].
  rewrite (H x (or_introl eq_refl)), IH; [reflexivity|]. intros y Hy. apply H. now right.
Qed.

Lemma detach_notin n t : ~ In n (ids t) -> detach n t = t.
Proof.
  induction t as [j a ks IH] using tree_induction. rewrite ids_Node. simpl. intros H.
  f_equal. rewrite Forall_forall in IH. rewrite map_id_on.
  - apply filter_id_on. intros k Hk. apply negb_true_iff, Nat.eqb_neq. intros E.
    apply H. right. apply in_flat_ids. exists k. split; [assumption|]. rewrite <- E. apply ids_root.
  - intros k Hk. apply IH; [assumption|]. eapply notin_flat_ids; [|eassumption]. tauto.
Qed.

Lemma insert_into_notin p n r t : ~ In p (ids t) -> insert_into p n r t = t.
Proof.
  induction t as [j a ks IH] using tree_induction. rewrite ids_Node. simpl. intros H.
  destruct (Nat.eqb_spec j p) as [->|N]; [exfalso; apply H; now left|].
  f_equal. apply map_id_on. intros k Hk. rewrite Forall_forall in IH.
  apply IH; [assumption|]. eapply notin_flat_ids; [|eassumption]. tauto.
Qed.

(* ================================================================== *)
(** * Facts about contexts *)

Lemma nodes_plug c T : nodes (plug c T) = before c ++ nodes T ++ after c.
Proof.
  induction c as [|j a l c IH r]; cbn [plug before after nodes].
  - now rewrite app_nil_r.
  - rewrite flat_map_app. cbn [flat_map]. rewrite IH.
    rewrite <- app_comm_cons. repeat rewrite <- app_assoc. reflexivity.
Qed.

Lemma ids_plug c T :
  ids (plug c T) = map fst (before c) ++ ids T ++ map fst (after c).
Proof. unfold ids. now rewrite nodes_plug, !map_app. Qed.

Lemma map_fst_flat_nodes (ks : list tree) :
  map fst (flat_map nodes ks) = flat_map ids ks.
Proof.
  induction ks as [|k r IH]; cbn [flat_map map]; [reflexivity|].
  now rewrite map_app, IH.
Qed.

Lemma root_id_plug_Below j a l c r T : root_id (plug (Below j a l c r) T) = j.
Proof. reflexivity. Qed.

(** A node other than the root is a child of a node of the tree. *)
Lemma parent_decomposition x t :
  In x (ids t) -> x <> root_id t ->
  exists c p pa l K r, t = plug c (Node p pa (l ++ K :: r)) /\ root_id K = x.
Proof.
  induction t as [j a ks IH] using tree_induction. rewrite ids_Node.
  cbn [root_id]. intros [E|H] N; [congruence|].
  apply in_flat_ids in H as (k & Hk & Hx).
  destruct (in_split _ _ Hk) as (l & r & ->).
  destruct (Nat.eq_dec (root_id k) x) as [E|NE].
  - exists Hole, j, a, l, k, r. now split.
  - rewrite Forall_forall in IH.
    destruct (IH k Hk Hx (fun e => NE (eq_sym e))) as (c & p & pa & l' & K & r' & -> & EK).
    exists (Below j a l c r), p, pa, l', K, r'. now split.
Qed.

Section Plug.
Variables (c : ctx) (x : node_id).
Hypothesis Hb : ~ In x (map fst (before c)).

Lemma find_plug T : In x (ids T) -> find_node x (plug c T) = find_node x T.
Proof.
  revert Hb. induction c as [|j a l c' IH r]; cbn [plug before]; [reflexivity|].
  intros Hb HT. cbn [map] in Hb. rewrite map_app, map_fst_flat_nodes in Hb.
  cbn [find_node]. destruct (Nat.eqb_spec j x) as [->|N]; [exfalso; apply Hb; now left|].
  rewrite first_some_app, first_some_none.
  - cbn [first_some]. rewrite IH.
    + destruct (find_node_in _ _ HT) as [U ->]. reflexivity.
    + intros H. apply Hb. right. apply in_or_app. now right.
    + assumption.
  - intros k Hk. apply find_node_notin. intros H. apply Hb. right.
    apply in_or_app. left. apply in_flat_ids. now exists k.
Qed.

Lemma anc_plug T lx :
  inclusive_ancestors x T = Some lx ->
  inclusive_ancestors x (plug c T) = Some (lx ++ path c).
Proof.
  revert Hb. induction c as [|j a l c' IH r]; cbn [plug before path].
  - intros _ ->. now rewrite app_nil_r.
  - intros Hb HT. cbn [map] in Hb. rewrite map_app, map_fst_flat_nodes in Hb.
    cbn [inclusive_ancestors].
    destruct (Nat.eqb_spec j x) as [->|N]; [exfalso; apply Hb; now left|].
    rewrite first_some_app, first_some_none.
    + cbn [first_some]. rewrite (IH (fun H => Hb (or_intror (in_or_app _ _ _ (or_intror H)))) HT).
      now rewrite app_assoc.
    + intros k Hk. apply anc_notin. intros H. apply Hb. right.
      apply in_or_app. left. apply in_flat_ids. now exists k.
Qed.

Hypothesis Ha : ~ In x (map fst (after c)).

Lemma insert_plug n r T :
  insert_into x n r (plug c T) = plug c (insert_into x n r T).
Proof.
  revert Hb Ha. induction c as [|j a l c' IH r']; cbn [plug before after]; [reflexivity|].
  intros Hb Ha. cbn [map] in Hb. rewrite map_app, map_fst_flat_nodes in *.
  cbn [insert_into]. destruct (Nat.eqb_spec j x) as [->|N]; [exfalso; apply Hb; now left|].
  f_equal. rewrite map_app. cbn [map]. rewrite IH.
  - f_equal; [|f_equal]; apply map_id_on; intros k Hk; apply insert_into_notin; intros H.
    + apply Hb. right. apply in_or_app. left. apply in_flat_ids. now exists k.
    + apply Ha. apply in_or_app. right. apply in_flat_ids. now exists k.
  - intros H. apply Hb. right. apply in_or_app. now right.
  - intros H. apply Ha. apply in_or_app. now left.
Qed.

Lemma root_id_detach n t : root_id (detach n t) = root_id t.
Proof. now destruct t. Qed.

Lemma detach_plug T :
  x <> root_id T -> detach x (plug c T) = plug c (detach x T).
Proof.
  revert Hb Ha. induction c as [|j a l c' IH r']; cbn [plug before after]; [reflexivity|].
  intros Hb Ha NT. cbn [map] in Hb. rewrite map_app, map_fst_flat_nodes in *.
  cbn [detach]. f_equal. rewrite map_app. cbn [map]. rewrite filter_app. cbn [filter].
  assert (Hb' : ~ In x (map fst (before c'))).
  { intros H. apply Hb. right. apply in_or_app. now right. }
  assert (Ha' : ~ In x (map fst (after c'))).
  { intros H. apply Ha. apply in_or_app. now left. }
  rewrite (IH Hb' Ha' NT).
  assert (Hroot : negb (root_id (plug c' (detach x T)) =? x) = true).
  { apply negb_true_iff, Nat.eqb_neq. destruct c' as [|j' a' l' c'' r''].
    - cbn [plug]. rewrite root_id_detach. congruence.
    - cbn [plug root_id]. intros ->. apply Hb'. now left. }
  rewrite Hroot.
  assert (Hl : forall ks, ~ In x (flat_map ids ks) ->
               filter (fun k => negb (root_id k =? x)) (map (detach x) ks) = ks).
  { intros ks Hks. rewrite map_id_on.
    - apply filter_id_on. intros k Hk. apply negb_true_iff, Nat.eqb_neq. intros E.
      apply Hks. apply in_flat_ids. exists k. split; [assumption|]. rewrite <- E. apply ids_root.
    - intros k Hk. apply detach_notin. eapply notin_flat_ids; eassumption. }
  rewrite !Hl; [reflexivity| |].
  - intros H. apply Ha. apply in_or_app. now right.
  - intros H. apply Hb. right. apply in_or_app. now left.
Qed.
End Plug.

(** The ancestors of a node that is in neither of two subtrees do not depend
    on which of them fills the hole. *)
Lemma anc_plug_out c x T T' :
  ~ In x (ids T) -> ~ In x (ids T') ->
  inclusive_ancestors x (plug c T) = inclusive_ancestors x (plug c T').
Proof.
  intros HT HT'. induction c as [|j a l c IH r]; cbn [plug].
  - now rewrite !anc_notin.
  - cbn [inclusive_ancestors]. destruct (j =? x); [reflexivity|].
    rewrite !first_some_app. cbn [first_some]. now rewrite IH.
Qed.

(** ** Identities without repetition *)

Lemma NoDup_app_iff {A} (l1 l2 : list A) :
  NoDup (l1 ++ l2) <-> NoDup l1 /\ NoDup l2 /\ forall x, In x l1 -> ~ In x l2.
Proof.
  split.
  - intros H. split; [now apply NoDup_app_remove_r in H|].
    split; [now apply NoDup_app_remove_l in H|].
    induction l1 as [|a l1 IH]; [intros x []|].
    cbn in H. inversion H as [|? ? Hn Hd]; subst.
    intros x [<-|Hx].
    + intros H2. apply Hn. apply in_or_app. now right.
    + now apply IH.
  - intros (H1 & H2 & H3). now apply NoDup_app.
Qed.

Lemma nodup_plug_before c T x :
  NoDup (ids (plug c T)) -> In x (ids T) -> ~ In x (map fst (before c)).
Proof.
  rewrite ids_plug. intros H Hx Hb.
  apply NoDup_app_iff in H as (_ & _ & H). apply (H x Hb). apply in_or_app. now left.
Qed.

Lemma nodup_plug_after c T x :
  NoDup (ids (plug c T)) -> In x (ids T) -> ~ In x (map fst (after c)).
Proof.
  rewrite ids_plug. intros H Hx Ha.
  apply NoDup_app_iff in H as (_ & H & _).
  apply NoDup_app_iff in H as (_ & _ & H). exact (H x Hx Ha).
Qed.

Lemma nodup_plug_inner c T : NoDup (ids (plug c T)) -> NoDup (ids T).
Proof.
  rewrite ids_plug. intros H.
  apply NoDup_app_iff in H as (_ & H & _).
  now apply NoDup_app_iff in H as (H & _).
Qed.

Lemma notin_plug_before c T x :
  ~ In x (ids (plug c T)) -> ~ In x (map fst (before c)).
Proof. rewrite ids_plug. intros H Hb. apply H. apply in_or_app. now left. Qed.

Lemma notin_plug_after c T x :
  ~ In x (ids (plug c T)) -> ~ In x (map fst (after c)).
Proof.
  rewrite ids_plug. intros H Hb. apply H. apply in_or_app. right. apply in_or_app. now right.
Qed.

Lemma notin_plug_inner c T x : ~ In x (ids (plug c T)) -> ~ In x (ids T).
Proof.
  rewrite ids_plug. intros H Hb. apply H. apply in_or_app. right. apply in_or_app. now left.
Qed.

(* ================================================================== *)
(** * The updates at the parent of the target *)

Lemma find_among x p pa l X r :
  p <> x -> ~ In x (flat_map ids l) -> root_id X = x ->
  find_node x (Node p pa (l ++ X :: r)) = Some X.
Proof.
  intros N Hl HX. cbn [find_node].
  destruct (Nat.eqb_spec p x); [contradiction|].
  rewrite first_some_app, first_some_none.
  - cbn [first_some]. destruct X as [j a ks]. cbn [find_node root_id] in *.
    subst j. now rewrite Nat.eqb_refl.
  - intros k Hk. apply find_node_notin. eapply notin_flat_ids; eassumption.
Qed.

Lemma anc_among x p pa l X r :
  p <> x -> ~ In x (flat_map ids l) -> root_id X = x ->
  inclusive_ancestors x (Node p pa (l ++ X :: r)) = Some [(x, root_attrs X); (p, pa)].
Proof.
  intros N Hl HX. cbn [inclusive_ancestors].
  destruct (Nat.eqb_spec p x); [contradiction|].
  rewrite first_some_app, first_some_none.
  - cbn [first_some]. destruct X as [j a ks]. cbn [inclusive_ancestors root_id root_attrs] in *.
    subst j. now rewrite Nat.eqb_refl.
  - intros k Hk. apply anc_notin. eapply notin_flat_ids; eassumption.
Qed.

Lemma insert_at_ref_among N el l K r :
  ~ In el (flat_map ids l) -> root_id K = el ->
  insert_at_ref N (Some el) (l ++ K :: r) = l ++ N :: K :: r.
Proof.
  intros Hl HK. unfold insert_at_ref.
  induction l as [|k l IH]; cbn [app insert_before_child].
  - rewrite HK, Nat.eqb_refl. reflexivity.
  - destruct (Nat.eqb_spec (root_id k) el) as [E|NE].
    + exfalso. apply Hl. cbn [flat_map]. apply in_or_app. left. rewrite <- E. apply ids_root.
    + f_equal. apply IH. intros H. apply Hl. cbn [flat_map]. apply in_or_app. now right.
Qed.

Lemma map_insert_notin p n r (ks : list tree) :
  ~ In p (flat_map ids ks) -> map (insert_into p n r) ks = ks.
Proof.
  intros H. apply map_id_on. intros k Hk. apply insert_into_notin.
  eapply notin_flat_ids; eassumption.
Qed.

Lemma map_detach_notin n (ks : list tree) :
  ~ In n (flat_map ids ks) ->
  filter (fun k => negb (root_id k =? n)) (map (detach n) ks) = ks.
Proof.
  intros H. rewrite map_id_on.
  - apply filter_id_on. intros k Hk. apply negb_true_iff, Nat.eqb_neq. intros E.
    apply H. apply in_flat_ids. exists k. split; [assumption|]. rewrite <- E. apply ids_root.
  - intros k Hk. apply detach_notin. eapply notin_flat_ids; eassumption.
Qed.

Lemma map_set_attrs_notin i f (ks : list tree) :
  ~ In i (flat_map ids ks) -> map (set_attrs i f) ks = ks.
Proof.
  intros H. apply map_id_on. intros k Hk. apply set_attrs_notin.
  eapply notin_flat_ids; eassumption.
Qed.

Lemma insert_before_among p pa l K r N el :
  ~ In p (flat_map ids (l ++ K :: r)) -> ~ In el (flat_map ids l) -> root_id K = el ->
  insert_into p N (Some el) (Node p pa (l ++ K :: r)) = Node p pa (l ++ N :: K :: r).
Proof.
  intros Hp Hl HK. cbn [insert_into]. rewrite Nat.eqb_refl.
  rewrite map_insert_notin by assumption. now rewrite insert_at_ref_among.
Qed.

Lemma append_among p pa l w wa Ls rest X :
  p <> w -> ~ In w (flat_map ids l) -> ~ In w (flat_map ids Ls) ->
  ~ In w (flat_map ids rest) ->
  insert_into w X None (Node p pa (l ++ Node w wa Ls :: rest)) =
  Node p pa (l ++ Node w wa (Ls ++ [X]) :: rest).
Proof.
  intros N Hl HLs Hrest. cbn [insert_into].
  destruct (Nat.eqb_spec p w); [contradiction|].
  rewrite map_app. cbn [map insert_into]. rewrite Nat.eqb_refl.
  rewrite !map_insert_notin by assumption. reflexivity.
Qed.


Lemma detach_among p pa l Wn K r el :
  ~ In el (flat_map ids l) -> ~ In el (ids Wn) -> ~ In el (flat_map ids r) ->
  root_id K = el ->
  detach el (Node p pa (l ++ Wn :: K :: r)) = Node p pa (l ++ Wn :: r).
Proof.
  intros Hl HW Hr HK. cbn [detach]. f_equal.
  rewrite map_app, filter_app. cbn [map filter].
  rewrite !root_id_detach, HK, Nat.eqb_refl. cbn [negb].
  rewrite !map_detach_notin by assumption.
  rewrite detach_notin by assumption.
  destruct (Nat.eqb_spec (root_id Wn) el) as [E|NE]; [|reflexivity].
  exfalso. apply HW. rewrite <- E. apply ids_root.
Qed.

(* ================================================================== *)
(** * The operations on a store *)

Lemma bind_ok {A B} (m : M A) (f : A -> M B) s a s' :
  m s = (Ok a, s') -> bind m f s = f a s'.
Proof. unfold bind. now intros ->. Qed.

Lemma bind_throw {A B} (m : M A) (f : A -> M B) s e s' :
  m s = (Throw e, s') -> bind m f s = (Throw e, s').
Proof. unfold bind. now intros ->. Qed.

Lemma node_at_doc x s :
  In x (ids (document s)) -> node_at x s = find_node x (document s).
Proof.
  intros H. unfold node_at, forest. cbn [first_some].
  destruct (find_node_in _ _ H) as [T ->]. reflexivity.
Qed.

Lemma ancestors_at_doc x s :
  In x (ids (document s)) -> ancestors_at x s = inclusive_ancestors x (document s).
Proof.
  intros H. unfold ancestors_at, forest. cbn [first_some].
  destruct (anc_in _ _ H) as [T ->]. reflexivity.
Qed.

Lemma node_at_detached x d D1 W D2 n :
  ~ In x (ids d) -> ~ In x (flat_map ids D1) -> root_id W = x ->
  node_at x {| document := d; detached := D1 ++ W :: D2; next_id := n |} = Some W.
Proof.
  intros Hd HD HW. unfold node_at, forest. cbn [first_some document detached].
  rewrite find_node_notin by assumption.
  rewrite first_some_app, first_some_none.
  - cbn [first_some]. destruct W as [j a ks]. cbn [root_id find_node] in *. subst j.
    now rewrite Nat.eqb_refl.
  - intros k Hk. apply find_node_notin. eapply notin_flat_ids; eassumption.
Qed.

Lemma set_attrs_detached w f d D1 a D2 n :
  ~ In w (ids d) -> ~ In w (flat_map ids D1) -> ~ In w (flat_map ids D2) ->
  map_trees (set_attrs w f)
    {| document := d; detached := D1 ++ Node w a [] :: D2; next_id := n |} =
  {| document := d; detached := D1 ++ Node w (f a) [] :: D2; next_id := n |}.
Proof.
  intros Hd H1 H2. unfold map_trees. cbn [document detached next_id].
  rewrite set_attrs_notin by assumption.
  rewrite map_app. cbn [map set_attrs]. rewrite Nat.eqb_refl.
  now rewrite !map_set_attrs_notin by assumption.
Qed.

Lemma remove_detached w d D1 a D2 n :
  ~ In w (ids d) -> ~ In w (flat_map ids D1) -> ~ In w (flat_map ids D2) ->
  remove_node w {| document := d; detached := D1 ++ Node w a [] :: D2; next_id := n |} =
  {| document := d; detached := D1 ++ D2; next_id := n |}.
Proof.
  intros Hd H1 H2. unfold remove_node. cbn [document detached next_id].
  rewrite detach_notin by assumption.
  rewrite map_app, filter_app. cbn [map filter detach root_id].
  rewrite Nat.eqb_refl. cbn [negb].
  now rewrite !map_detach_notin by assumption.
Qed.

Lemma flat_ids_layers q n cls :
  flat_map ids (layer_nodes q n cls) = seq n (List.length cls).
Proof.
  revert n. induction cls as [|cl r IH]; intros n; cbn [layer_nodes flat_map List.length seq].
  - reflexivity.
  - rewrite IH. reflexivity.
Qed.

Lemma flat_nodes_layers q n cls :
  flat_map nodes (layer_nodes q n cls) =
  combine (seq n (List.length cls)) (map (layer_attrs q) cls).
Proof.
  revert n. induction cls as [|cl r IH]; intros n;
    cbn [layer_nodes flat_map List.length seq map combine nodes app]; [reflexivity|].
  now rewrite IH.
Qed.


(** ** The validity check *)

Lemma pre_insert_element pt nt child :
  nodeType (root_attrs pt) = ElementNode ->
  nodeType (root_attrs nt) = ElementNode ->
  mem (root_id pt) (ids nt) = false ->
  match child with Some c => mem c (map root_id (children pt)) | None => true end = true ->
  pre_insert_error pt nt child = None.
Proof.
  intros Hp Hn Hm Hc. unfold pre_insert_error. rewrite Hp, Hn, Hm. cbn.
  destruct child as [c|]; [rewrite Hc|]; reflexivity.
Qed.

Lemma pre_insert_document pt nt child :
  nodeType (root_attrs pt) = DocumentNode ->
  nodeType (root_attrs nt) = ElementNode ->
  mem (root_id pt) (ids nt) = false ->
  match child with Some c => mem c (map root_id (children pt)) | None => true end = true ->
  existsb (has_kind ElementNode) (children pt) = true ->
  pre_insert_error pt nt child = Some HierarchyRequestError.
Proof.
  intros Hp Hn Hm Hc He. unfold pre_insert_error. rewrite Hp, Hn, Hm, He. cbn.
  destruct child as [c|]; [rewrite Hc|]; reflexivity.
Qed.

Lemma mem_root_among el l K r :
  root_id K = el -> mem el (map root_id (l ++ K :: r)) = true.
Proof.
  intros <-. apply mem_In. rewrite map_app. apply in_or_app. right. now left.
Qed.

(** ** Identities of the children of a node without repetition *)

Lemma nodup_children p pa l K r :
  NoDup (ids (Node p pa (l ++ K :: r))) ->
  ~ In p (flat_map ids (l ++ K :: r)) /\
  forall x, In x (ids K) ->
    p <> x /\ ~ In x (flat_map ids l) /\ ~ In x (flat_map ids r).
Proof.
  rewrite ids_Node. intros H. inversion H as [|? ? Hp Hd]; subst. split; [assumption|].
  intros x Hx. rewrite flat_ids_app in Hd, Hp. cbn [flat_map] in Hd, Hp.
  apply NoDup_app_iff in Hd as (_ & Hd & Hdis).
  apply NoDup_app_iff in Hd as (_ & _ & Hdis2).
  repeat split.
  - intros ->. apply Hp. apply in_or_app. right. apply in_or_app. now left.
  - intros Hl. apply (Hdis x Hl). apply in_or_app. now left.
  - now apply Hdis2.
Qed.

(** ** Methods of a node that is not the document *)

Lemma method_of_other {A} n m (call : M A) s :
  n <> root_id (document s) -> method_of n m call s = call s.
Proof.
  intros H. unfold method_of. destruct (Nat.eqb_spec n (root_id (document s))); [contradiction|].
  reflexivity.
Qed.

Lemma method_of_document {A} n m (call : M A) s e :
  n = root_id (document s) -> call s = (Throw e, s) ->
  method_of n m call s = (Throw (if shadowed m s then TypeError else e), s).
Proof.
  intros -> H. unfold method_of. rewrite Nat.eqb_refl. cbn [andb].
  now destruct (shadowed m s).
Qed.

Lemma root_id_plug_same cx T T' :
  root_id T = root_id T' -> root_id (plug cx T) = root_id (plug cx T').
Proof. destruct cx; cbn [plug root_id]; auto. Qed.

Lemma root_id_plug_in cx T : In (root_id (plug cx T)) (ids (plug cx T)).
Proof. apply ids_root. Qed.

(** ** [insertBefore] and [appendChild] where the script calls them *)

Section Insertions.
Variables (cx : ctx) (p : node_id) (pa : attrs) (l r : list tree) (K : tree).
Variables (el w : node_id) (wa : attrs).
Let T := Node p pa (l ++ K :: r).
Hypothesis Hnd : NoDup (ids (plug cx T)).
Hypothesis HK : root_id K = el.
Hypothesis HKe : nodeType (root_attrs K) = ElementNode.
Hypothesis Hw : ~ In w (ids (plug cx T)).
Hypothesis Hwa : nodeType wa = ElementNode.

Lemma p_in_T : In p (ids T).
Proof. unfold T. rewrite ids_Node. now left. Qed.

Lemma el_in_K : In el (ids K).
Proof. rewrite <- HK. apply ids_root. Qed.

Lemma K_in_T x : In x (ids K) -> In x (ids T).
Proof.
  intros H. unfold T. rewrite ids_Node, flat_ids_app. right.
  apply in_or_app. right. cbn [flat_map]. apply in_or_app. now left.
Qed.

Lemma in_T_in_doc x : In x (ids T) -> In x (ids (plug cx T)).
Proof. intros H. rewrite ids_plug. apply in_or_app. right. apply in_or_app. now left. Qed.

Lemma w_fresh_T : p <> w /\ ~ In w (flat_map ids l) /\ ~ In w (ids K) /\ ~ In w (flat_map ids r).
Proof.
  pose proof (notin_plug_inner _ _ _ Hw) as H. unfold T in H.
  rewrite ids_Node, flat_ids_app in H. cbn [flat_map] in H.
  repeat split; intros E; apply H.
  - now left.
  - right. apply in_or_app. now left.
  - right. apply in_or_app. right. apply in_or_app. now left.
  - right. apply in_or_app. right. apply in_or_app. now right.
Qed.

Lemma el_facts : p <> el /\ ~ In el (flat_map ids l) /\ ~ In el (flat_map ids r) /\ el <> w.
Proof.
  destruct (nodup_children _ _ _ _ _ (nodup_plug_inner _ _ Hnd)) as [_ H].
  destruct (H el el_in_K) as (H1 & H2 & H3). repeat split; try assumption.
  intros E. apply Hw. rewrite <- E. apply in_T_in_doc, K_in_T, el_in_K.
Qed.

(** The wrapper goes in front of the target. *)
Lemma insertBefore_wrapper D1 D2 n :
  nodeType pa = ElementNode ->
  root_id (plug cx T) <> p ->
  ~ In w (flat_map ids D1) -> ~ In w (flat_map ids D2) ->
  ~ In p (flat_map ids D1) -> ~ In p (flat_map ids D2) ->
  insertBefore p w (Some el) (St (plug cx T) (D1 ++ Node w wa [] :: D2) n) =
  (Ok tt, St (plug cx (Node p pa (l ++ Node w wa [] :: K :: r))) (D1 ++ D2) n).
Proof.
  intros Hpa Hroot Hw1 Hw2 Hp1 Hp2. unfold insertBefore.
  rewrite method_of_other by (cbn [document]; congruence).
  unfold pre_insert.
  destruct w_fresh_T as (Npw & Hwl & HwK & Hwr).
  destruct el_facts as (Npe & Hel & Her & New).
  destruct (nodup_children _ _ _ _ _ (nodup_plug_inner _ _ Hnd)) as [Hpk _].
  rewrite node_at_doc by (cbn [document]; apply in_T_in_doc, p_in_T).
  cbn [document].
  rewrite find_plug by (first [apply p_in_T | eapply nodup_plug_before; [exact Hnd | apply p_in_T]]).
  unfold T at 1. cbn [find_node]. rewrite Nat.eqb_refl.
  rewrite node_at_detached by (cbn [root_id]; auto).
  rewrite pre_insert_element; cbn [root_attrs root_id children]; auto.
  - destruct (Nat.eqb_spec el w); [contradiction|].
    rewrite remove_detached by assumption.
    unfold map_trees. cbn [document detached next_id].
    rewrite insert_plug.
    + fold T. unfold T. rewrite insert_before_among by assumption.
      rewrite map_insert_notin; [reflexivity|].
      rewrite flat_ids_app. intros H. apply in_app_or in H as [H|H]; auto.
    + eapply nodup_plug_before; [exact Hnd | apply p_in_T].
    + eapply nodup_plug_after; [exact Hnd | apply p_in_T].
  - rewrite ids_Node. cbn [flat_map mem existsb]. destruct (Nat.eqb_spec p w); [contradiction|reflexivity].
  - now apply mem_root_among.
Qed.

(** A wrapper cannot go in front of the document element. *)
Lemma insertBefore_document D1 D2 n :
  nodeType pa = DocumentNode ->
  p = root_id (plug cx T) ->
  ~ In w (flat_map ids D1) ->
  insertBefore p w (Some el) (St (plug cx T) (D1 ++ Node w wa [] :: D2) n) =
  (Throw (if shadowed "insertBefore" (St (plug cx T) (D1 ++ Node w wa [] :: D2) n)
          then TypeError else HierarchyRequestError),
   St (plug cx T) (D1 ++ Node w wa [] :: D2) n).
Proof.
  intros Hpa Hroot Hw1. unfold insertBefore.
  apply method_of_document; [exact Hroot|].
  unfold pre_insert.
  destruct w_fresh_T as (Npw & Hwl & HwK & Hwr).
  rewrite node_at_doc by (cbn [document]; apply in_T_in_doc, p_in_T).
  cbn [document].
  rewrite find_plug by (first [apply p_in_T | eapply nodup_plug_before; [exact Hnd | apply p_in_T]]).
  unfold T at 1. cbn [find_node]. rewrite Nat.eqb_refl.
  rewrite node_at_detached by (cbn [root_id]; auto).
  rewrite pre_insert_document; cbn [root_attrs root_id children]; auto.
  - rewrite ids_Node. cbn [flat_map mem existsb]. destruct (Nat.eqb_spec p w); [contradiction|reflexivity].
  - now apply mem_root_among.
  - rewrite existsb_app. cbn [existsb]. unfold has_kind at 2. rewrite HKe. cbn.
    now rewrite orb_true_r.
Qed.

(** A layer goes to the end of the wrapper. *)
Lemma appendChild_layer Ls rest x xa D1 D2 n :
  ~ In w (flat_map ids Ls) -> ~ In w (flat_map ids rest) ->
  ~ In w (flat_map ids D1) -> ~ In w (flat_map ids D2) ->
  w <> x ->
  ~ In x (ids (plug cx (Node p pa (l ++ Node w wa Ls :: rest)))) ->
  ~ In x (flat_map ids D1) -> ~ In x (flat_map ids D2) ->
  nodeType xa = ElementNode ->
  appendChild w x (St (plug cx (Node p pa (l ++ Node w wa Ls :: rest)))
                      (D1 ++ Node x xa [] :: D2) n) =
  (Ok tt, St (plug cx (Node p pa (l ++ Node w wa (Ls ++ [Node x xa []]) :: rest)))
             (D1 ++ D2) n).
Proof.
  intros HwLs Hwrest Hw1 Hw2 Nwx Hx Hx1 Hx2 Hxa. unfold appendChild.
  rewrite method_of_other.
  2:{ cbn [document]. intros E. apply Hw. rewrite E.
      rewrite (root_id_plug_same cx _ T) by reflexivity. apply ids_root. }
  unfold pre_insert.
  destruct w_fresh_T as (Npw & Hwl & HwK & Hwr).
  assert (Hwb : ~ In w (map fst (before cx))) by (eapply notin_plug_before; exact Hw).
  assert (Hwaf : ~ In w (map fst (after cx))) by (eapply notin_plug_after; exact Hw).
  assert (HwT : In w (ids (Node p pa (l ++ Node w wa Ls :: rest)))).
  { rewrite ids_Node, flat_ids_app. right. apply in_or_app. right.
    cbn [flat_map]. apply in_or_app. left. rewrite ids_Node. now left. }
  rewrite node_at_doc.
  2:{ cbn [document]. rewrite ids_plug. apply in_or_app. right. apply in_or_app. now left. }
  cbn [document]. rewrite find_plug by assumption.
  rewrite find_among by (cbn [root_id]; auto).
  rewrite node_at_detached by (cbn [root_id]; auto).
  rewrite pre_insert_element; cbn [root_attrs root_id children]; auto.
  - rewrite remove_detached by assumption.
    unfold map_trees. cbn [document detached next_id].
    rewrite insert_plug by assumption.
    rewrite append_among by assumption.
    rewrite map_insert_notin; [reflexivity|].
    rewrite flat_ids_app. intros H. apply in_app_or in H as [H|H]; auto.
  - rewrite ids_Node. cbn [flat_map mem existsb]. destruct (Nat.eqb_spec w x); [contradiction|reflexivity].
Qed.

(** The target goes to the end of the wrapper, out of its parent. *)
Lemma appendChild_target Ls D n :
  ~ In w (flat_map ids Ls) -> ~ In el (flat_map ids Ls) ->
  ~ In w (flat_map ids D) -> ~ In el (flat_map ids D) ->
  appendChild w el (St (plug cx (Node p pa (l ++ Node w wa Ls :: K :: r))) D n) =
  (Ok tt, St (plug cx (Node p pa (l ++ Node w wa (Ls ++ [K]) :: r))) D n).
Proof.
  intros HwLs HeLs HwD HeD. unfold appendChild.
  rewrite method_of_other.
  2:{ cbn [document]. intros E. apply Hw. rewrite E.
      rewrite (root_id_plug_same cx _ T) by reflexivity. apply ids_root. }
  unfold pre_insert.
  destruct w_fresh_T as (Npw & Hwl & HwK & Hwr).
  destruct el_facts as (Npe & Hel & Her & New).
  assert (Hwb : ~ In w (map fst (before cx))) by (eapply notin_plug_before; exact Hw).
  assert (Hwaf : ~ In w (map fst (after cx))) by (eapply notin_plug_after; exact Hw).
  assert (Heb : ~ In el (map fst (before cx))).
  { eapply nodup_plug_before; [exact Hnd | apply K_in_T, el_in_K]. }
  assert (Heaf : ~ In el (map fst (after cx))).
  { eapply nodup_plug_after; [exact Hnd | apply K_in_T, el_in_K]. }
  set (T1 := Node p pa (l ++ Node w wa Ls :: K :: r)).
  assert (HwT : In w (ids T1)).
  { unfold T1. rewrite ids_Node, flat_ids_app. right. apply in_or_app. right.
    cbn [flat_map]. apply in_or_app. left. rewrite ids_Node. now left. }
  assert (HeT : In el (ids T1)).
  { unfold T1. rewrite ids_Node, flat_ids_app. right. apply in_or_app. right.
    cbn [flat_map]. apply in_or_app. right. apply in_or_app. left. apply el_in_K. }
  rewrite !node_at_doc.
  2,3: cbn [document]; rewrite ids_plug; apply in_or_app; right; apply in_or_app; now left.
  cbn [document]. rewrite !find_plug by assumption.
  unfold T1. rewrite find_among by (cbn [root_id]; auto).
  replace (l ++ Node w wa Ls :: K :: r) with ((l ++ [Node w wa Ls]) ++ K :: r)
    by (now rewrite <- app_assoc).
  rewrite find_among; auto.
  2:{ rewrite flat_ids_app. cbn [flat_map]. rewrite app_nil_r, ids_Node.
      intros H. apply in_app_or in H as [H|[H|H]]; auto. }
  rewrite <- app_assoc. cbn [app].
  rewrite pre_insert_element; cbn [root_attrs root_id children]; auto.
  2:{ apply mem_false. assumption. }
  unfold remove_node, map_trees. cbn [document detached next_id].
  rewrite detach_plug by (cbn [root_id]; auto).
  rewrite detach_among; auto.
  2:{ rewrite ids_Node. intros [H|H]; auto. }
  rewrite insert_plug by assumption.
  rewrite append_among by assumption.
  rewrite map_detach_notin by assumption.
  rewrite map_insert_notin by assumption. reflexivity.
Qed.
End Insertions.

(* ================================================================== *)
(** * One step of a pass *)

(** ** The guard *)

Lemma find_existsb {A} (f : A -> bool) (l : list A) :
  existsb f l = match find f l with Some _ => true | None => false end.
Proof.
  induction l as [|x r IH]; cbn [existsb find]; [reflexivity|].
  destruct (f x); [reflexivity | exact IH].
Qed.

Lemma closest_below cl el s :
  exists hit, closest el [SelClass cl] s = (Ok hit, s) /\
              below_class cl el s = match hit with Some _ => true | None => false end.
Proof.
  unfold closest, read, below_class.
  destruct (ancestors_at el s) as [l|]; [|now exists None].
  eexists. split; [reflexivity|]. rewrite find_existsb.
  now destruct (find _ l).
Qed.

Lemma contains_any_excluded c el s :
  contains_any el (cfg_excluded c) s = (Ok (excluded c el s), s).
Proof.
  unfold excluded. induction (cfg_excluded c) as [|cl r IH]; cbn [contains_any existsb].
  - unfold ret. now destruct (node_at el s).
  - unfold bind, classList_contains, read at 1.
    destruct (node_at el s) as [t|] eqn:E.
    + destruct (has_class cl (root_attrs t)); [reflexivity|]. cbn [orb]. exact IH.
    + exact IH.
Qed.

Lemma decorate_one_skipped c el s :
  skipped c el s = true -> decorate_one c el s = (Ok tt, s).
Proof.
  unfold skipped, decorate_one. intros H.
  destruct (closest_below (cfg_wrapper c) el s) as (hit & Hc & Hb).
  rewrite (bind_ok _ _ _ _ _ Hc). destruct hit as [h|]; [reflexivity|].
  rewrite Hb in H. cbn [orb] in H.
  rewrite (bind_ok _ _ _ _ _ (contains_any_excluded c el s)). now rewrite H.
Qed.

(** ** Making the wrapper and the layers *)

Lemma wrapper_attrs_element c el s : nodeType (wrapper_attrs c el s) = ElementNode.
Proof.
  unfold wrapper_attrs, with_display, with_copied_width.
  destruct (cfg_display c), (cfg_width c); cbn; try reflexivity;
    repeat (match goal with |- context [if ?b then _ else _] => destruct b end);
    reflexivity.
Qed.

Lemma copy_width_detached c el w a d D n :
  In el (ids d) -> ~ In w (ids d) -> ~ In w (flat_map ids D) ->
  copy_width c el w (St d (D ++ [Node w a []]) n) =
  (Ok tt, St d (D ++ [Node w (with_copied_width c el (St d D n) a) []]) n).
Proof.
  intros He Hw HD. unfold copy_width, with_copied_width.
  destruct (cfg_width c) as [cw|]; [|reflexivity].
  unfold bind, style_width, read. rewrite !node_at_doc by assumption.
  cbn [document].
  match goal with |- context [String.eqb ?x ""] =>
    destruct (String.eqb x "") end; [reflexivity|].
  unfold set_style_width, modify. now rewrite set_attrs_detached by (auto; intros []).
Qed.

Lemma display_detached c w a d D n :
  ~ In w (ids d) -> ~ In w (flat_map ids D) ->
  match cfg_display c with
  | Some v => set_style_display w v
  | None => ret tt
  end (St d (D ++ [Node w a []]) n) =
  (Ok tt, St d (D ++ [Node w (with_display c a) []]) n).
Proof.
  intros Hw HD. unfold with_display. destruct (cfg_display c) as [v|]; [|reflexivity].
  unfold set_style_display, modify. now rewrite set_attrs_detached by (auto; intros []).
Qed.

Lemma createElement_eq tag d D n :
  shadowed "createElement" (St d D n) = false ->
  createElement tag (St d D n) =
  (Ok n, St d (D ++ [Node n (new_element (quirks (root_attrs d)) tag) []]) (S n)).
Proof. intros H. unfold createElement. now rewrite H. Qed.

Lemma createElement_shadowed tag s :
  shadowed "createElement" s = true -> createElement tag s = (Throw TypeError, s).
Proof. intros H. unfold createElement. now rewrite H. Qed.

Lemma mapM_new_layer cls : forall d D n,
  shadowed "createElement" (St d D n) = false ->
  (forall i, n <= i -> ~ In i (ids d) /\ ~ In i (flat_map ids D)) ->
  mapM new_layer cls (St d D n) =
  (Ok (seq n (List.length cls)),
   St d (D ++ layer_nodes (quirks (root_attrs d)) n cls) (n + List.length cls)).
Proof.
  induction cls as [|cl r IH]; intros d D n Hsh Hf; cbn [mapM layer_nodes List.length seq].
  - unfold ret. now rewrite app_nil_r, Nat.add_0_r.
  - destruct (Hf n (le_n n)) as [Hd HD].
    set (q := quirks (root_attrs d)).
    assert (E : new_layer cl (St d D n) =
                (Ok n, St d (D ++ [Node n (layer_attrs q cl) []]) (S n))).
    { unfold new_layer. rewrite (bind_ok _ _ _ _ _ (createElement_eq _ _ _ _ Hsh)).
      unfold bind, set_className, modify, ret.
      now rewrite set_attrs_detached by (auto; intros []). }
    rewrite (bind_ok _ _ _ _ _ E).
    assert (Hf' : forall i, S n <= i ->
              ~ In i (ids d) /\ ~ In i (flat_map ids (D ++ [Node n (layer_attrs q cl) []]))).
    { intros i Hi. destruct (Hf i ltac:(lia)) as [H1 H2]. split; [assumption|].
      rewrite flat_ids_app. cbn [flat_map]. rewrite ids_Node. cbn [flat_map app].
      intros H. apply in_app_or in H as [H|[H|[]]]; [auto | lia]. }
    rewrite (bind_ok _ _ _ _ _ (IH d (D ++ [Node n (layer_attrs q cl) []]) (S n) Hsh Hf')).
    unfold ret. rewrite <- app_assoc. cbn [app]. now rewrite Nat.add_succ_r.
Qed.

(** ** Putting the layers into the wrapper *)

Lemma in_ids_wrapped cx p pa l w wa Ls K r i :
  In i (ids (plug cx (Node p pa (l ++ Node w wa Ls :: K :: r)))) <->
  i = w \/ In i (flat_map ids Ls) \/ In i (ids (plug cx (Node p pa (l ++ K :: r)))).
Proof.
  rewrite !ids_plug, !ids_Node, !flat_ids_app. cbn [flat_map].
  rewrite ids_Node. cbn [In]. rewrite !in_app_iff. cbn [In]. rewrite !in_app_iff.
  assert (E : i = w <-> w = i) by (split; congruence). rewrite E. cbn [In]. tauto.
Qed.

Section Layers.
Variables (cx : ctx) (p : node_id) (pa : attrs) (l r : list tree) (K : tree).
Variables (el w : node_id) (wa : attrs).
Let T := Node p pa (l ++ K :: r).
Hypothesis Hnd : NoDup (ids (plug cx T)).
Hypothesis HK : root_id K = el.
Hypothesis HKe : nodeType (root_attrs K) = ElementNode.
Hypothesis Hw : ~ In w (ids (plug cx T)).
Hypothesis Hwa : nodeType wa = ElementNode.

Lemma append_layers q cls : forall done m D n,
  w < m ->
  (forall i, m <= i -> ~ In i (ids (plug cx T)) /\ ~ In i (flat_map ids done)
                       /\ ~ In i (flat_map ids D)) ->
  ~ In w (flat_map ids done) -> ~ In w (flat_map ids D) ->
  forEach (seq m (List.length cls)) (appendChild w)
    (St (plug cx (Node p pa (l ++ Node w wa done :: K :: r))) (D ++ layer_nodes q m cls) n) =
  (Ok tt, St (plug cx (Node p pa (l ++ Node w wa (done ++ layer_nodes q m cls) :: K :: r))) D n).
Proof.
  induction cls as [|cl cls IH]; intros done m D n Hm Hf Hwd HwD;
    cbn [List.length seq forEach layer_nodes].
  - unfold ret. now rewrite !app_nil_r.
  - destruct (w_fresh_T cx p pa l r K w Hw) as (Npw & Hwl & HwK & Hwr).
    destruct (Hf m (le_n m)) as (Hm1 & Hm2 & Hm3).
    assert (E : appendChild w m
                  (St (plug cx (Node p pa (l ++ Node w wa done :: K :: r)))
                      (D ++ Node m (layer_attrs q cl) [] :: layer_nodes q (S m) cls) n) =
                (Ok tt, St (plug cx (Node p pa (l ++ Node w wa (done ++ [Node m (layer_attrs q cl) []]) :: K :: r)))
                           (D ++ layer_nodes q (S m) cls) n)).
    { apply (appendChild_layer cx p pa l r K w wa Hw Hwa); try assumption.
      - cbn [flat_map]. intros H. apply in_app_or in H as [H|H]; auto.
      - rewrite flat_ids_layers. rewrite in_seq. lia.
      - lia.
      - rewrite in_ids_wrapped. intros [H|[H|H]]; [lia | auto | auto].
      - rewrite flat_ids_layers. rewrite in_seq. lia.
      - reflexivity. }
    rewrite (bind_ok _ _ _ _ _ E).
    rewrite (IH (done ++ [Node m (layer_attrs q cl) []]) (S m) D n).
    + now rewrite <- app_assoc.
    + lia.
    + intros i Hi. destruct (Hf i ltac:(lia)) as (H1 & H2 & H3).
      repeat split; try assumption.
      rewrite flat_ids_app. cbn [flat_map]. rewrite ids_Node. cbn [flat_map app].
      intros H. apply in_app_or in H as [H|[H|[]]]; [auto | lia].
    + rewrite flat_ids_app. cbn [flat_map]. rewrite ids_Node. cbn [flat_map app].
      intros H. apply in_app_or in H as [H|[H|[]]]; [auto | lia].
    + assumption.
Qed.
End Layers.

(** ** Well-formed stores *)

Lemma kind_eqb_eq k1 k2 : kind_eqb k1 k2 = true <-> k1 = k2.
Proof. destruct k1, k2; cbn; split; intros H; congruence. Qed.

Lemma well_formed_facts s :
  well_formed s = true <->
  NoDup (ids (document s) ++ flat_map ids (detached s)) /\
  (forall i, In i (ids (document s) ++ flat_map ids (detached s)) -> i < next_id s) /\
  nodeType (root_attrs (document s)) = DocumentNode /\
  forallb inner_ok (children (document s)) = true.
Proof.
  unfold well_formed, has_kind, all_ids, forest. cbn [flat_map].
  rewrite !andb_true_iff, nodupb_NoDup, forallb_forall, kind_eqb_eq.
  split.
  - intros (((H1 & H2) & H3) & H4). repeat split; try assumption.
    intros i Hi. now apply Nat.ltb_lt, H2.
  - intros (H1 & H2 & H3 & H4). repeat split; try assumption.
    intros i Hi. now apply Nat.ltb_lt, H2.
Qed.

Lemma nodes_descendants t : nodes t = (root_id t, root_attrs t) :: descendants t.
Proof. now destruct t. Qed.

Lemma pairs_functional {A B} (l : list (A * B)) x a b :
  NoDup (map fst l) -> In (x, a) l -> In (x, b) l -> a = b.
Proof.
  induction l as [|[y c] r IH]; cbn [map fst]; intros Hn Ha Hb; [destruct Ha|].
  inversion Hn as [|? ? Hy Hr]; subst.
  destruct Ha as [Ha|Ha], Hb as [Hb|Hb].
  - congruence.
  - injection Ha as -> ->. exfalso. apply Hy. now apply (in_map fst) in Hb.
  - injection Hb as -> ->. exfalso. apply Hy. now apply (in_map fst) in Ha.
  - now apply IH.
Qed.

Lemma descendant_facts t el a :
  NoDup (ids t) -> In (el, a) (descendants t) ->
  In el (ids t) /\ el <> root_id t /\ In (el, a) (nodes t).
Proof.
  intros Hn Hd. unfold ids in *. rewrite nodes_descendants in *. cbn [map fst] in *.
  inversion Hn as [|? ? Hr _]; subst. repeat split.
  - right. now apply (in_map fst) in Hd.
  - intros ->. apply Hr. now apply (in_map fst) in Hd.
  - now right.
Qed.

Lemma inner_ok_plug c T : inner_ok (plug c T) = true -> inner_ok T = true.
Proof.
  induction c as [|j a l c IH r]; cbn [plug]; [trivial|].
  cbn [inner_ok]. rewrite andb_true_iff, forallb_app. cbn [forallb].
  rewrite !andb_true_iff. intros (_ & _ & H & _). now apply IH.
Qed.

Lemma inner_ok_parent p pa ks k :
  inner_ok (Node p pa ks) = true -> In k ks -> nodeType pa = ElementNode.
Proof.
  cbn [inner_ok]. rewrite andb_true_iff. intros [H _] Hk.
  destruct (nodeType pa); try reflexivity; try discriminate;
    destruct ks; try discriminate; destruct Hk.
Qed.

(** The parent of a node of the document is the document node, or an
    element. *)
Lemma parent_kind cx p pa l K r t :
  nodeType (root_attrs t) = DocumentNode ->
  forallb inner_ok (children t) = true ->
  t = plug cx (Node p pa (l ++ K :: r)) ->
  (cx = Hole /\ nodeType pa = DocumentNode) \/
  (root_id t <> p /\ nodeType pa = ElementNode) \/
  (nodeType pa = ElementNode /\ In p (flat_map ids (children t))).
Proof.
  intros Hk Hi ->. destruct cx as [|j a l0 c r0]; cbn [plug] in *.
  - left. now split.
  - right. right. cbn [children root_attrs] in *.
    rewrite forallb_app in Hi. cbn [forallb] in Hi.
    rewrite !andb_true_iff in Hi. destruct Hi as (_ & Hi & _).
    apply inner_ok_plug in Hi. split.
    + eapply inner_ok_parent; [exact Hi | apply in_elt].
    + rewrite flat_ids_app. apply in_or_app. right. cbn [flat_map]. apply in_or_app. left.
      rewrite ids_plug. apply in_or_app. right. apply in_or_app. left.
      rewrite ids_Node. now left.
Qed.

Lemma parent_in_plug cx p pa l K r el D n :
  NoDup (ids (plug cx (Node p pa (l ++ K :: r)))) -> root_id K = el ->
  parent_in el (St (plug cx (Node p pa (l ++ K :: r))) D n) = Some p.
Proof.
  intros Hn HK. unfold parent_in.
  assert (HeK : In el (ids K)) by (rewrite <- HK; apply ids_root).
  assert (HeT : In el (ids (Node p pa (l ++ K :: r)))) by (now apply K_in_T).
  rewrite ancestors_at_doc by (cbn [document]; now apply in_T_in_doc).
  cbn [document].
  destruct (nodup_children _ _ _ _ _ (nodup_plug_inner _ _ Hn)) as [_ H].
  destruct (H el HeK) as (H1 & H2 & H3).
  rewrite (anc_plug cx el (nodup_plug_before _ _ _ Hn HeT) _ _
             (anc_among el p pa l K r H1 H2 HK)).
  reflexivity.
Qed.

(** ** The cases of a step *)

Lemma set_className_detached w cl a d D n :
  ~ In w (ids d) -> ~ In w (flat_map ids D) ->
  set_className w cl (St d (D ++ [Node w a []]) n) =
  (Ok tt, St d (D ++ [Node w (with_classList [cl] a) []]) n).
Proof.
  intros Hw HD. unfold set_className, modify.
  now rewrite set_attrs_detached by (auto; intros []).
Qed.

Lemma with_copied_width_next c el d D n n' a :
  with_copied_width c el (St d D n) a = with_copied_width c el (St d D n') a.
Proof. reflexivity. Qed.

Lemma decorate_one_outcome c el a s :
  well_formed s = true ->
  In (el, a) (descendants (document s)) -> is_element a = true ->
  (skipped c el s = true /\ decorate_one c el s = (Ok tt, s)) \/
  (skipped c el s = false /\ shadowed "createElement" s = true /\
   decorate_one c el s = (Throw TypeError, s)) \/
  (skipped c el s = false /\ shadowed "createElement" s = false /\
   parent_in el s <> Some (root_id (document s)) /\
   exists s', decorate_one c el s = (Ok tt, s') /\ wrapped_store c el s s') \/
  (skipped c el s = false /\ shadowed "createElement" s = false /\
   parent_in el s = Some (root_id (document s)) /\
   exists s', decorate_one c el s =
                (Throw (if shadowed "insertBefore" s then TypeError
                        else HierarchyRequestError), s') /\
              document s' = document s).
Proof.
  intros Hwf Hd Ha.
  destruct (skipped c el s) eqn:Hs; [left; split; [reflexivity | now apply decorate_one_skipped]|].
  right.
  apply well_formed_facts in Hwf as (Hnd & Hfr & Hdoc & Hin).
  destruct s as [d D n]. cbn [document detached next_id] in *.
  assert (Hnd_d : NoDup (ids d)) by (now apply NoDup_app_remove_r in Hnd).
  destruct (descendant_facts d el a Hnd_d Hd) as (Hel & Hroot & Hnode).
  destruct (parent_decomposition el d Hel Hroot) as (cx & p & pa & l & K & r & Ed & HK).
  assert (HaK : a = root_attrs K).
  { eapply pairs_functional; [exact Hnd_d | exact Hnode |].
    rewrite Ed, nodes_plug. apply in_or_app. right. apply in_or_app. left.
    cbn [nodes]. right. rewrite flat_map_app. apply in_or_app. right.
    cbn [flat_map]. apply in_or_app. left. rewrite nodes_descendants, HK. now left. }
  assert (HKe : nodeType (root_attrs K) = ElementNode).
  { rewrite <- HaK. unfold is_element in Ha. now destruct (nodeType a). }
  (* fresh identities *)
  assert (Hfresh : forall i, n <= i -> ~ In i (ids d) /\ ~ In i (flat_map ids D)).
  { intros i Hi. split; intros H; specialize (Hfr i); rewrite in_app_iff in Hfr;
      [specialize (Hfr (or_introl H)) | specialize (Hfr (or_intror H))]; lia. }
  destruct (Hfresh n (le_n n)) as [Hwd HwD].
  apply NoDup_app_iff in Hnd as (_ & _ & Hdis).
  (* the guard *)
  unfold decorate_one.
  destruct (closest_below (cfg_wrapper c) el (St d D n)) as (hit & Hc & Hb).
  unfold skipped in Hs. apply orb_false_iff in Hs as [Hs1 Hs2].
  rewrite Hs1 in Hb. destruct hit as [h|]; [discriminate|].
  rewrite (bind_ok _ _ _ _ _ Hc).
  rewrite (bind_ok _ _ _ _ _ (contains_any_excluded c el _)), Hs2.
  (* the wrapper and the layers *)
  destruct (shadowed "createElement" (St d D n)) eqn:Hsh.
  { left. split; [reflexivity|]. split; [reflexivity|].
    now rewrite (bind_throw _ _ _ _ _ (createElement_shadowed "div" _ Hsh)). }
  right.
  rewrite (bind_ok _ _ _ _ _ (createElement_eq _ _ _ _ Hsh)).
  rewrite (bind_ok _ _ _ _ _ (set_className_detached _ _ _ _ _ _ Hwd HwD)).
  rewrite (bind_ok _ _ _ _ _ (copy_width_detached c el n _ d D (S n) Hel Hwd HwD)).
  rewrite (with_copied_width_next c el d D (S n) n).
  rewrite (bind_ok _ _ _ _ _ (display_detached c n _ d D (S n) Hwd HwD)).
  change (quirks (root_attrs d)) with (quirks_mode (St d D n)).
  fold (wrapper_attrs c el (St d D n)).
  set (wa := wrapper_attrs c el (St d D n)).
  set (cls := cfg_layers c).
  assert (Hfresh' : forall i, S n <= i ->
            ~ In i (ids d) /\ ~ In i (flat_map ids (D ++ [Node n wa []]))).
  { intros i Hi. destruct (Hfresh i ltac:(lia)) as [H1 H2]. split; [assumption|].
    rewrite flat_ids_app. cbn [flat_map]. rewrite ids_Node. cbn [flat_map app].
    intros H. apply in_app_or in H as [H|[H|[]]]; [auto | lia]. }
  rewrite (bind_ok _ _ _ _ _ (mapM_new_layer cls d _ (S n) Hsh Hfresh')).
  rewrite <- app_assoc. cbn [app].
  change (quirks (root_attrs d)) with (quirks_mode (St d D n)).
  set (q := quirks_mode (St d D n)).
  (* the parent *)
  assert (Hpar : parentNode_or_throw el
            (St d (D ++ Node n wa [] :: layer_nodes q (S n) cls) (S n + List.length cls))
          = (Ok p, St d (D ++ Node n wa [] :: layer_nodes q (S n) cls) (S n + List.length cls))).
  { unfold parentNode_or_throw, parentNode, bind, read. rewrite Ed in Hnd_d |- *.
    now rewrite parent_in_plug. }
  rewrite (bind_ok _ _ _ _ _ Hpar).
  assert (Ep : parent_in el (St d D n) = Some p).
  { rewrite Ed in Hnd_d |- *. now apply parent_in_plug. }
  set (T := Node p pa (l ++ K :: r)) in *.
  assert (Hwa : nodeType wa = ElementNode) by apply wrapper_attrs_element.
  assert (HpT : In p (ids d)) by (rewrite Ed; apply in_T_in_doc, p_in_T).
  assert (HeD : ~ In el (flat_map ids D)) by (now apply Hdis).
  assert (HpD : ~ In p (flat_map ids D)) by (now apply Hdis).
  assert (HnL : ~ In n (flat_map ids (layer_nodes q (S n) cls))).
  { rewrite flat_ids_layers, in_seq. lia. }
  assert (Hlt : forall x, In x (ids d) -> x < n).
  { intros x Hx. apply Hfr. apply in_or_app. now left. }
  assert (HxL : forall x, In x (ids d) ->
                  ~ In x (flat_map ids (layer_nodes q (S n) cls))).
  { intros x Hx. rewrite flat_ids_layers, in_seq. specialize (Hlt x Hx). lia. }
  assert (Hcase : (cx = Hole /\ nodeType pa = DocumentNode) \/
                  (nodeType pa = ElementNode /\ root_id d <> p)).
  { destruct (parent_kind cx p pa l K r d Hdoc Hin Ed)
      as [H | [[H1 H] | [H H1]]]; auto.
    right. split; [assumption|]. intros E. pose proof Hnd_d as Hnd_r.
    unfold ids in Hnd_r. rewrite nodes_descendants in Hnd_r. cbn [map fst] in Hnd_r.
    apply NoDup_cons_iff in Hnd_r as [Hr _]. apply Hr. rewrite E.
    unfold descendants. now rewrite map_fst_flat_nodes. }
  rewrite Ep. cbn [document].
  destruct Hcase as [[Ecx Hpa] | [Hpa Hnr]].
  - (* the parent is the document *)
    right. split; [reflexivity|]. split; [reflexivity|].
    assert (Er : root_id d = p) by (rewrite Ed, Ecx; reflexivity).
    split; [now rewrite Er|].
    assert (E : insertBefore p n (Some el)
                  (St d (D ++ Node n wa [] :: layer_nodes q (S n) cls) (S n + List.length cls)) =
                (Throw (if shadowed "insertBefore" (St d D n) then TypeError
                        else HierarchyRequestError),
                 St d (D ++ Node n wa [] :: layer_nodes q (S n) cls) (S n + List.length cls))).
    { rewrite Ed in *. apply (insertBefore_document cx); try assumption. now symmetry. }
    eexists. split; [now rewrite (bind_throw _ _ _ _ _ E) | reflexivity].
  - left. split; [reflexivity|]. split; [reflexivity|].
    split.
    { intros [= E]. now apply Hnr. }
    assert (E1 : insertBefore p n (Some el)
                  (St d (D ++ Node n wa [] :: layer_nodes q (S n) cls)
                      (S n + List.length cls)) =
                 (Ok tt, St (plug cx (Node p pa (l ++ Node n wa [] :: K :: r)))
                            (D ++ layer_nodes q (S n) cls) (S n + List.length cls))).
    { rewrite Ed in *. apply insertBefore_wrapper; try assumption. now apply HxL. }
    rewrite (bind_ok _ _ _ _ _ E1).
    assert (E2 : forEach (seq (S n) (List.length cls)) (appendChild n)
                  (St (plug cx (Node p pa (l ++ Node n wa [] :: K :: r)))
                      (D ++ layer_nodes q (S n) cls) (S n + List.length cls)) =
                 (Ok tt, St (plug cx (Node p pa (l ++ Node n wa ([] ++ layer_nodes q (S n) cls) :: K :: r)))
                            D (S n + List.length cls))).
    { rewrite Ed in *. apply (append_layers cx p pa l r K el); try assumption.
      - lia.
      - intros i Hi. destruct (Hfresh i ltac:(lia)) as [H1 H2]. repeat split; auto.
      - intros []. }
    rewrite (bind_ok _ _ _ _ _ E2). cbn [app].
    eexists. split.
    + rewrite Ed in *. apply (appendChild_target cx p pa l r K el); try assumption.
      apply HxL. apply in_T_in_doc, K_in_T. rewrite <- HK. apply ids_root.
    + exists cx, p, pa, l, r, K. cbn [document detached next_id]. now repeat split.
Qed.

Theorem decorate_one_cases c el a s :
  well_formed s = true ->
  In (el, a) (descendants (document s)) -> is_element a = true ->
  (skipped c el s = true /\ decorate_one c el s = (Ok tt, s)) \/
  (skipped c el s = false /\
   exists s', decorate_one c el s = (Ok tt, s') /\ wrapped_store c el s s') \/
  (skipped c el s = false /\
   exists e s', decorate_one c el s = (Throw e, s') /\ document s' = document s).
Proof.
  intros Hwf Hd Ha.
  destruct (decorate_one_outcome c el a s Hwf Hd Ha)
    as [H | [(Hs & _ & H) | [(Hs & _ & _ & H) | (Hs & _ & _ & s' & H & E)]]]; eauto 8.
Qed.
(* ================================================================== *)
(** * The four callbacks are instances of the general step *)

Lemma v1_wrap_input_eq cw el s :
  V1.wrap_input cw el s = decorate_one (v1_inputs cw) el s.
Proof.
  unfold V1.wrap_input, decorate_one, closest. unfold_step v1_inputs.
  destruct (match ancestors_at el s with Some _ => _ | None => _ end); [reflexivity|].
  destruct (node_at el s) as [t|] eqn:E; step_guard E.
  - destruct (has_class "search-input" (root_attrs t)); [reflexivity|].
    run_both; reflexivity.
  - run_both; reflexivity.
Qed.

Lemma v1_wrap_button_eq el s :
  V1.wrap_button el s = decorate_one v1_buttons el s.
Proof.
  unfold V1.wrap_button, decorate_one, closest. unfold_step v1_buttons.
  destruct (match ancestors_at el s with Some _ => _ | None => _ end); [reflexivity|].
  destruct (node_at el s) as [t|] eqn:E; step_guard E.
  - destruct (has_class "nav-btn" (root_attrs t)); step_guard E; [reflexivity|].
    destruct (has_class "tab-btn" (root_attrs t)); step_guard E; [reflexivity|].
    destruct (has_class "card-btn" (root_attrs t)); [reflexivity|].
    run_both; reflexivity.
  - run_both; reflexivity.
Qed.

Lemma v2_wrap_input_eq el s :
  V2.wrap_input el s = decorate_one v2_inputs el s.
Proof.
  unfold V2.wrap_input, decorate_one, closest. unfold_step v2_inputs.
  destruct (match ancestors_at el s with Some _ => _ | None => _ end); [reflexivity|].
  run_both; reflexivity.
Qed.

Lemma v2_wrap_button_eq el s :
  V2.wrap_button el s = decorate_one v2_buttons el s.
Proof.
  unfold V2.wrap_button, decorate_one, closest. unfold_step v2_buttons.
  destruct (match ancestors_at el s with Some _ => _ | None => _ end); [reflexivity|].
  destruct (node_at el s) as [t|] eqn:E; step_guard E.
  - destruct (has_class "nav-btn" (root_attrs t)); step_guard E; [reflexivity|].
    destruct (has_class "tab-btn" (root_attrs t)); [reflexivity|].
    run_both; reflexivity.
  - run_both; reflexivity.
Qed.

Lemma forEach_ext l (f g : node_id -> M unit) s :
  (forall x s, f x s = g x s) -> forEach l f s = forEach l g s.
Proof.
  intros H. revert s. induction l as [|x r IH]; intros s; cbn [forEach]; [reflexivity|].
  unfold bind. rewrite H. destruct (g x s) as [[[]|e] s']; [apply IH | reflexivity].
Qed.

Lemma v1_input_pass_eq cw s : V1.input_pass cw s = decorate (v1_inputs cw) s.
Proof.
  unfold V1.input_pass, decorate, bind, querySelectorAll.
  destruct (shadowed "querySelectorAll" s); [reflexivity|].
  apply forEach_ext. apply v1_wrap_input_eq.
Qed.

Lemma v1_button_pass_eq s : V1.button_pass s = decorate v1_buttons s.
Proof.
  unfold V1.button_pass, decorate, bind, querySelectorAll.
  destruct (shadowed "querySelectorAll" s); [reflexivity|].
  apply forEach_ext. apply v1_wrap_button_eq.
Qed.

Lemma v2_input_pass_eq s : V2.input_pass s = decorate v2_inputs s.
Proof.
  unfold V2.input_pass, decorate, bind, querySelectorAll.
  destruct (shadowed "querySelectorAll" s); [reflexivity|].
  apply forEach_ext. apply v2_wrap_input_eq.
Qed.

Lemma v2_button_pass_eq s : V2.button_pass s = decorate v2_buttons s.
Proof.
  unfold V2.button_pass, decorate, bind, querySelectorAll.
  destruct (shadowed "querySelectorAll" s); [reflexivity|].
  apply forEach_ext. apply v2_wrap_button_eq.
Qed.

(* ================================================================== *)
(** * The store after a step that wrapped *)

Lemma NoDup_insert_block {A} (X N Y : list A) :
  NoDup (X ++ Y) -> NoDup N -> (forall i, In i N -> ~ In i (X ++ Y)) ->
  NoDup (X ++ N ++ Y).
Proof.
  intros HXY HN Hd. induction X as [|x X IH]; cbn [app] in *.
  - apply NoDup_app; auto.
  - inversion HXY as [|? ? Hx HXY']; subst. constructor.
    + rewrite !in_app_iff. intros [H|[H|H]].
      * apply Hx. apply in_or_app. now left.
      * apply (Hd x H). now left.
      * apply Hx. apply in_or_app. now right.
    + apply IH; [assumption|]. intros i Hi H. apply (Hd i Hi). now right.
Qed.

Lemma layer_nodes_inner_ok q n cls : forallb inner_ok (layer_nodes q n cls) = true.
Proof. revert n. induction cls as [|cl r IH]; intros n; cbn; [reflexivity | apply IH]. Qed.

Lemma inner_ok_replace c T T' :
  inner_ok (plug c T) = true -> inner_ok T' = true -> inner_ok (plug c T') = true.
Proof.
  intros H HT'. induction c as [|j a l c IH r]; cbn [plug] in *; [assumption|].
  cbn [inner_ok] in *. rewrite andb_true_iff in *. destruct H as [Hk H].
  split.
  - destruct (nodeType a); try assumption; try discriminate;
      destruct l; cbn [app] in *; discriminate.
  - rewrite forallb_app in *. cbn [forallb] in *. rewrite !andb_true_iff in *.
    destruct H as (H1 & H2 & H3). repeat split; auto.
Qed.

Lemma root_attrs_plug c p pa ks ks' :
  root_attrs (plug c (Node p pa ks)) = root_attrs (plug c (Node p pa ks')).
Proof. now destruct c. Qed.

Section Wrapped.
Variables (c : config) (el : node_id) (s s' : dom).
Hypothesis Hwf : well_formed s = true.
Hypothesis Hws : wrapped_store c el s s'.

Let w := next_id s.
Let wa := wrapper_attrs c el s.
Let Ls := layer_nodes (quirks_mode s) (S w) (cfg_layers c).

(** The nodes in tree order: the wrapper and the layers come in, right
    before the target. *)
Lemma wrapped_nodes :
  exists A B K,
    root_id K = el /\
    nodes (document s) = A ++ nodes K ++ B /\
    nodes (document s') = A ++ ((w, wa) :: flat_map nodes Ls) ++ nodes K ++ B /\
    A <> [].
Proof.
  destruct Hws as (cx & p & pa & l & r & K & E & HK & E' & _).
  exists (before cx ++ (p, pa) :: flat_map nodes l), (flat_map nodes r ++ after cx), K.
  split; [assumption|]. rewrite E, E', !nodes_plug. cbn [nodes].
  rewrite !flat_map_app. cbn [flat_map nodes]. rewrite !flat_map_app.
  cbn [flat_map]. fold w wa Ls. rewrite app_nil_r.
  split; [|split].
  - repeat (rewrite <- ?app_assoc, <- ?app_comm_cons). reflexivity.
  - repeat (rewrite <- ?app_assoc, <- ?app_comm_cons). reflexivity.
  - now destruct (before cx).
Qed.

Lemma wrapped_ids :
  exists X Y,
    document_order s = X ++ el :: Y /\
    document_order s' = X ++ (w :: seq (S w) (List.length (cfg_layers c))) ++ el :: Y /\
    X <> [].
Proof.
  destruct wrapped_nodes as (A & B & K & HK & E & E' & HA).
  exists (map fst A), (flat_map ids (children K) ++ map fst B).
  unfold document_order, ids. rewrite E, E'.
  rewrite !map_app. cbn [map fst]. rewrite map_fst_flat_nodes.
  unfold Ls. rewrite flat_ids_layers.
  rewrite nodes_descendants. cbn [map fst]. rewrite HK.
  unfold descendants. rewrite map_fst_flat_nodes.
  split; [|split].
  - repeat (rewrite <- ?app_assoc, <- ?app_comm_cons). reflexivity.
  - repeat (rewrite <- ?app_assoc, <- ?app_comm_cons). reflexivity.
  - destruct A; [contradiction | discriminate].
Qed.

Lemma wrapped_next : next_id s' = S w + List.length (cfg_layers c).
Proof. now destruct Hws as (cx & p & pa & l & r & K & _ & _ & _ & _ & E). Qed.

Lemma wrapped_detached : detached s' = detached s.
Proof. now destruct Hws as (cx & p & pa & l & r & K & _ & _ & _ & E & _). Qed.

Lemma wrapped_well_formed : well_formed s' = true.
Proof.
  apply well_formed_facts in Hwf as (Hnd & Hfr & Hdoc & Hin).
  apply well_formed_facts. rewrite wrapped_detached, wrapped_next.
  destruct wrapped_ids as (X & Y & E & E' & _). unfold document_order in *.
  fold w in Hfr.
  assert (Hnew : forall i, In i (w :: seq (S w) (List.length (cfg_layers c))) ->
                   w <= i < S w + List.length (cfg_layers c)).
  { intros i [<-|Hi]; [lia|]. apply in_seq in Hi. lia. }
  rewrite E in Hnd, Hfr. rewrite E'. repeat split.
  - rewrite <- !app_assoc in *. apply NoDup_insert_block; try assumption.
    + constructor; [rewrite in_seq; lia | apply seq_NoDup].
    + intros i Hi H. apply Hnew in Hi.
      assert (i < w); [|lia]. apply Hfr. exact H.
  - assert (Hold : forall i, In i X \/ In i (el :: Y) \/
                               In i (flat_map ids (detached s)) -> i < w).
    { intros i H. apply Hfr. rewrite !in_app_iff. tauto. }
    intros i Hi. rewrite !in_app_iff in Hi.
    destruct Hi as [[H|[H|H]]|H].
    + specialize (Hold i (or_introl H)). lia.
    + apply Hnew in H. lia.
    + specialize (Hold i (or_intror (or_introl H))). lia.
    + specialize (Hold i (or_intror (or_intror H))). lia.
  - destruct Hws as (cx & p & pa & l & r & K & Ed & HK & Ed' & _).
    rewrite Ed'. rewrite Ed in Hdoc. now rewrite (root_attrs_plug cx p pa _ (l ++ K :: r)).
  - destruct Hws as (cx & p & pa & l & r & K & Ed & HK & Ed' & _).
    rewrite Ed in Hin. rewrite Ed'. fold w wa Ls.
    assert (HW : forallb inner_ok (l ++ K :: r) = true ->
                   forallb inner_ok (l ++ Node w wa (Ls ++ [K]) :: r) = true).
    { intros H. rewrite forallb_app in *. cbn [forallb] in *.
      rewrite !andb_true_iff in *. destruct H as (H1 & H2 & H3).
      repeat split; auto. cbn [inner_ok]. unfold wa.
      rewrite wrapper_attrs_element. cbn [andb]. rewrite forallb_app.
      unfold Ls. rewrite layer_nodes_inner_ok. cbn [forallb]. now rewrite H2. }
    destruct cx as [|j a l0 cx r0]; cbn [plug children] in *.
    + now apply HW.
    + rewrite forallb_app in Hin |- *. cbn [forallb] in Hin |- *.
      rewrite !andb_true_iff in Hin |- *.
      destruct Hin as (H1 & H2 & H3). repeat split; auto.
      apply (inner_ok_replace _ _ _ H2).
      pose proof (inner_ok_plug _ _ H2) as HT. cbn [inner_ok] in HT |- *.
      rewrite andb_true_iff in HT |- *. destruct HT as [Hk HT]. split; [|now apply HW].
      destruct (nodeType pa); try assumption; try discriminate;
        destruct l; cbn [app] in *; discriminate.
Qed.
End Wrapped.

(** ** Ancestors after a wrap *)

Lemma anc_last x K lK :
  inclusive_ancestors x K = Some lK ->
  exists l1, lK = l1 ++ [(root_id K, root_attrs K)].
Proof.
  destruct K as [j a ks]. cbn [inclusive_ancestors root_id root_attrs].
  destruct (j =? x).
  - intros [= <-]. now exists [].
  - destruct (first_some (inclusive_ancestors x) ks) as [l|]; [|discriminate].
    intros [= <-]. now exists l.
Qed.

Lemma anc_through_wrapper x w wa Ls K :
  x <> w -> ~ In x (flat_map ids Ls) ->
  inclusive_ancestors x (Node w wa (Ls ++ [K])) =
  option_map (fun l => l ++ [(w, wa)]) (inclusive_ancestors x K).
Proof.
  intros N HLs. cbn [inclusive_ancestors].
  destruct (Nat.eqb_spec w x); [congruence|].
  rewrite first_some_app, first_some_none.
  - cbn [first_some]. now destruct (inclusive_ancestors x K).
  - intros k Hk. apply anc_notin. eapply notin_flat_ids; eassumption.
Qed.

Lemma anc_wrapped_local p pa l K r w wa Ls x lx :
  x <> w -> ~ In x (flat_map ids Ls) ->
  inclusive_ancestors x (Node p pa (l ++ K :: r)) = Some lx ->
  inclusive_ancestors x (Node p pa (l ++ Node w wa (Ls ++ [K]) :: r)) = Some lx \/
  exists l1,
    lx = l1 ++ [(root_id K, root_attrs K); (p, pa)] /\
    inclusive_ancestors x (Node p pa (l ++ Node w wa (Ls ++ [K]) :: r)) =
    Some (l1 ++ [(root_id K, root_attrs K); (w, wa); (p, pa)]).
Proof.
  intros N HLs. cbn [inclusive_ancestors]. destruct (p =? x); [now left|].
  rewrite !first_some_app.
  destruct (first_some (inclusive_ancestors x) l) as [b|]; [now left|].
  cbn [first_some]. rewrite anc_through_wrapper by assumption.
  destruct (inclusive_ancestors x K) as [lK|] eqn:EK; cbn [option_map]; [|now left].
  intros [= <-]. right. destruct (anc_last _ _ _ EK) as [l1 ->].
  exists l1. rewrite <- !app_assoc. cbn [app]. now split.
Qed.

Lemma path_before c na : In na (path c) -> In na (before c).
Proof.
  induction c as [|j a l c IH r]; cbn [path before]; [easy|].
  intros H. apply in_app_or in H as [H|[<-|[]]]; [|now left].
  right. apply in_or_app. right. now apply IH.
Qed.

(** ** The shape of the nodes after a wrap *)

Lemma first_some_map {A B C} (f : A -> option B) (g : B -> C) (l : list A) :
  option_map g (first_some f l) = first_some (fun x => option_map g (f x)) l.
Proof.
  induction l as [|x r IH]; cbn [first_some]; [reflexivity|].
  destruct (f x); [reflexivity | exact IH].
Qed.

Lemma shape_plug_out c x T T' :
  ~ In x (ids T) -> ~ In x (ids T') -> root_id T = root_id T' ->
  option_map shape (find_node x (plug c T)) = option_map shape (find_node x (plug c T')).
Proof.
  intros HT HT' HR. induction c as [|j a l c IH r]; cbn [plug].
  - now rewrite !find_node_notin.
  - cbn [find_node]. destruct (j =? x).
    + cbn [option_map]. unfold shape. cbn [root_attrs children]. rewrite !map_app. cbn [map].
      now rewrite (root_id_plug_same c T T' HR).
    + rewrite !first_some_map, !first_some_app. cbn [first_some]. now rewrite IH.
Qed.

Lemma find_through_wrapper x w wa Ls K :
  x <> w -> ~ In x (flat_map ids Ls) ->
  find_node x (Node w wa (Ls ++ [K])) = find_node x K.
Proof.
  intros N HLs. cbn [find_node]. destruct (Nat.eqb_spec w x); [congruence|].
  rewrite first_some_app, first_some_none.
  - cbn [first_some]. now destruct (find_node x K).
  - intros k Hk. apply find_node_notin. eapply notin_flat_ids; eassumption.
Qed.

Lemma find_wrapped_local p pa l K r w wa Ls x :
  x <> p -> x <> w -> ~ In x (flat_map ids Ls) ->
  find_node x (Node p pa (l ++ Node w wa (Ls ++ [K]) :: r)) =
  find_node x (Node p pa (l ++ K :: r)).
Proof.
  intros Np Nw HLs. cbn [find_node]. destruct (Nat.eqb_spec p x); [congruence|].
  rewrite !first_some_app. cbn [first_some].
  now rewrite find_through_wrapper.
Qed.

(** ** Positions *)

Lemma index_of_app_in x l1 l2 : In x l1 -> index_of x (l1 ++ l2) = index_of x l1.
Proof.
  induction l1 as [|y r IH]; cbn [app index_of]; [intros []|].
  destruct (Nat.eqb_spec y x); [reflexivity|]. intros [H|H]; [contradiction|].
  now rewrite IH.
Qed.

Lemma index_of_app_notin x l1 l2 :
  ~ In x l1 -> index_of x (l1 ++ l2) = List.length l1 + index_of x l2.
Proof.
  induction l1 as [|y r IH]; cbn [app index_of List.length]; [reflexivity|].
  intros H. destruct (Nat.eqb_spec y x) as [->|N]; [exfalso; apply H; now left|].
  rewrite IH; [reflexivity|]. intros Hx. apply H. now right.
Qed.

Lemma index_of_lt x l : In x l -> index_of x l < List.length l.
Proof.
  induction l as [|y r IH]; cbn [index_of List.length]; [intros []|].
  destruct (Nat.eqb_spec y x); [lia|]. intros [H|H]; [contradiction|].
  specialize (IH H). lia.
Qed.

Lemma index_of_head x l : index_of x (x :: l) = 0.
Proof. cbn [index_of]. now rewrite Nat.eqb_refl. Qed.

Lemma index_of_inj x y l :
  In x l -> index_of x l = index_of y l -> x = y.
Proof.
  induction l as [|z r IH]; cbn [index_of]; [intros []|].
  destruct (Nat.eqb_spec z x) as [Ex|Nx], (Nat.eqb_spec z y) as [Ey|Ny];
    try congruence; try discriminate.
  intros [H|H] E; [contradiction|]. apply IH; [assumption | lia].
Qed.

Lemma in_ids_wrapped_final cx p pa l w wa Ls K r i :
  In i (ids (plug cx (Node p pa (l ++ Node w wa (Ls ++ [K]) :: r)))) <->
  i = w \/ In i (flat_map ids Ls) \/ In i (ids (plug cx (Node p pa (l ++ K :: r)))).
Proof.
  rewrite !ids_plug, !ids_Node, !flat_ids_app. cbn [flat_map].
  rewrite ids_Node, flat_ids_app. cbn [flat_map].
  repeat (rewrite ?in_app_iff; cbn [In]).
  assert (E : i = w <-> w = i) by (split; congruence). rewrite E. tauto.
Qed.

Lemma nth_error_Some_lt {A} (l : list A) i x : nth_error l i = Some x -> i < List.length l.
Proof. intros H. apply nth_error_Some. congruence. Qed.

Lemma nth_error_layer_nodes q n cls i cl :
  nth_error cls i = Some cl ->
  exists L1 L2, layer_nodes q n cls = L1 ++ Node (n + i) (layer_attrs q cl) [] :: L2 /\
                flat_map ids L1 = seq n i.
Proof.
  revert n i. induction cls as [|c0 r IH]; intros n [|i]; cbn [nth_error layer_nodes];
    try discriminate.
  - intros [= ->]. exists [], (layer_nodes q (S n) r). rewrite Nat.add_0_r. now split.
  - intros H. destruct (IH (S n) i H) as (L1 & L2 & E & E1).
    exists (Node n (layer_attrs q c0) [] :: L1), L2. rewrite E.
    cbn [app flat_map]. rewrite ids_Node. cbn [flat_map app seq]. rewrite E1.
    now rewrite Nat.add_succ_r.
Qed.

Section WrappedFacts.
Variables (c : config) (el : node_id) (s s' : dom).
Hypothesis Hwf : well_formed s = true.
Hypothesis Hws : wrapped_store c el s s'.

Let w := next_id s.
Let wa := wrapper_attrs c el s.
Let k := List.length (cfg_layers c).

Lemma wrapped_old_lt x : In x (document_order s) -> x < w.
Proof.
  apply well_formed_facts in Hwf as (_ & Hfr & _). intros H. apply Hfr.
  apply in_or_app. now left.
Qed.

Lemma wrapped_nodup : NoDup (document_order s).
Proof.
  apply well_formed_facts in Hwf as (Hnd & _). now apply NoDup_app_remove_r in Hnd.
Qed.

Lemma wrapped_in_order x :
  In x (document_order s') <->
  In x (document_order s) \/ x = w \/ S w <= x < S w + k.
Proof.
  destruct (wrapped_ids c el s s' Hws) as (X & Y & E & E' & _).
  rewrite E, E'. rewrite !in_app_iff. cbn [In]. rewrite in_seq. fold w k.
  assert (Ew : x = w <-> w = x) by (split; congruence). rewrite Ew. tauto.
Qed.

Lemma wrapped_target_in : In el (document_order s).
Proof.
  destruct (wrapped_ids c el s s' Hws) as (X & Y & E & _). rewrite E. apply in_elt.
Qed.

Lemma wrapped_ancestors x lx :
  In x (document_order s) -> ancestors_at x s = Some lx ->
  ancestors_at x s' = Some lx \/
  exists l1 a rest,
    lx = l1 ++ (el, a) :: rest /\
    ancestors_at x s' = Some (l1 ++ (el, a) :: (w, wa) :: rest).
Proof.
  intros Hx. pose proof (wrapped_old_lt x Hx) as Hlt.
  assert (Hx' : In x (document_order s')) by (apply wrapped_in_order; now left).
  unfold document_order in *. rewrite !ancestors_at_doc by assumption.
  pose proof wrapped_nodup as Hnd. unfold document_order in Hnd.
  destruct Hws as (cx & p & pa & l & r & K & E & HK & E' & _).
  rewrite E, E' in *. fold w wa. set (Ls := layer_nodes (quirks_mode s) (S w) (cfg_layers c)).
  assert (HxL : ~ In x (flat_map ids Ls)).
  { unfold Ls. rewrite flat_ids_layers, in_seq. lia. }
  assert (Hxw : x <> w) by lia.
  destruct (in_dec Nat.eq_dec x (ids (Node p pa (l ++ K :: r)))) as [HT|HT].
  - pose proof (nodup_plug_before _ _ _ Hnd HT) as Hb.
    destruct (anc_in _ _ HT) as [lT ET].
    rewrite (anc_plug cx x Hb _ _ ET). intros [= <-].
    destruct (anc_wrapped_local p pa l K r w wa Ls x lT Hxw HxL ET) as [E1|(l1 & -> & E1)].
    + left. now rewrite (anc_plug cx x Hb _ _ E1).
    + right. exists l1, (root_attrs K), ((p, pa) :: path cx).
      rewrite (anc_plug cx x Hb _ _ E1), HK, <- !app_assoc. now split.
  - intros H. left. rewrite <- H. symmetry. apply anc_plug_out; [assumption|].
    rewrite ids_Node, flat_ids_app. cbn [flat_map]. rewrite ids_Node, flat_ids_app.
    cbn [flat_map]. rewrite ids_Node, flat_ids_app in HT. cbn [flat_map] in HT.
    cbn [In] in *. rewrite !in_app_iff in *. cbn [In]. rewrite !in_app_iff. fold Ls.
    intuition.
Qed.

Lemma wrapped_ancestors_target :
  exists a p pa tl,
    ancestors_at el s = Some ((el, a) :: (p, pa) :: tl) /\
    ancestors_at el s' = Some ((el, a) :: (w, wa) :: (p, pa) :: tl) /\
    ancestors_at w s' = Some ((w, wa) :: (p, pa) :: tl) /\
    forall i cl, nth_error (cfg_layers c) i = Some cl ->
      ancestors_at (S w + i) s' =
      Some ((S w + i, layer_attrs (quirks_mode s) cl) :: (w, wa) :: (p, pa) :: tl).
Proof.
  pose proof wrapped_target_in as Hel.
  pose proof (wrapped_old_lt el Hel) as Hlt.
  pose proof wrapped_nodup as Hnd. unfold document_order in Hnd, Hel.
  assert (Hin' : forall x, In x (document_order s') -> ancestors_at x s' =
                              inclusive_ancestors x (document s')).
  { intros x Hx. now apply ancestors_at_doc. }
  rewrite ancestors_at_doc by assumption.
  rewrite !Hin' by (apply wrapped_in_order; auto).
  assert (Hlay : forall i cl, nth_error (cfg_layers c) i = Some cl ->
                   ancestors_at (S w + i) s' = inclusive_ancestors (S w + i) (document s')).
  { intros i cl Hi. apply Hin'. apply wrapped_in_order. right. right.
    apply nth_error_Some_lt in Hi. fold k in Hi. lia. }
  assert (Hfresh0 : forall i, w <= i -> ~ In i (ids (document s))).
  { intros i Hi H. apply (wrapped_old_lt i) in H. lia. }
  destruct Hws as (cx & p & pa & l & r & K & E & HK & E' & _).
  rewrite E, E' in *. fold w wa. set (Ls := layer_nodes (quirks_mode s) (S w) (cfg_layers c)).
  assert (HeK : In el (ids K)) by (rewrite <- HK; apply ids_root).
  assert (HeT : In el (ids (Node p pa (l ++ K :: r)))) by (now apply K_in_T).
  destruct (nodup_children _ _ _ _ _ (nodup_plug_inner _ _ Hnd)) as [_ Hch].
  destruct (Hch el HeK) as (Npe & Hel_l & Hel_r).
  pose proof (nodup_plug_before _ _ _ Hnd HeT) as Hb.
  assert (Hfresh : forall i, w <= i -> ~ In i (ids (plug cx (Node p pa (l ++ K :: r)))))
    by exact Hfresh0.
  assert (Hfb : forall i, w <= i -> ~ In i (map fst (before cx))).
  { intros i Hi. eapply notin_plug_before. now apply Hfresh. }
  assert (HfT : forall i, w <= i ->
            p <> i /\ ~ In i (flat_map ids l) /\ ~ In i (ids K) /\ ~ In i (flat_map ids r)).
  { intros i Hi. apply (w_fresh_T cx p pa l r K i). now apply Hfresh. }
  exists (root_attrs K), p, pa, (path cx).
  split; [|split; [|split]].
  - now rewrite (anc_plug cx el Hb _ _ (anc_among el p pa l K r Npe Hel_l HK)).
  - assert (HeLs : ~ In el (flat_map ids Ls)).
    { unfold Ls. rewrite flat_ids_layers, in_seq. lia. }
    assert (Eloc : inclusive_ancestors el (Node p pa (l ++ Node w wa (Ls ++ [K]) :: r)) =
                   Some [(el, root_attrs K); (w, wa); (p, pa)]).
    { cbn [inclusive_ancestors]. destruct (Nat.eqb_spec p el); [contradiction|].
      rewrite first_some_app, first_some_none.
      - cbn [first_some]. rewrite anc_through_wrapper by (auto; lia).
        destruct K as [j a ks]. cbn [root_id root_attrs inclusive_ancestors] in *.
        subst j. now rewrite Nat.eqb_refl.
      - intros t Ht. apply anc_notin. exact (notin_flat_ids _ _ _ Hel_l Ht). }
    now rewrite (anc_plug cx el Hb _ _ Eloc).
  - destruct (HfT w (le_n w)) as (Npw & Hwl & _).
    rewrite (anc_plug cx w (Hfb w (le_n w)) _ _
               (anc_among w p pa l (Node w wa (Ls ++ [K])) r Npw Hwl eq_refl)).
    reflexivity.
  - intros i cl Hi. rewrite (Hlay i cl Hi).
    destruct (nth_error_layer_nodes (quirks_mode s) (S w) _ _ _ Hi) as (L1 & L2 & EL & EL1).
    fold Ls in EL.
    assert (Hi' : i < k) by (now apply nth_error_Some_lt in Hi).
    destruct (HfT (S w + i) ltac:(lia)) as (Npi & Hil & HiK & Hir).
    assert (Eloc : inclusive_ancestors (S w + i)
                     (Node p pa (l ++ Node w wa (Ls ++ [K]) :: r)) =
                   Some [(S w + i, layer_attrs (quirks_mode s) cl); (w, wa); (p, pa)]).
    { cbn [inclusive_ancestors]. destruct (Nat.eqb_spec p (S w + i)); [contradiction|].
      rewrite first_some_app, first_some_none.
      - cbn [first_some inclusive_ancestors].
        destruct (Nat.eqb_spec w (S w + i)); [lia|].
        rewrite EL, <- app_assoc, first_some_app, first_some_none.
        + cbn [app first_some inclusive_ancestors]. now rewrite Nat.eqb_refl.
        + intros t Ht. apply anc_notin. intros H.
          assert (H0 : In (S w + i) (flat_map ids L1)) by (apply in_flat_ids; eauto).
          rewrite EL1 in H0. apply in_seq in H0. lia.
      - intros t Ht. apply anc_notin. exact (notin_flat_ids _ _ _ Hil Ht). }
    exact (anc_plug cx (S w + i) (Hfb (S w + i) ltac:(lia)) _ _ Eloc).
Qed.
End WrappedFacts.

Lemma map_root_id_layers q n cls :
  map root_id (layer_nodes q n cls) = seq n (List.length cls).
Proof.
  revert n. induction cls as [|cl r IH]; intros n; cbn [layer_nodes map List.length seq root_id];
    [reflexivity | now rewrite IH].
Qed.

Lemma shape_at_doc x s :
  In x (ids (document s)) -> shape_at x s = option_map shape (find_node x (document s)).
Proof. intros H. unfold shape_at. now rewrite node_at_doc. Qed.

Lemma attrs_at_shape x s : attrs_at x s = option_map fst (shape_at x s).
Proof. unfold attrs_at, shape_at. now destruct (node_at x s). Qed.

Lemma child_ids_shape x s : child_ids x s = option_map snd (shape_at x s).
Proof. unfold child_ids, shape_at. now destruct (node_at x s). Qed.

Lemma parent_in_ancestors x s lx :
  ancestors_at x s = Some lx ->
  parent_in x s = match lx with _ :: (p, _) :: _ => Some p | _ => None end.
Proof. unfold parent_in. now intros ->. Qed.

Lemma ancestors_at_head x s lx :
  In x (ids (document s)) -> ancestors_at x s = Some lx ->
  exists a rest, lx = (x, a) :: rest /\ attrs_at x s = Some a.
Proof.
  intros Hx. unfold attrs_at. rewrite ancestors_at_doc, node_at_doc by assumption.
  apply anc_head.
Qed.

Section WrappedShape.
Variables (c : config) (el : node_id) (s s' : dom).
Hypothesis Hwf : well_formed s = true.
Hypothesis Hws : wrapped_store c el s s'.

Let w := next_id s.
Let wa := wrapper_attrs c el s.
Let k := List.length (cfg_layers c).

Lemma wrapped_shape x :
  In x (document_order s) -> parent_in el s <> Some x -> shape_at x s' = shape_at x s.
Proof.
  intros Hx. pose proof (wrapped_old_lt s Hwf x Hx) as Hlt.
  assert (Hx' : In x (document_order s')) by (apply (wrapped_in_order c el s s' Hws); now left).
  unfold document_order in *. rewrite !shape_at_doc by assumption.
  pose proof (wrapped_nodup s Hwf) as Hnd. unfold document_order in Hnd.
  destruct Hws as (cx & p & pa & l & r & K & E & HK & E' & _).
  rewrite E' in *. clear E'. destruct s as [d D n]. cbn [document next_id] in *. subst d.
  rewrite (parent_in_plug cx p pa l K r el D n Hnd HK). intros Np.
  set (Ls := layer_nodes _ (S n) (cfg_layers c)) in *.
  assert (HxL : ~ In x (flat_map ids Ls)).
  { unfold Ls. rewrite flat_ids_layers, in_seq. lia. }
  assert (Hxw : x <> n) by lia.
  destruct (in_dec Nat.eq_dec x (ids (Node p pa (l ++ K :: r)))) as [HT|HT].
  - pose proof (nodup_plug_before _ _ _ Hnd HT) as Hb.
    rewrite !find_plug; try assumption.
    + rewrite find_wrapped_local; auto; congruence.
    + rewrite ids_Node, flat_ids_app in HT |- *. cbn [flat_map] in HT |- *.
      rewrite ids_Node, flat_ids_app. cbn [flat_map]. cbn [In] in *.
      rewrite !in_app_iff in *. cbn [In]. rewrite !in_app_iff. tauto.
  - symmetry. apply shape_plug_out; [assumption| |reflexivity].
    rewrite ids_Node, flat_ids_app in HT |- *. cbn [flat_map] in HT |- *.
    rewrite ids_Node, flat_ids_app. cbn [flat_map]. cbn [In] in *.
    rewrite !in_app_iff in *. cbn [In]. rewrite !in_app_iff. intuition.
Qed.

Lemma wrapped_shape_parent :
  exists p pa lids rids,
    parent_in el s = Some p /\
    shape_at p s = Some (pa, lids ++ el :: rids) /\
    shape_at p s' = Some (pa, lids ++ w :: rids).
Proof.
  pose proof (wrapped_nodup s Hwf) as Hnd. unfold document_order in Hnd.
  assert (Hin' : forall x, In x (document_order s) -> In x (document_order s')).
  { intros x Hx. apply (wrapped_in_order c el s s' Hws). now left. }
  unfold document_order in Hin'. unfold w.
  destruct Hws as (cx & p & pa & l & r & K & E & HK & E' & _).
  destruct s as [d D n]. cbn [document next_id] in *. subst d.
  exists p, pa, (map root_id l), (map root_id r).
  assert (HpT : In p (ids (Node p pa (l ++ K :: r)))) by (rewrite ids_Node; now left).
  assert (HpD : In p (ids (plug cx (Node p pa (l ++ K :: r))))) by (now apply in_T_in_doc).
  pose proof (nodup_plug_before _ _ _ Hnd HpT) as Hb.
  split; [now apply parent_in_plug|]. split.
  - rewrite shape_at_doc by assumption. cbn [document].
    rewrite find_plug by assumption. cbn [find_node]. rewrite Nat.eqb_refl.
    cbn [option_map]. unfold shape. cbn [root_attrs children].
    now rewrite map_app, <- HK.
  - rewrite shape_at_doc by (now apply Hin').
    rewrite E'. rewrite find_plug; [|assumption|rewrite ids_Node; now left].
    cbn [find_node]. rewrite Nat.eqb_refl.
    cbn [option_map]. unfold shape. cbn [root_attrs children].
    now rewrite map_app.
Qed.

Lemma wrapped_shape_wrapper : shape_at w s' = Some (wa, seq (S w) k ++ [el]).
Proof.
  assert (Hw' : In w (document_order s')) by (apply (wrapped_in_order c el s s' Hws); auto).
  assert (Hw0 : ~ In w (ids (document s))).
  { intros H. apply (wrapped_old_lt s Hwf) in H. unfold w in H. lia. }
  unfold document_order in *. rewrite shape_at_doc by assumption.
  unfold w, wa, k in *.
  destruct Hws as (cx & p & pa & l & r & K & E & HK & E' & _).
  rewrite E' in *. rewrite E in Hw0.
  destruct (w_fresh_T cx p pa l r K _ Hw0) as (Npw & Hwl & _).
  rewrite find_plug.
  - rewrite find_among by (cbn [root_id]; auto). cbn [option_map]. unfold shape.
    cbn [root_attrs children]. rewrite map_app, map_root_id_layers. cbn [map].
    now rewrite HK.
  - eapply notin_plug_before. exact Hw0.
  - rewrite ids_Node, flat_ids_app. right. apply in_or_app. right. cbn [flat_map].
    apply in_or_app. left. rewrite ids_Node. now left.
Qed.

Lemma wrapped_shape_layer i cl :
  nth_error (cfg_layers c) i = Some cl ->
  shape_at (S w + i) s' = Some (layer_attrs (quirks_mode s) cl, []).
Proof.
  intros Hi. assert (Hik : i < k) by (now apply nth_error_Some_lt in Hi).
  assert (Hw' : In (S w + i) (document_order s')).
  { apply (wrapped_in_order c el s s' Hws). right. right. fold w k. lia. }
  assert (Hw0 : ~ In (S w + i) (ids (document s))).
  { intros H. apply (wrapped_old_lt s Hwf) in H. unfold w in H. lia. }
  unfold document_order in *. rewrite shape_at_doc by assumption.
  unfold w, wa, k in *.
  destruct Hws as (cx & p & pa & l & r & K & E & HK & E' & _).
  rewrite E' in *. rewrite E in Hw0.
  destruct (w_fresh_T cx p pa l r K _ Hw0) as (Npw & Hwl & HwK & Hwr).
  destruct (nth_error_layer_nodes (quirks_mode s) (S (next_id s)) _ _ _ Hi) as (L1 & L2 & EL & EL1).
  rewrite find_plug.
  - cbn [find_node]. destruct (Nat.eqb_spec p (S (next_id s) + i)); [contradiction|].
    rewrite first_some_app, first_some_none.
    + cbn [first_some find_node].
      destruct (Nat.eqb_spec (next_id s) (S (next_id s) + i)); [lia|].
      rewrite EL, <- app_assoc, first_some_app, first_some_none.
      * cbn [app first_some find_node]. now rewrite Nat.eqb_refl.
      * intros t Ht. apply find_node_notin. intros H.
        assert (H0 : In (S (next_id s) + i) (flat_map ids L1)) by (apply in_flat_ids; eauto).
        rewrite EL1 in H0. apply in_seq in H0. lia.
    + intros t Ht. apply find_node_notin. exact (notin_flat_ids _ _ _ Hwl Ht).
  - eapply notin_plug_before. exact Hw0.
  - rewrite ids_Node, flat_ids_app. right. apply in_or_app. right. cbn [flat_map].
    apply in_or_app. left. rewrite ids_Node, flat_ids_app. right. apply in_or_app. left.
    rewrite flat_ids_layers, in_seq. lia.
Qed.

Lemma wrapped_attrs x :
  In x (document_order s) -> attrs_at x s' = attrs_at x s.
Proof.
  intros Hx. rewrite !attrs_at_shape.
  destruct wrapped_shape_parent as (p & pa & lids & rids & Hp & E & E').
  destruct (Nat.eq_dec x p) as [->|N].
  - now rewrite E, E'.
  - rewrite wrapped_shape; [reflexivity | assumption | congruence].
Qed.

Lemma wrapped_parent x :
  In x (document_order s) -> x <> el -> parent_in x s' = parent_in x s.
Proof.
  intros Hx N. unfold document_order in Hx.
  destruct (anc_in _ _ Hx) as [lx E].
  rewrite <- ancestors_at_doc in E by assumption.
  destruct (ancestors_at_head x s lx Hx E) as (a & rest & -> & _).
  rewrite (parent_in_ancestors _ _ _ E).
  destruct (wrapped_ancestors c el s s' Hwf Hws x _ Hx E) as [E'|(l1 & b & tl & El & E')];
    rewrite (parent_in_ancestors _ _ _ E'); [reflexivity|].
  destruct l1 as [|[y ay] l1]; cbn [app] in *.
  - injection El as -> _ _. contradiction.
  - injection El as -> -> ->. now destruct l1.
Qed.

Lemma wrapped_parent_target :
  exists p, parent_in el s = Some p /\ parent_in el s' = Some w /\
            parent_in w s' = Some p.
Proof.
  destruct (wrapped_ancestors_target c el s s' Hwf Hws) as (a & p & pa & tl & E1 & E2 & E3 & _).
  exists p. unfold w.
  now rewrite (parent_in_ancestors _ _ _ E1), (parent_in_ancestors _ _ _ E2),
    (parent_in_ancestors _ _ _ E3).
Qed.

(** Positions in tree order: what came before the target stays, the rest
    moves down by the wrapper and the layers. *)
Lemma wrapped_pos x :
  In x (document_order s) ->
  pos x s' = if pos x s <? pos el s then pos x s else pos x s + S k.
Proof.
  intros Hx. pose proof (wrapped_old_lt s Hwf x Hx) as Hlt.
  pose proof (wrapped_nodup s Hwf) as Hnd.
  destruct (wrapped_ids c el s s' Hws) as (X & Y & E & E' & _).
  unfold pos. rewrite E, E' in *. fold w k.
  assert (HeX : ~ In el X).
  { apply NoDup_app_iff in Hnd as (_ & _ & H). intros HX. apply (H el HX). now left. }
  rewrite (index_of_app_notin el X) by assumption. rewrite index_of_head, Nat.add_0_r.
  destruct (in_dec Nat.eq_dec x X) as [HX|HX].
  - rewrite !index_of_app_in by assumption.
    pose proof (index_of_lt x X HX) as H. apply Nat.ltb_lt in H. now rewrite H.
  - rewrite !index_of_app_notin; try assumption.
    + cbn [List.length]. rewrite length_seq.
      destruct (Nat.ltb_spec (List.length X + index_of x (el :: Y)) (List.length X)); lia.
    + cbn [In]. rewrite in_seq. lia.
Qed.

Lemma wrapped_pos_wrapper : pos w s' = pos el s.
Proof.
  pose proof (wrapped_nodup s Hwf) as Hnd.
  assert (Hw0 : ~ In w (document_order s)).
  { intros H. apply (wrapped_old_lt s Hwf) in H. unfold w in H. lia. }
  destruct (wrapped_ids c el s s' Hws) as (X & Y & E & E' & _).
  unfold pos. rewrite E, E' in *. fold w.
  assert (HeX : ~ In el X).
  { apply NoDup_app_iff in Hnd as (_ & _ & H). intros HX. apply (H el HX). now left. }
  assert (HwX : ~ In w X) by (intros H; apply Hw0; apply in_or_app; now left).
  rewrite (index_of_app_notin w X), (index_of_app_notin el X) by assumption.
  cbn [app]. now rewrite !index_of_head.
Qed.
End WrappedShape.

(* ================================================================== *)
(** * A pass *)

Lemma decorate_forEach c s :
  decorate c s =
  if shadowed "querySelectorAll" s then (Throw TypeError, s)
  else forEach (targets c s) (decorate_one c) s.
Proof.
  unfold decorate, bind, querySelectorAll.
  now destruct (shadowed "querySelectorAll" s).
Qed.

(** A pass that returns has run its steps. *)
Lemma decorate_ok c s s' :
  decorate c s = (Ok tt, s') ->
  shadowed "querySelectorAll" s = false /\
  forEach (targets c s) (decorate_one c) s = (Ok tt, s').
Proof.
  rewrite decorate_forEach.
  destruct (shadowed "querySelectorAll" s); [discriminate | now split].
Qed.

Lemma matches_element sel a : matches sel a = true -> is_element a = true.
Proof.
  unfold matches. rewrite existsb_exists. intros (x & _ & H).
  unfold matches1 in H. now apply andb_true_iff in H.
Qed.

Lemma targets_spec c s el :
  In el (targets c s) <->
  exists a, In (el, a) (descendants (document s)) /\ matches (cfg_selector c) a = true.
Proof.
  unfold targets. rewrite in_map_iff. split.
  - intros ([x a] & <- & H). apply filter_In in H as [H1 H2]. now exists a.
  - intros (a & H1 & H2). exists (el, a). split; [reflexivity|].
    apply filter_In. now split.
Qed.

Lemma targets_are_nodes c s el : In el (targets c s) -> is_target_node el s.
Proof.
  rewrite targets_spec. intros (a & H1 & H2). exists a. split; [assumption|].
  now apply matches_element in H2.
Qed.

(** Selecting nodes keeps their identities distinct. *)
Lemma NoDup_selected (keep : node_id * attrs -> bool) (l : list (node_id * attrs)) :
  NoDup (map fst l) -> NoDup (map fst (filter keep l)).
Proof.
  induction l as [|[x a] r IH]; cbn [map filter fst]; [trivial|].
  intros H. inversion H as [|? ? Hx Hr]; subst.
  destruct (keep (x, a)); cbn [map fst]; [|now apply IH].
  constructor; [|now apply IH]. intros Hin. apply Hx.
  apply in_map_iff in Hin as (y & E & Hy). apply filter_In in Hy as [Hy _].
  apply in_map_iff. now exists y.
Qed.

Lemma targets_in_order c s el : In el (targets c s) -> In el (document_order s).
Proof.
  rewrite targets_spec. intros (a & H & _). unfold document_order, ids.
  rewrite nodes_descendants. right. now apply (in_map fst) in H.
Qed.

Lemma targets_NoDup c s : well_formed s = true -> NoDup (targets c s).
Proof.
  intros Hwf. apply well_formed_facts in Hwf as (Hnd & _).
  apply NoDup_app_remove_r in Hnd. unfold ids in Hnd.
  rewrite nodes_descendants in Hnd. cbn [map] in Hnd.
  inversion Hnd; subst. now apply NoDup_selected.
Qed.

(** The nodes of the document stay, with their attributes; the new ones are
    the wrapper and the layers. *)
Section WrappedNodes.
Variables (c : config) (el : node_id) (s s' : dom).
Hypothesis Hwf : well_formed s = true.
Hypothesis Hws : wrapped_store c el s s'.

Lemma wrapped_descendants na :
  In na (descendants (document s)) -> In na (descendants (document s')).
Proof.
  destruct (wrapped_nodes c el s s' Hws) as (A & B & K & _ & E & E' & HA).
  rewrite !nodes_descendants in E, E'.
  destruct A as [|a0 A]; [contradiction|]. cbn [app] in E, E'.
  injection E as _ E. injection E' as _ E'. rewrite E, E'.
  repeat (rewrite ?in_app_iff; cbn [In]). tauto.
Qed.

Lemma wrapped_descendants_inv i a :
  In (i, a) (descendants (document s')) ->
  (In (i, a) (descendants (document s)) /\ i < next_id s) \/
  (next_id s <= i /\ made_by c a).
Proof.
  destruct (wrapped_nodes c el s s' Hws) as (A & B & K & _ & E & E' & HA).
  assert (Hlt : forall j b, In (j, b) (nodes (document s)) -> j < next_id s).
  { intros j b H. apply (wrapped_old_lt s Hwf). unfold document_order, ids.
    now apply (in_map fst) in H. }
  rewrite !nodes_descendants in E, E', Hlt.
  destruct A as [|a0 A]; [contradiction|]. cbn [app] in E, E'.
  injection E as E0 E. injection E' as _ E'. rewrite E'.
  assert (Hold : forall j b, In (j, b) (descendants (document s)) -> j < next_id s).
  { intros j b H. apply (Hlt j b). now right. }
  rewrite E in Hold |- *. rewrite in_app_iff. cbn [In]. rewrite !in_app_iff.
  intros [H|[H|[H|H]]].
  - left. split; [tauto|]. apply (Hold i a). rewrite in_app_iff. tauto.
  - injection H as <- <-. right. split; [lia|]. left. now exists el, s.
  - rewrite flat_nodes_layers in H. right.
    assert (Hi : In i (seq (S (next_id s)) (List.length (cfg_layers c)))).
    { apply in_combine_l in H. exact H. }
    apply in_seq in Hi. split; [lia|]. right.
    apply in_combine_r in H. apply in_map_iff in H as (cl & <- & Hcl). now exists (quirks_mode s), cl.
  - left. split; [tauto|]. apply (Hold i a). rewrite !in_app_iff. tauto.
Qed.

Lemma wrapped_target_node x : is_target_node x s -> is_target_node x s'.
Proof. intros (a & H & He). exists a. split; [now apply wrapped_descendants | assumption]. Qed.
End WrappedNodes.

(** Induction over the steps of a pass that returns. *)
Lemma forEach_decorate_ind (c : config) (P : list node_id -> dom -> Prop) :
  (forall el rest s, well_formed s = true -> is_target_node el s ->
     P (el :: rest) s -> skipped c el s = true -> P rest s) ->
  (forall el rest s s', well_formed s = true -> is_target_node el s ->
     P (el :: rest) s -> skipped c el s = false -> wrapped_store c el s s' -> P rest s') ->
  forall l s s',
    well_formed s = true -> (forall el, In el l -> is_target_node el s) ->
    P l s -> forEach l (decorate_one c) s = (Ok tt, s') ->
    P [] s' /\ well_formed s' = true.
Proof.
  intros Hskip Hwrap. induction l as [|el rest IH]; intros s s' Hwf Ht HP; cbn [forEach].
  - intros [= <-]. now split.
  - destruct (Ht el (or_introl eq_refl)) as (a & Ha & He).
    assert (Htn : is_target_node el s) by (now exists a).
    destruct (decorate_one_cases c el a s Hwf Ha He)
      as [[Hs E] | [(Hs & s1 & E & Hw) | (Hs & e & s1 & E & _)]].
    + rewrite (bind_ok _ _ _ _ _ E). apply IH; try assumption.
      * intros x Hx. apply Ht. now right.
      * now apply (Hskip el rest s).
    + rewrite (bind_ok _ _ _ _ _ E). apply IH.
      * now apply (wrapped_well_formed c el s s1).
      * intros x Hx. apply (wrapped_target_node c el s s1 Hw). apply Ht. now right.
      * now apply (Hwrap el rest s s1).
    + rewrite (bind_throw _ _ _ _ _ E). discriminate.
Qed.

(** ** Steps that are skipped stay skipped *)

Lemma excluded_attrs c x s :
  excluded c x s =
  match attrs_at x s with
  | Some a => existsb (fun cl => has_class cl a) (cfg_excluded c)
  | None => false
  end.
Proof. unfold excluded, attrs_at. now destruct (node_at x s). Qed.

Section SkippedMono.
Variables (c d : config) (el : node_id) (s s' : dom).
Hypothesis Hwf : well_formed s = true.
Hypothesis Hws : wrapped_store d el s s'.

Lemma below_class_mono cl x :
  In x (document_order s) -> below_class cl x s = true -> below_class cl x s' = true.
Proof.
  intros Hx. unfold below_class.
  destruct (ancestors_at x s) as [lx|] eqn:E; [|discriminate].
  destruct (wrapped_ancestors d el s s' Hwf Hws x lx Hx E) as [-> | (l1 & a & rest & -> & ->)];
    [trivial|].
  rewrite !existsb_app. cbn [existsb]. intros H.
  apply orb_true_iff in H as [H|H]; [now rewrite H|].
  apply orb_true_iff in H as [H|H]; rewrite H; now rewrite ?orb_true_r.
Qed.

Lemma skipped_mono x :
  In x (document_order s) -> skipped c x s = true -> skipped c x s' = true.
Proof.
  intros Hx. unfold skipped. rewrite !orb_true_iff. intros [H|H].
  - left. now apply below_class_mono.
  - right. rewrite excluded_attrs in *. now rewrite (wrapped_attrs d el s s' Hwf Hws x Hx).
Qed.
End SkippedMono.

Lemma has_class_selects cl a : has_class cl a = true -> selects_class cl a = true.
Proof.
  unfold selects_class, has_class. destruct (quirks a); [|trivial].
  rewrite !existsb_exists. intros (x & Hx & E). exists x. split; [assumption|].
  apply String.eqb_eq in E. subst. apply String.eqb_refl.
Qed.

Lemma has_class_wrapper c el s : has_class (cfg_wrapper c) (wrapper_attrs c el s) = true.
Proof.
  unfold wrapper_attrs, with_display, with_copied_width, has_class.
  destruct (cfg_display c), (cfg_width c); cbn;
    repeat (match goal with |- context [if ?b then _ else _] =>
              lazymatch b with String.eqb (cfg_wrapper c) (cfg_wrapper c) => fail | _ => destruct b end
            end; cbn);
    now rewrite String.eqb_refl.
Qed.

Lemma classList_wrapper c el s : classList (wrapper_attrs c el s) = [cfg_wrapper c].
Proof.
  unfold wrapper_attrs, with_display, with_copied_width.
  destruct (cfg_display c), (cfg_width c); cbn; try reflexivity;
    repeat (match goal with |- context [if ?b then _ else _] => destruct b end);
    reflexivity.
Qed.

Lemma matches_wrapper_class c el s :
  matches [SelClass (cfg_wrapper c)] (wrapper_attrs c el s) = true.
Proof.
  unfold matches, matches1, is_element. cbn [existsb].
  now rewrite wrapper_attrs_element, has_class_selects by apply has_class_wrapper.
Qed.

(** After its step the target is below its wrapper. *)
Lemma wrapped_target_skipped c el s s' :
  well_formed s = true -> wrapped_store c el s s' -> skipped c el s' = true.
Proof.
  intros Hwf Hws. unfold skipped, below_class.
  destruct (wrapped_ancestors_target c el s s' Hwf Hws) as (a & p & pa & tl & _ & -> & _).
  cbn [existsb snd]. rewrite matches_wrapper_class. cbn. now rewrite orb_true_r.
Qed.

(** ** The passes of the script are passes of [decorate] *)

Lemma run_pass_eq cw p s : run_pass cw p s = decorate (config_of cw p) s.
Proof.
  destruct p; cbn [run_pass config_of].
  - apply v1_input_pass_eq.
  - apply v1_button_pass_eq.
  - apply v2_input_pass_eq.
  - apply v2_button_pass_eq.
Qed.

Lemma run_step_eq cw p el s : run_step cw p el s = decorate_one (config_of cw p) el s.
Proof.
  destruct p; cbn [run_step config_of].
  - apply v1_wrap_input_eq.
  - apply v1_wrap_button_eq.
  - apply v2_wrap_input_eq.
  - apply v2_wrap_button_eq.
Qed.

Lemma run_listener_eq cw v s :
  run_listener cw v s =
  (run_pass cw (input_pass_of v) ;; run_pass cw (button_pass_of v)) s.
Proof. now destruct v. Qed.

Lemma run_listener_ok cw v s s' :
  run_listener cw v s = (Ok tt, s') <->
  exists s1, run_pass cw (input_pass_of v) s = (Ok tt, s1) /\
             run_pass cw (button_pass_of v) s1 = (Ok tt, s').
Proof.
  rewrite run_listener_eq. unfold bind.
  destruct (run_pass cw (input_pass_of v) s) as [[[]|e] s1]; split.
  - intros H. now exists s1.
  - now intros (s2 & [= <-] & H).
  - discriminate.
  - now intros (s2 & [=] & _).
Qed.

Lemma matches_wrapper_attrs sel d el s :
  matches sel (wrapper_attrs d el s) =
  matches sel (with_classList [cfg_wrapper d] (new_element (quirks_mode s) "div")).
Proof.
  unfold wrapper_attrs, with_display, with_copied_width.
  destruct (cfg_display d), (cfg_width d); cbn; try reflexivity;
    repeat (match goal with |- context [if String.eqb ?x ?y then _ else _] =>
              destruct (String.eqb x y) end);
    reflexivity.
Qed.

Lemma made_by_unmatched c d a :
  unmatched c d = true -> made_by d a -> matches (cfg_selector c) a = false.
Proof.
  unfold unmatched. rewrite forallb_forall. intros H.
  assert (Hq : forall q,
            matches (cfg_selector c)
              (with_classList [cfg_wrapper d] (new_element q "div")) = false /\
            forall cl, In cl (cfg_layers d) ->
              matches (cfg_selector c) (layer_attrs q cl) = false).
  { intros q. assert (Hin : In q [false; true]) by (destruct q; cbn; auto).
    specialize (H q Hin). rewrite andb_true_iff, negb_true_iff, forallb_forall in H.
    destruct H as [H1 H2]. split; [assumption|].
    intros cl Hcl. now apply negb_true_iff, H2. }
  intros [(el & s & ->) | (q & cl & Hcl & ->)].
  - rewrite matches_wrapper_attrs. exact (proj1 (Hq _)).
  - exact (proj2 (Hq q) cl Hcl).
Qed.

Lemma unmatched_passes cw p q : unmatched (config_of cw p) (config_of cw q) = true.
Proof. destruct p, q; reflexivity. Qed.

(** ** Elements that a pass has dealt with *)

Lemma descendants_in_order s x a :
  In (x, a) (descendants (document s)) -> In x (document_order s).
Proof.
  intros H. unfold document_order, ids. rewrite nodes_descendants. right.
  now apply (in_map fst) in H.
Qed.

Lemma pending_step c d el s s' (R : list node_id) :
  well_formed s = true -> wrapped_store d el s s' -> unmatched c d = true ->
  (forall x a, In (x, a) (descendants (document s)) ->
     matches (cfg_selector c) a = true -> skipped c x s = true \/ In x R) ->
  forall x a, In (x, a) (descendants (document s')) ->
    matches (cfg_selector c) a = true -> skipped c x s' = true \/ In x R.
Proof.
  intros Hwf Hws Hun HP x a Hx Hm.
  destruct (wrapped_descendants_inv d el s s' Hwf Hws x a Hx) as [[Hold _] | [_ Hnew]].
  - destruct (HP x a Hold Hm) as [H|H]; [left | now right].
    apply (skipped_mono c d el s s' Hwf Hws); [|assumption].
    now apply (descendants_in_order s x a).
  - rewrite (made_by_unmatched c d a Hun Hnew) in Hm. discriminate.
Qed.

Lemma forEach_all_skipped c l s :
  (forall el, In el l -> skipped c el s = true) ->
  forEach l (decorate_one c) s = (Ok tt, s).
Proof.
  induction l as [|el rest IH]; intros H; cbn [forEach]; [reflexivity|].
  rewrite (bind_ok _ _ _ _ _ (decorate_one_skipped c el s (H el (or_introl eq_refl)))).
  apply IH. intros x Hx. apply H. now right.
Qed.

(** A pass over a settled document changes nothing: no node is created,
    moved or changed. *)
Lemma decorate_settled c s :
  shadowed "querySelectorAll" s = false -> settled c s -> decorate c s = (Ok tt, s).
Proof.
  intros Hq H. rewrite decorate_forEach, Hq. apply forEach_all_skipped.
  intros el Hel. apply targets_spec in Hel as (a & Ha & Hm). exact (H el a Ha Hm).
Qed.

(** A pass that returns leaves the document settled for itself. *)
Lemma decorate_settles c s s' :
  well_formed s = true -> unmatched c c = true ->
  decorate c s = (Ok tt, s') -> settled c s' /\ well_formed s' = true.
Proof.
  intros Hwf Hun. intros H. apply decorate_ok in H as [_ H].
  pose (P := fun (rest : list node_id) (s : dom) =>
               forall x a, In (x, a) (descendants (document s)) ->
                 matches (cfg_selector c) a = true -> skipped c x s = true \/ In x rest).
  destruct (forEach_decorate_ind c P) with (l := targets c s) (s := s) (s' := s')
    as [HP Hwf']; try assumption.
  - intros el rest s0 _ _ HP0 Hs x a Hx Hm.
    destruct (HP0 x a Hx Hm) as [H0|[<-|H0]]; auto.
  - intros el rest s0 s1 Hwf0 _ HP0 Hs Hws x a Hx Hm.
    destruct (pending_step c c el s0 s1 (el :: rest) Hwf0 Hws Hun HP0 x a Hx Hm)
      as [H0|[<-|H0]]; auto.
    left. now apply (wrapped_target_skipped c el s0 s1).
  - intros el. apply targets_are_nodes.
  - intros x a Hx Hm. right. apply targets_spec. now exists a.
  - split; [|assumption]. intros x a Hx Hm. destruct (HP x a Hx Hm) as [H0|[]]. exact H0.
Qed.

(** A pass that returns leaves settled what was settled for another pass. *)
Lemma decorate_keeps_settled c d s s' :
  well_formed s = true -> unmatched c d = true -> settled c s ->
  decorate d s = (Ok tt, s') -> settled c s'.
Proof.
  intros Hwf Hun Hset. intros H. apply decorate_ok in H as [_ H].
  destruct (forEach_decorate_ind d (fun _ s => settled c s))
    with (l := targets d s) (s := s) (s' := s') as [HP _]; try assumption.
  - trivial.
  - intros el rest s0 s1 Hwf0 _ HP0 Hs Hws x a Hx Hm.
    destruct (pending_step c d el s0 s1 [] Hwf0 Hws Hun) with (x := x) (a := a)
      as [H0|[]]; try assumption.
    intros y b Hy Hb. left. exact (HP0 y b Hy Hb).
  - intros el. apply targets_are_nodes.
Qed.

Lemma decorate_well_formed c s s' :
  well_formed s = true -> decorate c s = (Ok tt, s') -> well_formed s' = true.
Proof.
  intros Hwf. intros H. apply decorate_ok in H as [_ H].
  destruct (forEach_decorate_ind c (fun _ _ => True))
    with (l := targets c s) (s := s) (s' := s') as [_ Hwf']; auto.
  intros el. apply targets_are_nodes.
Qed.

(** ** The named properties and the mode of the document stay *)

Lemma own_names_unnamed e a : nameAttr a = "" -> idAttr a = "" -> own_names e a = [].
Proof.
  intros Hn Hi. unfold own_names. rewrite Hn, Hi. cbn [String.eqb negb].
  now rewrite !andb_false_r.
Qed.

Lemma wrapper_attrs_unnamed c el s :
  localName (wrapper_attrs c el s) = "div" /\
  nameAttr (wrapper_attrs c el s) = "" /\ idAttr (wrapper_attrs c el s) = "" /\
  quirks (wrapper_attrs c el s) = quirks_mode s.
Proof.
  unfold wrapper_attrs, with_display, with_copied_width.
  destruct (cfg_display c), (cfg_width c); cbn; try (repeat split; reflexivity);
    repeat (match goal with |- context [if ?b then _ else _] => destruct b end);
    repeat split; reflexivity.
Qed.

Lemma is_plugin_div i a : localName a = "div" -> is_plugin (i, a) = false.
Proof.
  intros H. unfold is_plugin, is_html. cbn [snd]. rewrite H. cbn.
  now rewrite !andb_false_r.
Qed.

Lemma layers_no_plugin q n cls :
  existsb is_plugin (flat_map nodes (layer_nodes q n cls)) = false.
Proof.
  revert n. induction cls as [|cl r IH]; intros n; cbn [layer_nodes flat_map]; [reflexivity|].
  cbn [nodes flat_map app existsb]. rewrite IH. now rewrite is_plugin_div.
Qed.

Lemma layers_no_names u q n cls :
  flat_map (names_below u) (layer_nodes q n cls) = [].
Proof.
  revert n. induction cls as [|cl r IH]; intros n; cbn [layer_nodes flat_map]; [reflexivity|].
  rewrite IH. cbn [names_below flat_map]. now rewrite own_names_unnamed.
Qed.

Lemma names_agree_wrapper c el s K :
  names_agree K (Node (next_id s) (wrapper_attrs c el s)
                      (layer_nodes (quirks_mode s) (S (next_id s)) (cfg_layers c) ++ [K])).
Proof.
  destruct (wrapper_attrs_unnamed c el s) as (Hl & Hn & Hi & _).
  split.
  - cbn [nodes existsb]. rewrite (is_plugin_div _ _ Hl), flat_map_app, existsb_app.
    rewrite layers_no_plugin. cbn [flat_map orb]. now rewrite app_nil_r.
  - intros u. cbn [names_below]. rewrite (own_names_unnamed _ _ Hn Hi).
    assert (E : is_html "object" (wrapper_attrs c el s) = false).
    { unfold is_html. rewrite Hl. cbn. now rewrite andb_false_r. }
    rewrite E. cbn [andb]. rewrite orb_false_r, flat_map_app, layers_no_names.
    cbn [flat_map app]. now rewrite app_nil_r.
Qed.

Lemma names_agree_plug cx T T' :
  names_agree T T' -> names_agree (plug cx T) (plug cx T').
Proof.
  intros H. induction cx as [|j a l cx IH r]; cbn [plug]; [exact H|].
  destruct IH as [IH1 IH2].
  assert (E : existsb is_plugin (flat_map nodes (l ++ plug cx T :: r)) =
              existsb is_plugin (flat_map nodes (l ++ plug cx T' :: r))).
  { rewrite !flat_map_app, !existsb_app. cbn [flat_map]. rewrite !existsb_app.
    now rewrite IH1. }
  split.
  - cbn [nodes existsb]. now rewrite E.
  - intros u. cbn [names_below]. unfold exposed. cbn [root_attrs children].
    rewrite E, !flat_map_app. cbn [flat_map]. now rewrite IH2.
Qed.

Section WrappedFrame.
Variables (c : config) (el : node_id) (s s' : dom).
Hypothesis Hws : wrapped_store c el s s'.

Lemma wrapped_names : document_names s' = document_names s.
Proof.
  destruct Hws as (cx & p & pa & l & r & K & E & _ & E' & _).
  unfold document_names. rewrite E, E'. symmetry.
  apply (names_agree_plug cx (plug (Below p pa l Hole r) K)
           (plug (Below p pa l Hole r) _)).
  apply names_agree_plug, names_agree_wrapper.
Qed.

Lemma wrapped_shadowed m : shadowed m s' = shadowed m s.
Proof. unfold shadowed. now rewrite wrapped_names. Qed.

Lemma wrapped_quirks : quirks_mode s' = quirks_mode s.
Proof.
  destruct Hws as (cx & p & pa & l & r & K & E & _ & E' & _).
  unfold quirks_mode. rewrite E, E'. f_equal. apply root_attrs_plug.
Qed.
End WrappedFrame.

(** Steps that return leave the named properties and the mode of the
    document as they were, and the document node where it is. *)
Lemma forEach_frame c l s s' :
  well_formed s = true -> (forall el, In el l -> is_target_node el s) ->
  forEach l (decorate_one c) s = (Ok tt, s') ->
  document_names s' = document_names s /\ quirks_mode s' = quirks_mode s /\
  root_id (document s') = root_id (document s).
Proof.
  intros Hwf Ht H.
  destruct (forEach_decorate_ind c
              (fun _ st => document_names st = document_names s /\
                           quirks_mode st = quirks_mode s /\
                           root_id (document st) = root_id (document s)))
    with (l := l) (s := s) (s' := s') as [HP _]; try assumption.
  - trivial.
  - intros el rest s0 s1 _ _ (H1 & H2 & H3) _ Hws.
    rewrite (wrapped_names c el s0 s1 Hws), (wrapped_quirks c el s0 s1 Hws).
    repeat split; try assumption. rewrite <- H3.
    destruct Hws as (cx & q & pa & l0 & r & K & E & _ & E' & _).
    rewrite E, E'. now apply root_id_plug_same.
  - now repeat split.
Qed.

Lemma decorate_frame c s s' :
  well_formed s = true -> decorate c s = (Ok tt, s') ->
  document_names s' = document_names s /\ quirks_mode s' = quirks_mode s.
Proof.
  intros Hwf H. apply decorate_ok in H as [_ H].
  destruct (forEach_frame c (targets c s) s s' Hwf) as (H1 & H2 & _); auto.
  intros el. apply targets_are_nodes.
Qed.

Lemma decorate_shadowed c s s' m :
  well_formed s = true -> decorate c s = (Ok tt, s') -> shadowed m s' = shadowed m s.
Proof.
  intros Hwf H. unfold shadowed. now rewrite (proj1 (decorate_frame c s s' Hwf H)).
Qed.

(** Steps that return leave skipped what was skipped. *)
Lemma forEach_skipped_mono c l s s' x :
  well_formed s = true -> (forall el, In el l -> is_target_node el s) ->
  forEach l (decorate_one c) s = (Ok tt, s') ->
  In x (document_order s) -> skipped c x s = true ->
  In x (document_order s') /\ skipped c x s' = true.
Proof.
  intros Hwf Ht H Hx Hs.
  destruct (forEach_decorate_ind c
              (fun _ st => In x (document_order st) /\ skipped c x st = true))
    with (l := l) (s := s) (s' := s') as [HP _]; try assumption.
  - trivial.
  - intros el rest s0 s1 Hwf0 _ [H1 H2] _ Hws. split.
    + apply (wrapped_in_order c el s0 s1 Hws). now left.
    + now apply (skipped_mono c c el s0 s1 Hwf0 Hws).
  - now split.
Qed.

(** The step at which a pass throws. *)
Lemma forEach_throw_step c l : forall s e s',
  well_formed s = true -> (forall el, In el l -> is_target_node el s) ->
  forEach l (decorate_one c) s = (Throw e, s') ->
  exists done el rest st,
    l = done ++ el :: rest /\
    forEach done (decorate_one c) s = (Ok tt, st) /\
    well_formed st = true /\ is_target_node el st /\
    decorate_one c el st = (Throw e, s').
Proof.
  induction l as [|el rest IH]; intros s e s' Hwf Ht; cbn [forEach]; [discriminate|].
  destruct (Ht el (or_introl eq_refl)) as (a & Ha & He).
  destruct (decorate_one_cases c el a s Hwf Ha He)
    as [[Hs E] | [(Hs & s1 & E & Hw) | (Hs & e0 & s1 & E & _)]].
  - rewrite (bind_ok _ _ _ _ _ E). intros H.
    destruct (IH s e s' Hwf (fun x Hx => Ht x (or_intror Hx)) H)
      as (done & el1 & rest1 & st & -> & Hd & Hwfst & Htn & Hth).
    exists (el :: done), el1, rest1, st. repeat split; auto.
    cbn [forEach]. now rewrite (bind_ok _ _ _ _ _ E).
  - rewrite (bind_ok _ _ _ _ _ E). intros H.
    destruct (IH s1 e s' (wrapped_well_formed c el s s1 Hwf Hw)
                (fun x Hx => wrapped_target_node c el s s1 Hw x (Ht x (or_intror Hx))) H)
      as (done & el1 & rest1 & st & -> & Hd & Hwfst & Htn & Hth).
    exists (el :: done), el1, rest1, st. repeat split; auto.
    cbn [forEach]. now rewrite (bind_ok _ _ _ _ _ E).
  - rewrite (bind_throw _ _ _ _ _ E). intros [= <- <-].
    exists [], el, rest, s. repeat split; auto. now exists a.
Qed.

(** When [document.createElement] is not the method of the DOM, steps return
    only where the guard skips the element. *)
Lemma forEach_shadowed c l : forall s s',
  well_formed s = true -> (forall el, In el l -> is_target_node el s) ->
  shadowed "createElement" s = true ->
  forEach l (decorate_one c) s = (Ok tt, s') ->
  (forall el, In el l -> skipped c el s = true) /\ s' = s.
Proof.
  induction l as [|el rest IH]; intros s s' Hwf Ht Hsh; cbn [forEach].
  - intros [= <-]. split; [intros el []| reflexivity].
  - destruct (Ht el (or_introl eq_refl)) as (a & Ha & He).
    destruct (decorate_one_outcome c el a s Hwf Ha He)
      as [[Hs E] | [(Hs & _ & E) | [(_ & Hn & _) | (_ & Hn & _)]]]; try congruence.
    + rewrite (bind_ok _ _ _ _ _ E). intros H.
      destruct (IH s s' Hwf (fun x Hx => Ht x (or_intror Hx)) Hsh H) as [Hall ->].
      split; [|reflexivity]. intros x [<-|Hx]; auto.
    + rewrite (bind_throw _ _ _ _ _ E). discriminate.
Qed.
(* ================================================================== *)
(** * No eligible element *)

(** C8, as the code has it.  On a document where no element matches the
    input selector and none matches the button selector, the listener leaves
    the store, and so the document tree, as it was.  It returns when
    [document.querySelectorAll] is the method of the DOM; when an element of
    the page stands in its way (a named property [querySelectorAll] of the
    document), the first line of the listener throws a TypeError.  This holds
    for both variants. *)
Theorem no_match_no_change (cw : tree -> node_id -> string) (v : variant) (s : dom) :
  targets (config_of cw (input_pass_of v)) s = [] ->
  targets (config_of cw (button_pass_of v)) s = [] ->
  run_listener cw v s =
  (if shadowed "querySelectorAll" s then Throw TypeError else Ok tt, s).
Proof.
  intros H1 H2. rewrite run_listener_eq. unfold bind.
  rewrite run_pass_eq, decorate_forEach.
  destruct (shadowed "querySelectorAll" s) eqn:E; [reflexivity|].
  rewrite H1. cbn [forEach]. unfold ret.
  now rewrite run_pass_eq, decorate_forEach, E, H2.
Qed.

Lemma no_match_no_change_witness :
  run_listener no_layout Variant1 sample_plain = (Ok tt, sample_plain) /\
  run_listener no_layout Variant2 sample_plain = (Ok tt, sample_plain).
Proof.
  split.
  - apply (no_match_no_change no_layout Variant1 sample_plain); vm_compute; reflexivity.
  - apply (no_match_no_change no_layout Variant2 sample_plain); vm_compute; reflexivity.
Defined.

(** No element of [<form name="querySelectorAll"><p></p></form>] matches a
    selector of the script, and yet the listener does not return: the form is
    what [document.querySelectorAll] evaluates to, and the call of it is a
    TypeError, in both variants. *)
Lemma named_form_stops_listener :
  targets (v1_inputs no_layout) sample_named_form = [] /\
  targets v1_buttons sample_named_form = [] /\
  targets v2_inputs sample_named_form = [] /\
  targets v2_buttons sample_named_form = [] /\
  shadowed "querySelectorAll" sample_named_form = true /\
  V1.listener no_layout sample_named_form = (Throw TypeError, sample_named_form) /\
  V2.listener sample_named_form = (Throw TypeError, sample_named_form).
Proof. vm_compute. repeat split. Qed.

(* ================================================================== *)
(** * The parent of a visited element *)


(** The steps of a pass move no element but their own targets. *)
Lemma forEach_keeps_parents c done s st :
  well_formed s = true -> (forall el, In el done -> is_target_node el s) ->
  forEach done (decorate_one c) s = (Ok tt, st) ->
  forall x, In x (document_order s) -> ~ In x done ->
    parent_in x st = parent_in x s.
Proof.
  intros Hwf Ht H.
  pose (P := fun (rem : list node_id) (s0 : dom) =>
               (forall y, In y rem -> In y done) /\
               forall x, In x (document_order s) -> ~ In x done ->
                 In x (document_order s0) /\ parent_in x s0 = parent_in x s).
  destruct (forEach_decorate_ind c P) with (l := done) (s := s) (s' := st)
    as [[_ HP] _]; try assumption.
  - intros el rest s0 _ _ [Hin HP0] _. split; [|assumption].
    intros y Hy. apply Hin. now right.
  - intros el rest s0 s1 Hwf0 _ [Hin HP0] _ Hws. split.
    + intros y Hy. apply Hin. now right.
    + intros x Hx Hnx. destruct (HP0 x Hx Hnx) as [Hx0 Ep]. split.
      * apply (wrapped_in_order c el s0 s1 Hws). now left.
      * rewrite <- Ep. apply (wrapped_parent c el s0 s1 Hwf0 Hws x Hx0).
        intros ->. apply Hnx, Hin. now left.
  - split; [trivial|]. intros x Hx _. now split.
  - intros x Hx Hnx. now apply HP.
Qed.



(* ================================================================== *)
(** * The nodes a pass makes *)

Lemma styleDisplay_wrapper c el s :
  styleDisplay (wrapper_attrs c el s) =
  match cfg_display c with Some d => d | None => "" end.
Proof.
  unfold wrapper_attrs, with_display, with_copied_width.
  destruct (cfg_display c), (cfg_width c); cbn; try reflexivity;
    repeat (match goal with |- context [if String.eqb ?x ?y then _ else _] =>
              destruct (String.eqb x y) end);
    reflexivity.
Qed.

(** After a pass that returns, a descendant of the document is a node that
    was there, with the attributes it had, or a node the pass made. *)
Lemma decorate_nodes c s s' :
  well_formed s = true -> decorate c s = (Ok tt, s') ->
  next_id s <= next_id s' /\
  forall i a, In (i, a) (descendants (document s')) ->
    (In (i, a) (descendants (document s)) /\ i < next_id s) \/
    (next_id s <= i /\ made_by c a).
Proof.
  intros Hwf. intros H. apply decorate_ok in H as [_ H].
  pose (P := fun (_ : list node_id) (st : dom) =>
               next_id s <= next_id st /\
               forall i a, In (i, a) (descendants (document st)) ->
                 (In (i, a) (descendants (document s)) /\ i < next_id s) \/
                 (next_id s <= i /\ made_by c a)).
  destruct (forEach_decorate_ind c P) with (l := targets c s) (s := s) (s' := s')
    as [HP _]; try assumption.
  - trivial.
  - intros el rest s0 s1 Hwf0 _ [Hn HP0] Hs Hws. split.
    + rewrite (wrapped_next c el s0 s1 Hws). lia.
    + intros i a Hi.
      destruct (wrapped_descendants_inv c el s0 s1 Hwf0 Hws i a Hi) as [[Hold _] | [Hge Hnew]].
      * now apply HP0.
      * right. split; [lia | assumption].
  - intros el. apply targets_are_nodes.
  - split; [lia|]. intros i a Hi. left. split; [assumption|].
    apply well_formed_facts in Hwf as (_ & Hfr & _). apply Hfr. apply in_or_app. left.
    fold (document_order s). now apply (descendants_in_order s i a).
Qed.

Lemma made_by_v1_display cw p a :
  made_by (config_of cw p) a ->
  match p with
  | V1_inputs | V1_buttons | V2_inputs =>
      styleDisplay a = "" /\ has_class "btn-animated-wrapper" a =
                             match p with V1_buttons => negb (existsb (String.eqb "btn-animated-wrapper") []) | _ => false end
  | V2_buttons =>
      if has_class "btn-animated-wrapper" a
      then styleDisplay a = "inline-block"
      else styleDisplay a = ""
  end.
Proof.
  intros [(el & s & ->) | (q0 & cl & Hcl & ->)].
  - unfold has_class. rewrite styleDisplay_wrapper, classList_wrapper.
    destruct p; cbn; now split.
  - destruct p; cbn [config_of cfg_layers v1_inputs v1_buttons v2_inputs v2_buttons] in Hcl;
      cbn [In] in Hcl;
      repeat (destruct Hcl as [<-|Hcl]; [cbn; now try split|]); destruct Hcl.
Qed.

(** C10. Among the nodes a listener creates (those with an identity the store
    had not given out before), the second variant gives
    [display: inline-block] to the button wrappers and to nothing else; the
    first variant gives no created node a [display]. *)
Theorem display_only_on_v2_button_wrappers (cw : tree -> node_id -> string)
    (v : variant) (s s' : dom) (i : node_id) (a : attrs) :
  well_formed s = true ->
  run_listener cw v s = (Ok tt, s') ->
  In (i, a) (descendants (document s')) ->
  next_id s <= i ->
  match v with
  | Variant1 => styleDisplay a = ""
  | Variant2 =>
      if has_class "btn-animated-wrapper" a
      then styleDisplay a = "inline-block"
      else styleDisplay a = ""
  end.
Proof.
  intros Hwf Hrun Hi Hnew.
  apply run_listener_ok in Hrun as (s1 & H1 & H2). rewrite run_pass_eq in H1, H2.
  pose proof (decorate_well_formed _ _ _ Hwf H1) as Hwf1.
  destruct (decorate_nodes _ _ _ Hwf H1) as [Hn1 HN1].
  destruct (decorate_nodes _ _ _ Hwf1 H2) as [Hn2 HN2].
  assert (Hmade : made_by (config_of cw (input_pass_of v)) a \/
                  made_by (config_of cw (button_pass_of v)) a).
  { destruct (HN2 i a Hi) as [[Hold _] | [_ Hm]]; [|now right].
    destruct (HN1 i a Hold) as [[_ Hlt] | [_ Hm]]; [lia | now left]. }
  destruct v; cbn [input_pass_of button_pass_of] in Hmade;
    destruct Hmade as [Hm|Hm]; apply made_by_v1_display in Hm; cbn in Hm.
  - apply Hm.
  - apply Hm.
  - destruct Hm as [Hd Hc]. now rewrite Hc.
  - exact Hm.
Qed.

Lemma display_only_on_v2_button_wrappers_witness :
  styleDisplay (with_styleDisplay "inline-block"
                  (with_classList ["btn-animated-wrapper"] (new_element false "div")))
  = "inline-block".
Proof.
  apply (display_only_on_v2_button_wrappers no_layout Variant2 sample_form
           (snd (V2.listener sample_form)) 14
           (with_styleDisplay "inline-block"
              (with_classList ["btn-animated-wrapper"] (new_element false "div")))).
  - vm_compute. reflexivity.
  - vm_compute. reflexivity.
  - vm_compute. tauto.
  - vm_compute. lia.
Defined.

(* ================================================================== *)
(** * Wrappers *)

Lemma find_node_nodes x t U : find_node x t = Some U -> In (x, root_attrs U) (nodes t).
Proof.
  revert U. induction t as [j a ks IH] using tree_induction. intros U. cbn [find_node nodes].
  destruct (Nat.eqb_spec j x) as [->|N].
  - intros [= <-]. now left.
  - intros H. right. apply first_some_In in H as (k & Hk & E).
    rewrite Forall_forall in IH. apply in_flat_map. exists k. split; [assumption|].
    now apply IH.
Qed.

(** The attributes listed with an ancestor are the attributes of that node. *)
Lemma ancestors_attrs s y ly x a :
  well_formed s = true -> In y (document_order s) ->
  ancestors_at y s = Some ly -> In (x, a) ly ->
  In x (document_order s) /\ attrs_at x s = Some a.
Proof.
  intros Hwf Hy. unfold document_order in *. rewrite ancestors_at_doc by assumption.
  intros E Hx. pose proof (anc_incl _ _ _ _ E Hx) as Hn.
  assert (Hxo : In x (ids (document s))) by (now apply (in_map fst) in Hn).
  split; [assumption|]. unfold attrs_at. rewrite node_at_doc by assumption.
  destruct (find_node_in _ _ Hxo) as [U EU]. rewrite EU. cbn [option_map]. f_equal.
  apply well_formed_facts in Hwf as (Hnd & _). apply NoDup_app_remove_r in Hnd.
  exact (pairs_functional _ x _ _ Hnd (find_node_nodes _ _ _ EU) Hn).
Qed.

Lemma parent_in_order s x w :
  well_formed s = true -> In x (document_order s) -> parent_in x s = Some w ->
  In w (document_order s).
Proof.
  intros Hwf Hx. unfold parent_in.
  destruct (ancestors_at x s) as [[|[x0 a0] [|[p pa] tl]]|] eqn:E; try discriminate.
  intros [= <-]. apply (ancestors_attrs s x _ p pa Hwf Hx E). right. now left.
Qed.

Section WrapperOf.
Variables (c d : config) (el : node_id) (s s' : dom).
Hypothesis Hwf : well_formed s = true.

Lemma wrapper_of_new : wrapped_store c el s s' -> wrapper_of c el (next_id s) s'.
Proof.
  intros Hws. unfold wrapper_of.
  destruct (wrapped_parent_target c el s s' Hwf Hws) as (p & _ & Hp & _).
  split; [assumption|]. split; [apply (wrapped_in_order c el s s' Hws); auto|].
  split.
  - exists s. split; [apply (wrapped_shape_wrapper c el s s' Hwf Hws)|].
    symmetry. apply (wrapped_attrs c el s s' Hwf Hws).
    apply (wrapped_target_in c el s s' Hws).
  - intros i cl Hi. rewrite (wrapped_quirks c el s s' Hws).
    split; [|now apply (wrapped_shape_layer c el s s' Hwf Hws)].
    apply (wrapped_in_order c el s s' Hws). right. right.
    apply nth_error_Some_lt in Hi. lia.
Qed.

Lemma wrapper_of_stable x w :
  wrapped_store d el s s' -> In x (document_order s) -> el <> x -> el < w ->
  wrapper_of c x w s -> wrapper_of c x w s'.
Proof.
  intros Hws Hx Nx Hlt (Hp & Hw & (sj & Hsh & Hat) & Hl).
  destruct (wrapped_shape_parent d el s s' Hwf Hws) as (p & pa & lids & rids & Hpe & Hps & _).
  unfold wrapper_of. split; [|split; [|split]].
  - rewrite (wrapped_parent d el s s' Hwf Hws x Hx); auto.
  - apply (wrapped_in_order d el s s' Hws). now left.
  - exists sj. split.
    + rewrite (wrapped_shape d el s s' Hwf Hws w Hw); [assumption|].
      rewrite Hpe. intros [= ->]. rewrite Hps in Hsh. injection Hsh as _ E.
      assert (Hin : In el (seq (S w) (List.length (cfg_layers c)) ++ [x])).
      { rewrite <- E. apply in_elt. }
      apply in_app_or in Hin as [Hin|[Hin|[]]]; [apply in_seq in Hin; lia | congruence].
    + rewrite Hat. symmetry. now apply (wrapped_attrs d el s s' Hwf Hws).
  - intros i cl Hi. destruct (Hl i cl Hi) as [Ho Hs].
    rewrite (wrapped_quirks d el s s' Hws). split.
    + apply (wrapped_in_order d el s s' Hws). now left.
    + rewrite (wrapped_shape d el s s' Hwf Hws _ Ho); [assumption|].
      rewrite Hpe. intros E0. assert (Ep : p = S w + i) by congruence.
      rewrite Ep, Hs in Hps. injection Hps as _ E. now destruct lids.
Qed.
End WrapperOf.

(** A wrapper carries the wrapper class: its target is below the class. *)
Lemma wrapper_of_skipped c x w s :
  well_formed s = true -> In x (document_order s) ->
  wrapper_of c x w s -> skipped c x s = true.
Proof.
  intros Hwf Hx (Hp & Hw & (sj & Hsh & _) & _).
  unfold skipped, below_class. unfold parent_in in Hp.
  destruct (ancestors_at x s) as [[|[x0 a0] [|[p pa] tl]]|] eqn:E; try discriminate.
  injection Hp as ->.
  destruct (ancestors_attrs s x _ w pa Hwf Hx E) as [_ Ha]; [right; now left|].
  rewrite attrs_at_shape, Hsh in Ha. cbn in Ha. injection Ha as <-.
  cbn [existsb snd]. rewrite matches_wrapper_class. cbn. now rewrite orb_true_r.
Qed.

(** ** What a pass does to each node of the document *)

Lemma skipped_excluded c x s : skipped c x s = false -> excluded c x s = false.
Proof. unfold skipped. now intros H%orb_false_iff. Qed.

Theorem decorate_effect c s s' :
  well_formed s = true -> decorate c s = (Ok tt, s') ->
  well_formed s' = true /\
  next_id s <= next_id s' /\
  forall x, In x (document_order s) ->
    In x (document_order s') /\
    attrs_at x s' = attrs_at x s /\
    (parent_in x s' = parent_in x s \/
     exists w, next_id s <= w /\ wrapper_of c x w s' /\
               parent_in w s' = parent_in x s /\
               In x (targets c s) /\ excluded c x s = false).
Proof.
  intros Hwf. intros H. apply decorate_ok in H as [_ H].
  pose (P := fun (rest : list node_id) (st : dom) =>
               next_id s <= next_id st /\
               (forall x, In x rest -> In x (targets c s)) /\
               forall x, In x (document_order s) ->
                 In x (document_order st) /\
                 attrs_at x st = attrs_at x s /\
                 (parent_in x st = parent_in x s \/
                  exists w, next_id s <= w /\ wrapper_of c x w st /\
                            parent_in w st = parent_in x s /\
                            In x (targets c s) /\ excluded c x s = false)).
  destruct (forEach_decorate_ind c P) with (l := targets c s) (s := s) (s' := s')
    as [(Hn & _ & HP) Hwf']; try assumption.
  - intros el rest s0 _ _ (Hn & Hr & HP) _.
    split; [assumption|]. split; [|assumption]. intros x Hx. apply Hr. now right.
  - intros el rest s0 s1 Hwf0 _ (Hn & Hr & HP) Hs Hws.
    assert (Helt : In el (targets c s)) by (apply Hr; now left).
    assert (Hel0 : In el (document_order s)) by (now apply targets_in_order in Helt).
    assert (Hellt : el < next_id s).
    { apply well_formed_facts in Hwf as (_ & Hfr & _). apply Hfr. apply in_or_app. now left. }
    split; [rewrite (wrapped_next c el s0 s1 Hws); lia|].
    split; [intros x Hx; apply Hr; now right|].
    intros x Hx. destruct (HP x Hx) as (Hxo & Hxa & Hxp).
    split; [apply (wrapped_in_order c el s0 s1 Hws); now left|].
    split; [now rewrite (wrapped_attrs c el s0 s1 Hwf0 Hws x Hxo)|].
    destruct (Nat.eq_dec el x) as [->|Nx].
    + right. exists (next_id s0). split; [assumption|].
      split; [now apply wrapper_of_new|].
      destruct (wrapped_parent_target c x s0 s1 Hwf0 Hws) as (p & Hp0 & _ & Hpw).
      destruct Hxp as [Hxp | (w & Hw & Hwo & _)].
      * rewrite Hpw, <- Hxp, Hp0. repeat split; auto.
        apply skipped_excluded in Hs. rewrite excluded_attrs in *. now rewrite <- Hxa.
      * rewrite (wrapper_of_skipped c x w s0 Hwf0 Hxo Hwo) in Hs. discriminate.
    + destruct Hxp as [Hxp | (w & Hw & Hwo & Hwp & Hxt)].
      * left. rewrite <- Hxp. apply (wrapped_parent c el s0 s1 Hwf0 Hws x Hxo). congruence.
      * right. exists w. split; [assumption|]. split.
        -- apply (wrapper_of_stable c c el s0 s1 Hwf0 x w Hws Hxo Nx); [lia | assumption].
        -- split; [|assumption]. rewrite <- Hwp.
           destruct Hwo as (_ & Hwin & _).
           apply (wrapped_parent c el s0 s1 Hwf0 Hws w Hwin). lia.
  - intros el. apply targets_are_nodes.
  - split; [lia|]. split; [trivial|]. intros x Hx. repeat split; auto.
  - repeat split; auto; apply HP; assumption.
Qed.

Lemma old_lt s x : well_formed s = true -> In x (document_order s) -> x < next_id s.
Proof. intros Hwf. now apply wrapped_old_lt. Qed.

(** A pass that has returned changes nothing when it runs again. *)
Lemma run_pass_again cw p s s' :
  well_formed s = true -> run_pass cw p s = (Ok tt, s') -> run_pass cw p s' = (Ok tt, s').
Proof.
  rewrite !run_pass_eq. intros Hwf H. apply decorate_settled.
  - rewrite (decorate_shadowed _ s s' _ Hwf H). now apply decorate_ok in H.
  - now apply (decorate_settles _ s s' Hwf (unmatched_passes cw p p)).
Qed.

(* ================================================================== *)
(** * One wrapper for each decorated element, in each pass *)

(** A pass that returns leaves each node of the document with the parent it
    had, or directly inside one wrapper that the pass created for it. *)
Lemma pass_wraps_once c s s' x :
  well_formed s = true -> decorate c s = (Ok tt, s') -> In x (document_order s) ->
  parent_in x s' = parent_in x s \/
  exists w, next_id s <= w /\ In w (document_order s') /\
            parent_in x s' = Some w /\ parent_in w s' = parent_in x s /\
            option_map classList (attrs_at w s') = Some [cfg_wrapper c] /\
            In x (targets c s).
Proof.
  intros Hwf Hrun Hx.
  destruct (decorate_effect _ s s' Hwf Hrun) as (_ & _ & H).
  destruct (H x Hx) as (_ & _ & [Hp | (w & Hw & Hwo & Hwp & Ht & _)]); [now left|].
  right. destruct Hwo as (Hpx & Hin & (sj & Hsh & _) & _).
  exists w. rewrite attrs_at_shape, Hsh. cbn [option_map fst].
  now rewrite classList_wrapper.
Qed.

(** A node that a pass made is no target of a pass that runs after it. *)
Lemma made_node_no_target cw p q s s1 w :
  well_formed s = true -> decorate (config_of cw p) s = (Ok tt, s1) ->
  next_id s <= w -> ~ In w (targets (config_of cw q) s1).
Proof.
  intros Hwf H Hw Ht. apply targets_spec in Ht as (a & Ha & Hm).
  destruct (decorate_nodes _ s s1 Hwf H) as [_ HN].
  destruct (HN w a Ha) as [[_ Hlt] | [_ Hmade]]; [lia|].
  rewrite (made_by_unmatched _ _ a (unmatched_passes cw q p) Hmade) in Hm. discriminate.
Qed.

(** A listener that has returned changes nothing when it runs again. *)
Lemma run_listener_again cw v s s' :
  well_formed s = true -> run_listener cw v s = (Ok tt, s') ->
  run_listener cw v s' = (Ok tt, s').
Proof.
  intros Hwf Hrun. apply run_listener_ok in Hrun as (s0 & H1 & H2).
  pose proof H1 as D1. pose proof H2 as D2. rewrite run_pass_eq in D1, D2.
  destruct (decorate_settles _ s s0 Hwf (unmatched_passes cw _ _) D1) as [Hset1 Hwf0].
  destruct (decorate_settles _ s0 s' Hwf0 (unmatched_passes cw _ _) D2) as [Hset2 Hwf1].
  pose proof (decorate_keeps_settled _ _ s0 s' Hwf0 (unmatched_passes cw _ _) Hset1 D2)
    as Hset1'.
  assert (Hq : shadowed "querySelectorAll" s' = false).
  { rewrite (decorate_shadowed _ s0 s' _ Hwf0 D2). now apply decorate_ok in D2. }
  apply run_listener_ok. exists s'. rewrite !run_pass_eq.
  split; now apply decorate_settled.
Qed.

(** C6, as the code has it.  When the listener has returned, each node of
    the document has the parent it had, or it is directly inside one wrapper
    that the listener created (a new node, below the former parent of the
    node, with the wrapper class of the input pass or of the button pass as
    its only class), or it is directly inside a button wrapper that is
    directly inside an input wrapper, both created by the listener, the
    input wrapper below the former parent of the node.  So a node gets at
    most one wrapper from each pass, and it can get one from each: the claim
    that no element gets both fails, see [both_wrappers_for_one_element].
    Running the listener again creates nothing. *)
Theorem one_wrapper_per_pass (cw : tree -> node_id -> string) (v : variant)
    (s s' : dom) (x : node_id) :
  well_formed s = true ->
  run_listener cw v s = (Ok tt, s') ->
  In x (document_order s) ->
  (parent_in x s' = parent_in x s \/
   (exists w,
      next_id s <= w /\
      parent_in x s' = Some w /\
      parent_in w s' = parent_in x s /\
      (option_map classList (attrs_at w s') =
         Some [cfg_wrapper (config_of cw (input_pass_of v))] \/
       option_map classList (attrs_at w s') =
         Some [cfg_wrapper (config_of cw (button_pass_of v))])) \/
   (exists wi wb,
      next_id s <= wi /\ wi < wb /\
      parent_in x s' = Some wb /\
      parent_in wb s' = Some wi /\
      parent_in wi s' = parent_in x s /\
      option_map classList (attrs_at wi s') =
        Some [cfg_wrapper (config_of cw (input_pass_of v))] /\
      option_map classList (attrs_at wb s') =
        Some [cfg_wrapper (config_of cw (button_pass_of v))])) /\
  run_listener cw v s' = (Ok tt, s').
Proof.
  intros Hwf Hrun Hx. split; [|now apply (run_listener_again cw v s s')].
  apply run_listener_ok in Hrun as (s1 & H1 & H2). rewrite run_pass_eq in H1, H2.
  destruct (decorate_effect _ s s1 Hwf H1) as (Hwf1 & Hn1 & E1).
  destruct (decorate_effect _ s1 s' Hwf1 H2) as (_ & _ & E2).
  destruct (E1 x Hx) as (Hx1 & _ & _).
  (* a wrapper of the input pass stays where it is in the button pass *)
  assert (Hstay : forall w, next_id s <= w -> In w (document_order s1) ->
            parent_in w s' = parent_in w s1 /\ attrs_at w s' = attrs_at w s1).
  { intros w Hw Hin. destruct (E2 w Hin) as (_ & Ha & [Hp | (w2 & _ & _ & _ & Ht & _)]).
    - now split.
    - now apply (made_node_no_target cw _ _ s s1 w Hwf H1 Hw) in Ht. }
  destruct (pass_wraps_once _ s s1 x Hwf H1 Hx)
    as [P1 | (w1 & Hw1 & Hin1 & Px1 & Pw1 & C1 & _)];
    destruct (pass_wraps_once _ s1 s' x Hwf1 H2 Hx1)
      as [P2 | (w2 & Hw2 & Hin2 & Px2 & Pw2 & C2 & _)].
  - left. congruence.
  - right. left. exists w2. repeat split; [lia | assumption | congruence | now right].
  - right. left. exists w1. destruct (Hstay w1 Hw1 Hin1) as [Ep Ea].
    repeat split; [assumption | congruence | congruence | left; now rewrite Ea].
  - right. right. exists w1, w2. destruct (Hstay w1 Hw1 Hin1) as [Ep Ea].
    pose proof (old_lt s1 w1 Hwf1 Hin1).
    repeat split; [assumption | lia | assumption | congruence | congruence
                  | now rewrite Ea | assumption].
Qed.

Lemma one_wrapper_per_pass_witness :
  (parent_in 5 (snd (run_listener no_layout Variant1 sample_form)) = parent_in 5 sample_form \/
   (exists w,
      next_id sample_form <= w /\
      parent_in 5 (snd (run_listener no_layout Variant1 sample_form)) = Some w /\
      parent_in w (snd (run_listener no_layout Variant1 sample_form)) =
        parent_in 5 sample_form /\
      (option_map classList (attrs_at w (snd (run_listener no_layout Variant1 sample_form))) =
         Some [cfg_wrapper (config_of no_layout (input_pass_of Variant1))] \/
       option_map classList (attrs_at w (snd (run_listener no_layout Variant1 sample_form))) =
         Some [cfg_wrapper (config_of no_layout (button_pass_of Variant1))])) \/
   (exists wi wb,
      next_id sample_form <= wi /\ wi < wb /\
      parent_in 5 (snd (run_listener no_layout Variant1 sample_form)) = Some wb /\
      parent_in wb (snd (run_listener no_layout Variant1 sample_form)) = Some wi /\
      parent_in wi (snd (run_listener no_layout Variant1 sample_form)) =
        parent_in 5 sample_form /\
      option_map classList (attrs_at wi (snd (run_listener no_layout Variant1 sample_form))) =
        Some [cfg_wrapper (config_of no_layout (input_pass_of Variant1))] /\
      option_map classList (attrs_at wb (snd (run_listener no_layout Variant1 sample_form))) =
        Some [cfg_wrapper (config_of no_layout (button_pass_of Variant1))])) /\
  run_listener no_layout Variant1 (snd (run_listener no_layout Variant1 sample_form)) =
  (Ok tt, snd (run_listener no_layout Variant1 sample_form)).
Proof.
  apply (one_wrapper_per_pass no_layout Variant1 sample_form).
  - vm_compute. reflexivity.
  - vm_compute. reflexivity.
  - vm_compute. tauto.
Defined.

(** A [<textarea class="submit-btn">] is eligible for both passes of the
    first variant.  After the listener it is inside a button wrapper (8) that
    is inside an input wrapper (7): two wrappers, both created for it. *)
Lemma both_wrappers_for_one_element :
  let s' := snd (V1.listener no_layout sample_form) in
  fst (V1.listener no_layout sample_form) = Ok tt /\
  next_id sample_form = 6 /\
  parent_in 5 s' = Some 8 /\ parent_in 8 s' = Some 7 /\
  child_ids 8 s' = Some [5] /\ child_ids 7 s' = Some [8] /\
  option_map classList (attrs_at 8 s') = Some ["btn-animated-wrapper"] /\
  option_map classList (attrs_at 7 s') = Some ["input-animated-wrapper"].
Proof. vm_compute. repeat split. Qed.

(* ================================================================== *)
(** * The width of the wrapper *)

Lemma styleWidth_wrapper_v1 cw x s a :
  attrs_at x s = Some a -> styleWidth a <> "" ->
  styleWidth (wrapper_attrs (v1_inputs cw) x s) = styleWidth a.
Proof.
  unfold attrs_at. intros Ha Hn.
  destruct (node_at x s) as [t|] eqn:E; [|discriminate]. injection Ha as <-.
  unfold wrapper_attrs, with_display, with_copied_width. cbn [v1_inputs cfg_display cfg_width].
  rewrite E. destruct (String.eqb_spec (styleWidth (root_attrs t)) ""); [contradiction|].
  destruct (String.eqb_spec (styleWidth (root_attrs t)) ""); [contradiction|]. reflexivity.
Qed.

(** C7, as the code has it: in the first variant.  When the input pass of the
    first variant has put an element with an inline width into a wrapper (its
    parent is a node the pass created), the wrapper has that width as its
    inline width.  The second variant copies no width, see
    [v2_wrapper_has_no_width]. *)
Theorem v1_wrapper_takes_inline_width (cw : tree -> node_id -> string)
    (s s' : dom) (x : node_id) (a : attrs) (w : node_id) (wa : attrs) :
  well_formed s = true ->
  V1.input_pass cw s = (Ok tt, s') ->
  In x (document_order s) ->
  attrs_at x s = Some a ->
  styleWidth a <> "" ->
  parent_in x s' = Some w ->
  next_id s <= w ->
  attrs_at w s' = Some wa ->
  styleWidth wa = styleWidth a /\ classList wa = ["input-animated-wrapper"].
Proof.
  intros Hwf Hrun Hx Ha Hn Hp Hw Hwa.
  change (V1.input_pass cw s) with (run_pass cw V1_inputs s) in Hrun.
  rewrite run_pass_eq in Hrun. cbn [config_of] in Hrun.
  destruct (decorate_effect _ s s' Hwf Hrun) as (_ & _ & H).
  destruct (H x Hx) as (_ & Hxa & [Hp0 | (w' & _ & Hwo & _)]).
  - rewrite Hp in Hp0. symmetry in Hp0.
    pose proof (old_lt s w Hwf (parent_in_order s x w Hwf Hx Hp0)). lia.
  - destruct Hwo as (Hpx & _ & (sj & Hsh & Hat) & _).
    rewrite Hp in Hpx. injection Hpx as <-.
    rewrite attrs_at_shape, Hsh in Hwa. cbn in Hwa. injection Hwa as <-.
    split; [|apply (classList_wrapper (v1_inputs cw))].
    apply styleWidth_wrapper_v1; [|assumption]. now rewrite Hat, Hxa.
Qed.

Lemma v1_wrapper_takes_inline_width_witness :
  styleWidth (with_styleWidth "200px"
                (with_classList ["input-animated-wrapper"] (new_element false "div")))
  = styleWidth (element "input" (Some "text") [] "200px") /\
  classList (with_styleWidth "200px"
               (with_classList ["input-animated-wrapper"] (new_element false "div")))
  = ["input-animated-wrapper"].
Proof.
  apply (v1_wrapper_takes_inline_width no_layout sample_form
           (snd (V1.input_pass no_layout sample_form)) 3 _ 6).
  - vm_compute. reflexivity.
  - vm_compute. reflexivity.
  - vm_compute. tauto.
  - vm_compute. reflexivity.
  - vm_compute. discriminate.
  - vm_compute. reflexivity.
  - vm_compute. lia.
  - vm_compute. reflexivity.
Defined.

(** The input pass of the second variant wraps the same
    [<input type="text" style="width:200px">] in a wrapper (6) without a
    width. *)
Lemma v2_wrapper_has_no_width :
  let s' := snd (V2.input_pass sample_form) in
  fst (V2.input_pass sample_form) = Ok tt /\
  option_map styleWidth (attrs_at 3 sample_form) = Some "200px" /\
  parent_in 3 s' = Some 6 /\
  option_map classList (attrs_at 6 s') = Some ["input-animated-wrapper"] /\
  option_map styleWidth (attrs_at 6 s') = Some "".
Proof. vm_compute. repeat split. Qed.

(* ================================================================== *)
(** * Excluded elements *)

(** C2, as the code has it.  An element that carries a class the pass
    excludes ([search-input] for the inputs of the first variant; [nav-btn],
    [tab-btn], [card-btn] for its buttons; [nav-btn], [tab-btn] for the
    buttons of the second variant, whose input pass excludes nothing) gets no
    wrapper from that pass: its parent after the pass is the parent it had.
    It can still be below a wrapper, see [excluded_below_a_wrapper]. *)
Theorem excluded_element_keeps_parent (cw : tree -> node_id -> string) (p : pass)
    (s s' : dom) (x : node_id) (a : attrs) (cl : string) :
  well_formed s = true ->
  run_pass cw p s = (Ok tt, s') ->
  In x (document_order s) ->
  attrs_at x s = Some a ->
  In cl (cfg_excluded (config_of cw p)) ->
  has_class cl a = true ->
  parent_in x s' = parent_in x s.
Proof.
  intros Hwf Hrun Hx Ha Hcl Hc. rewrite run_pass_eq in Hrun.
  destruct (decorate_effect _ s s' Hwf Hrun) as (_ & _ & H).
  destruct (H x Hx) as (_ & _ & [Hp | (w & _ & _ & _ & _ & He)]); [assumption|].
  rewrite excluded_attrs, Ha in He.
  assert (Ht : existsb (fun cl => has_class cl a) (cfg_excluded (config_of cw p)) = true).
  { apply existsb_exists. now exists cl. }
  congruence.
Qed.

Lemma excluded_element_keeps_parent_witness :
  parent_in 4 (snd (run_pass no_layout V1_buttons sample_form)) = parent_in 4 sample_form.
Proof.
  apply (excluded_element_keeps_parent no_layout V1_buttons sample_form _ 4
           (element "button" (Some "submit") ["btn"; "card-btn"] "") "card-btn").
  - vm_compute. reflexivity.
  - vm_compute. reflexivity.
  - vm_compute. tauto.
  - vm_compute. reflexivity.
  - vm_compute. tauto.
  - vm_compute. reflexivity.
Defined.

(** Two excluded elements that end below a wrapper.  In the first variant, a
    [<button type="submit" class="nav-btn">] (4) inside a
    [<div class="btn-primary">] (3): the pass wraps the [div], and the button
    is below that wrapper (5).  In the second variant, [card-btn] is not
    among the excluded classes: a [<button class="btn card-btn">] (4) gets a
    wrapper (6) of its own. *)
Lemma excluded_below_a_wrapper :
  (let s' := snd (V1.button_pass sample_nav_in_primary) in
   fst (V1.button_pass sample_nav_in_primary) = Ok tt /\
   option_map classList (attrs_at 4 sample_nav_in_primary) = Some ["nav-btn"] /\
   below_class "btn-animated-wrapper" 4 sample_nav_in_primary = false /\
   below_class "btn-animated-wrapper" 4 s' = true /\
   option_map (map fst) (ancestors_at 4 s') = Some [4; 3; 5; 2; 1; 0]) /\
  (let s' := snd (V2.button_pass sample_form) in
   fst (V2.button_pass sample_form) = Ok tt /\
   option_map classList (attrs_at 4 sample_form) = Some ["btn"; "card-btn"] /\
   parent_in 4 s' = Some 6 /\
   option_map classList (attrs_at 6 s') = Some ["btn-animated-wrapper"]).
Proof. vm_compute. repeat split. Qed.

(* ================================================================== *)
(** * A wrap is a substitution in place *)

(** C9. When a step that the guard does not skip returns, the document has
    changed in one place: in the list of children of the parent of the
    element, the wrapper stands where the element stood, and the children
    before and after it are the same trees.  The wrapper holds the layers and
    then the element, which is the same tree as before: same identity, same
    attributes, same descendants.  Nothing else in the document changes, and
    no node is left detached. *)
Theorem wrap_is_in_place (cw : tree -> node_id -> string) (p : pass)
    (el : node_id) (a : attrs) (s s' : dom) :
  well_formed s = true ->
  In (el, a) (descendants (document s)) ->
  is_element a = true ->
  skipped (config_of cw p) el s = false ->
  run_step cw p el s = (Ok tt, s') ->
  exists cx parent pa before_el after_el target,
    root_id target = el /\ root_attrs target = a /\
    parent_in el s = Some parent /\
    document s = plug cx (Node parent pa (before_el ++ target :: after_el)) /\
    document s' =
      plug cx (Node parent pa
                 (before_el
                  ++ Node (next_id s) (wrapper_attrs (config_of cw p) el s)
                          (layer_nodes (quirks_mode s) (S (next_id s))
                             (cfg_layers (config_of cw p))
                           ++ [target])
                  :: after_el)) /\
    detached s' = detached s.
Proof.
  intros Hwf Ha He Hs Hrun. rewrite run_step_eq in Hrun.
  destruct (decorate_one_cases (config_of cw p) el a s Hwf Ha He)
    as [[Hs' _] | [(_ & s1 & E & Hws) | (_ & e & s1 & E & _)]]; [congruence| |congruence].
  assert (Es : s1 = s') by congruence. subst s1.
  destruct Hws as (cx & q & pa & l & r & K & Ed & HK & Ed' & HD & _).
  exists cx, q, pa, l, r, K. repeat split; try assumption.
  - pose proof Hwf as Hwf0.
    apply well_formed_facts in Hwf as (Hnd & _). apply NoDup_app_remove_r in Hnd.
    destruct (descendant_facts _ el a Hnd Ha) as (_ & _ & Hn).
    symmetry. eapply pairs_functional; [exact Hnd | exact Hn |].
    rewrite Ed, nodes_plug. apply in_or_app. right. apply in_or_app. left.
    cbn [nodes]. right. rewrite flat_map_app. apply in_or_app. right.
    cbn [flat_map]. apply in_or_app. left. rewrite nodes_descendants, HK. now left.
  - apply well_formed_facts in Hwf as (Hnd & _). apply NoDup_app_remove_r in Hnd.
    destruct s as [d D n]. cbn [document] in *. subst d. now apply parent_in_plug.
Qed.

Lemma wrap_is_in_place_witness :
  exists cx parent pa before_el after_el target,
    root_id target = 3 /\ root_attrs target = element "input" (Some "text") [] "200px" /\
    parent_in 3 sample_form = Some parent /\
    document sample_form = plug cx (Node parent pa (before_el ++ target :: after_el)) /\
    document (snd (run_step no_layout V2_inputs 3 sample_form)) =
      plug cx (Node parent pa
                 (before_el
                  ++ Node (next_id sample_form)
                          (wrapper_attrs (config_of no_layout V2_inputs) 3 sample_form)
                          (layer_nodes (quirks_mode sample_form) (S (next_id sample_form))
                             (cfg_layers (config_of no_layout V2_inputs))
                           ++ [target])
                  :: after_el)) /\
    detached (snd (run_step no_layout V2_inputs 3 sample_form)) = detached sample_form.
Proof.
  apply (wrap_is_in_place no_layout V2_inputs 3 _ sample_form).
  - vm_compute. reflexivity.
  - vm_compute. tauto.
  - vm_compute. reflexivity.
  - vm_compute. reflexivity.
  - vm_compute. reflexivity.
Defined.

(* ================================================================== *)
(** * Tree order *)

Section Order.
Variable s0 : dom.

Lemma ordered_step c el st st' :
  well_formed st = true -> wrapped_store c el st st' -> keeps_order s0 st -> keeps_order s0 st'.
Proof.
  intros Hwf Hws (Hn & Hin & Hord & Hwr).
  pose proof (wrapped_pos c el st st' Hwf Hws) as Hpos.
  pose proof (wrapped_pos_wrapper c el st st' Hwf Hws) as Hposw.
  pose proof (wrapped_target_in c el st st' Hws) as Helin.
  assert (Hin' : forall x, In x (document_order st) -> In x (document_order st')).
  { intros x Hx. apply (wrapped_in_order c el st st' Hws). now left. }
  unfold keeps_order. split; [|split; [|split]].
  - rewrite (wrapped_next c el st st' Hws). lia.
  - auto.
  - intros x y Hx Hy Hlt. specialize (Hord x y Hx Hy Hlt).
    rewrite (Hpos x (Hin x Hx)), (Hpos y (Hin y Hy)). split_ltb; lia.
  - intros x wx Hx Hp Hwx. destruct (Nat.eq_dec x el) as [->|Nx].
    + destruct (wrapped_parent_target c el st st' Hwf Hws) as (q & _ & Hpe & _).
      rewrite Hpe in Hp. injection Hp as <-.
      split; [apply (wrapped_in_order c el st st' Hws); auto|].
      rewrite Hposw, (Hpos el Helin). split; [split_ltb; lia|].
      intros y Hy. rewrite (Hpos y (Hin y Hy)). split_ltb; lia.
    + rewrite (wrapped_parent c el st st' Hwf Hws x (Hin x Hx) Nx) in Hp.
      destruct (Hwr x wx Hx Hp Hwx) as (Hwin & Hlt & Hbefore).
      split; [auto|]. rewrite (Hpos wx Hwin), (Hpos x (Hin x Hx)).
      split; [split_ltb; lia|].
      intros y Hy. specialize (Hbefore y Hy). rewrite (Hpos y (Hin y Hy)).
      split_ltb; lia.
Qed.

Lemma ordered_start : well_formed s0 = true -> keeps_order s0 s0.
Proof.
  intros Hwf. unfold keeps_order. split; [lia|]. split; [auto|]. split; [auto|].
  intros x wx Hx Hp Hw.
  pose proof (old_lt s0 wx Hwf (parent_in_order s0 x wx Hwf Hx Hp)). lia.
Qed.

Lemma ordered_pass c st st' :
  well_formed st = true -> keeps_order s0 st -> decorate c st = (Ok tt, st') -> keeps_order s0 st'.
Proof.
  intros Hwf Ho. intros H. apply decorate_ok in H as [_ H].
  destruct (forEach_decorate_ind c (fun _ st => keeps_order s0 st))
    with (l := targets c st) (s := st) (s' := st') as [HP _]; try assumption.
  - trivial.
  - intros el rest s1 s2 Hwf1 _ HP1 _ Hws. now apply (ordered_step c el s1 s2).
  - intros el. apply targets_are_nodes.
Qed.

Lemma ordered_wrappers st A B wA wB :
  keeps_order s0 st -> precedes A B (document_order s0) ->
  parent_in A st = Some wA -> next_id s0 <= wA ->
  parent_in B st = Some wB -> next_id s0 <= wB ->
  precedes wA wB (document_order st).
Proof.
  intros (_ & Hin & Hord & Hwr) (HA & HB & Hlt) HpA HwA HpB HwB.
  destruct (Hwr A wA HA HpA HwA) as (HwAin & HltA & _).
  destruct (Hwr B wB HB HpB HwB) as (HwBin & _ & HbB).
  split; [assumption|]. split; [assumption|].
  specialize (Hord A B HA HB Hlt). specialize (HbB A HA Hord).
  unfold pos in *. lia.
Qed.
End Order.

(** Two elements that the listener has put into wrappers: the wrappers are
    in the order of the elements, whichever of the two passes made them. *)
Lemma listener_keeps_wrapper_order cw v s s' A B wA wB :
  well_formed s = true ->
  run_listener cw v s = (Ok tt, s') ->
  precedes A B (document_order s) ->
  parent_in A s' = Some wA -> next_id s <= wA ->
  parent_in B s' = Some wB -> next_id s <= wB ->
  precedes wA wB (document_order s').
Proof.
  intros Hwf Hrun Hpre HA HwA HB HwB.
  apply run_listener_ok in Hrun as (s1 & H1 & H2). rewrite run_pass_eq in H1, H2.
  apply (ordered_wrappers s s' A B wA wB); try assumption.
  apply (ordered_pass s (config_of cw (button_pass_of v)) s1 s'
           (decorate_well_formed _ _ _ Hwf H1)); [|assumption].
  apply (ordered_pass s (config_of cw (input_pass_of v)) s s1 Hwf); [|assumption].
  now apply ordered_start.
Qed.

(* ================================================================== *)
(** * Which elements a pass decorates, and what it builds *)

(** The guard of a step reads the inclusive ancestors of the element, with
    their attributes, and nothing else. *)
Lemma skipped_by_ancestors c x s1 s2 :
  In x (document_order s1) -> In x (document_order s2) ->
  ancestors_at x s1 = ancestors_at x s2 -> skipped c x s1 = skipped c x s2.
Proof.
  intros H1 H2 E. unfold skipped, below_class. rewrite E. f_equal.
  rewrite !excluded_attrs. unfold document_order in *.
  destruct (anc_in _ _ H2) as [lx E2]. rewrite <- ancestors_at_doc in E2 by assumption.
  destruct (ancestors_at_head x s2 lx H2 E2) as (a & rest & -> & ->).
  rewrite <- E in E2.
  now destruct (ancestors_at_head x s1 _ H1 E2) as (a' & rest' & [= <- <-] & ->).
Qed.

Section Decorated.
Variables (c : config) (s : dom) (el0 : node_id) (anc : list (node_id * attrs)).
Hypothesis Hwf : well_formed s = true.
Hypothesis Hel0 : In el0 (targets c s).
Hypothesis Hanc : ancestors_at el0 s = Some anc.
Hypothesis Hfree : skipped c el0 s = false.
Hypothesis Hup : forall y, In y (map fst (tl anc)) -> In y (targets c s) ->
                           excluded c y s = true.

Lemma decorated_skip el rest st :
  well_formed st = true -> decorated_inv c s el0 anc (el :: rest) st -> skipped c el st = true ->
  decorated_inv c s el0 anc rest st.
Proof.
  intros Hwf1 (Hr & Hn & Hold & Hcase) Hs.
  split; [intros x Hx; apply Hr; now right|]. split; [assumption|]. split; [assumption|].
  destruct Hcase as [[Hin Ha] | Hw]; [|now right]. left. split; [|assumption].
  destruct Hin as [->|Hin]; [|assumption].
  pose proof (targets_in_order c s el0 Hel0) as Ho.
  rewrite (skipped_by_ancestors c el0 st s) in Hs; try congruence.
  now apply Hold.
Qed.

Lemma decorated_wrap el rest st st' :
  well_formed st = true -> decorated_inv c s el0 anc (el :: rest) st -> skipped c el st = false ->
  wrapped_store c el st st' -> decorated_inv c s el0 anc rest st'.
Proof.
  intros Hwf1 (Hr & Hn & Hold & Hcase) Hs Hws.
  assert (Helt : In el (targets c s)) by (apply Hr; now left).
  assert (Hel : In el (document_order s)) by (now apply targets_in_order in Helt).
  pose proof (old_lt s el Hwf Hel) as Hlt.
  pose proof (targets_in_order c s el0 Hel0) as Ho.
  split; [intros x Hx; apply Hr; now right|].
  split; [rewrite (wrapped_next c el st st' Hws); lia|].
  split.
  { intros x Hx. destruct (Hold x Hx) as [Hxo Hxa]. split.
    - apply (wrapped_in_order c el st st' Hws). now left.
    - now rewrite (wrapped_attrs c el st st' Hwf1 Hws x Hxo). }
  destruct Hcase as [[Hin Ha] | (w & Hw & Hwo)].
  - destruct (Nat.eq_dec el el0) as [->|Ne].
    + right. exists (next_id st). split; [assumption|]. now apply wrapper_of_new.
    + left. split; [destruct Hin; [contradiction | assumption]|].
      destruct (Hold el0 Ho) as [Ho1 _].
      destruct (wrapped_ancestors c el st st' Hwf1 Hws el0 anc Ho1 Ha)
        as [E | (l1 & a & tl0 & E & _)]; [assumption|].
      exfalso.
      assert (Hex : excluded c el s = true).
      { apply Hup; [|assumption].
        destruct (ancestors_at_head el0 s anc Ho Hanc) as (a0 & rest0 & -> & _).
        destruct l1 as [|[y b] l1]; cbn [app] in E; injection E as E1 E2 E3.
        - congruence.
        - subst rest0. cbn [tl]. rewrite map_app. apply in_or_app. right. now left. }
      apply skipped_excluded in Hs. rewrite excluded_attrs in Hs, Hex.
      destruct (Hold el Hel) as [_ Hea]. rewrite Hea in Hs. congruence.
  - right. exists w. split; [assumption|].
    destruct (Hold el0 Ho) as [Ho1 _].
    apply (wrapper_of_stable c c el st st' Hwf1 el0 w Hws Ho1); try assumption; [|lia].
    intros ->. rewrite (wrapper_of_skipped c el0 w st Hwf1 Ho1 Hwo) in Hs. discriminate.
Qed.

Lemma decorated_pass s' :
  decorate c s = (Ok tt, s') ->
  exists w, next_id s <= w /\ wrapper_of c el0 w s'.
Proof.
  intros H. apply decorate_ok in H as [_ H].
  destruct (forEach_decorate_ind c (decorated_inv c s el0 anc)) with (l := targets c s) (s := s) (s' := s')
    as [(_ & _ & _ & Hcase) _]; try assumption.
  - intros el rest st Hwf1 _ HP Hs. now apply (decorated_skip el rest st).
  - intros el rest st st' Hwf1 _ HP Hs Hws. now apply (decorated_wrap el rest st st').
  - intros el. apply targets_are_nodes.
  - split; [trivial|]. split; [lia|]. split; [now split|]. left. now split.
  - destruct Hcase as [[[] _] | Hw]. exact Hw.
Qed.
End Decorated.

(** C3, as the code has it.  Take an element that is eligible for a pass and
    not excluded, that is below no element carrying the wrapper class (it does
    not carry it either; the class is what the selector of the guard sees, in
    a document in quirks mode without regard to ASCII case), and that is below
    no element that is eligible and not excluded.  After the pass its parent is a node the pass created, with
    the wrapper class as its class; the children of that node are one element
    for each layer class of the pass, in the order of the script, with that
    class and no child, and then the element itself.  An eligible element
    below another one gets no wrapper, see [nested_input_is_not_wrapped]. *)
Theorem decorated_element_structure (cw : tree -> node_id -> string) (p : pass)
    (s s' : dom) (el : node_id) (anc : list (node_id * attrs)) :
  well_formed s = true ->
  run_pass cw p s = (Ok tt, s') ->
  In el (targets (config_of cw p) s) ->
  excluded (config_of cw p) el s = false ->
  below_class (cfg_wrapper (config_of cw p)) el s = false ->
  ancestors_at el s = Some anc ->
  (forall y, In y (map fst (tl anc)) -> In y (targets (config_of cw p) s) ->
             excluded (config_of cw p) y s = true) ->
  exists w wa,
    next_id s <= w /\
    parent_in el s' = Some w /\
    attrs_at w s' = Some wa /\
    classList wa = [cfg_wrapper (config_of cw p)] /\
    child_ids w s' =
      Some (seq (S w) (List.length (cfg_layers (config_of cw p))) ++ [el]) /\
    forall i cl, nth_error (cfg_layers (config_of cw p)) i = Some cl ->
      attrs_at (S w + i) s' = Some (layer_attrs (quirks_mode s) cl) /\
      child_ids (S w + i) s' = Some [].
Proof.
  intros Hwf Hrun Hel Hex Hbc Hanc Hup. rewrite run_pass_eq in Hrun.
  rewrite <- (proj2 (decorate_frame _ s s' Hwf Hrun)).
  assert (Hs : skipped (config_of cw p) el s = false).
  { unfold skipped. now rewrite Hbc, Hex. }
  destruct (decorated_pass _ s el anc Hwf Hel Hanc Hs Hup s' Hrun)
    as (w & Hw & Hp & _ & (sj & Hsh & _) & Hl).
  exists w, (wrapper_attrs (config_of cw p) el sj).
  rewrite attrs_at_shape, child_ids_shape, Hsh. cbn [option_map fst snd].
  repeat split; auto; try apply classList_wrapper.
  - rewrite attrs_at_shape. destruct (Hl i cl H) as [_ ->]. reflexivity.
  - rewrite child_ids_shape. destruct (Hl i cl H) as [_ ->]. reflexivity.
Qed.

Lemma decorated_element_structure_witness :
  exists w wa,
    next_id sample_form <= w /\
    parent_in 3 (snd (run_pass no_layout V2_inputs sample_form)) = Some w /\
    attrs_at w (snd (run_pass no_layout V2_inputs sample_form)) = Some wa /\
    classList wa = [cfg_wrapper (config_of no_layout V2_inputs)] /\
    child_ids w (snd (run_pass no_layout V2_inputs sample_form)) =
      Some (seq (S w) (List.length (cfg_layers (config_of no_layout V2_inputs))) ++ [3]) /\
    forall i cl, nth_error (cfg_layers (config_of no_layout V2_inputs)) i = Some cl ->
      attrs_at (S w + i) (snd (run_pass no_layout V2_inputs sample_form)) =
        Some (layer_attrs (quirks_mode sample_form) cl) /\
      child_ids (S w + i) (snd (run_pass no_layout V2_inputs sample_form)) = Some [].
Proof.
  apply (decorated_element_structure no_layout V2_inputs sample_form _ 3
           [(3, element "input" (Some "text") [] "200px");
            (2, element "body" None [] ""); (1, element "html" None [] "");
            (0, document_attrs)]).
  - vm_compute. reflexivity.
  - vm_compute. reflexivity.
  - vm_compute. tauto.
  - vm_compute. reflexivity.
  - vm_compute. reflexivity.
  - vm_compute. reflexivity.
  - vm_compute. intros y [<-|[<-|[<-|[]]]] H; decompose [or] H; try discriminate; contradiction.
Defined.

(** In the second variant, the [<input type="text">] (4) inside a
    [<div class="search-input">] (3) is eligible and not excluded.  The pass
    wraps the [div] first and then skips the input, which is below the wrapper
    by then: the parent of the input is still the [div], which does not carry
    the wrapper class. *)
Lemma nested_input_is_not_wrapped :
  let s' := snd (V2.input_pass sample_search_box) in
  fst (V2.input_pass sample_search_box) = Ok tt /\
  In 4 (targets v2_inputs sample_search_box) /\
  excluded v2_inputs 4 sample_search_box = false /\
  parent_in 4 s' = Some 3 /\
  option_map classList (attrs_at 3 s') = Some ["search-input"].
Proof. vm_compute. repeat split. tauto. Qed.

(* ================================================================== *)
(** * The order of the wrappers *)

(** C4, as the code has it.  Take two children [A] and [B] of one parent,
    [A] before [B] in tree order, both eligible for a pass and not excluded,
    below no element carrying the wrapper class and below no element that is
    eligible and not excluded.  After a pass that returns, each of them is
    directly inside a wrapper that the pass created, both wrappers are
    children of the former parent, and the wrapper of [A] is before the
    wrapper of [B] in the tree order of the document.  An eligible element
    need not get a wrapper, see [sibling_without_wrapper]. *)
Theorem wrappers_keep_order (cw : tree -> node_id -> string) (p : pass)
    (s s' : dom) (A B parent : node_id) (ancA ancB : list (node_id * attrs)) :
  well_formed s = true ->
  run_pass cw p s = (Ok tt, s') ->
  parent_in A s = Some parent -> parent_in B s = Some parent ->
  precedes A B (document_order s) ->
  In A (targets (config_of cw p) s) -> In B (targets (config_of cw p) s) ->
  excluded (config_of cw p) A s = false -> excluded (config_of cw p) B s = false ->
  below_class (cfg_wrapper (config_of cw p)) A s = false ->
  below_class (cfg_wrapper (config_of cw p)) B s = false ->
  ancestors_at A s = Some ancA -> ancestors_at B s = Some ancB ->
  (forall y, In y (map fst (tl ancA)) -> In y (targets (config_of cw p) s) ->
             excluded (config_of cw p) y s = true) ->
  (forall y, In y (map fst (tl ancB)) -> In y (targets (config_of cw p) s) ->
             excluded (config_of cw p) y s = true) ->
  exists wA wB,
    next_id s <= wA /\ next_id s <= wB /\
    parent_in A s' = Some wA /\ parent_in B s' = Some wB /\
    parent_in wA s' = Some parent /\ parent_in wB s' = Some parent /\
    option_map classList (attrs_at wA s') = Some [cfg_wrapper (config_of cw p)] /\
    option_map classList (attrs_at wB s') = Some [cfg_wrapper (config_of cw p)] /\
    precedes wA wB (document_order s').
Proof.
  intros Hwf Hrun HpA HpB Hpre HA HB HeA HeB HbA HbB HaA HaB HupA HupB.
  rewrite run_pass_eq in Hrun.
  assert (Hwrap : forall x anc, In x (targets (config_of cw p) s) ->
            excluded (config_of cw p) x s = false ->
            below_class (cfg_wrapper (config_of cw p)) x s = false ->
            ancestors_at x s = Some anc ->
            (forall y, In y (map fst (tl anc)) -> In y (targets (config_of cw p) s) ->
                       excluded (config_of cw p) y s = true) ->
            exists w, next_id s <= w /\ parent_in x s' = Some w /\
                      parent_in w s' = parent_in x s /\
                      option_map classList (attrs_at w s') =
                        Some [cfg_wrapper (config_of cw p)]).
  { intros x anc Hx Hex Hbc Hanc Hup.
    assert (Hs : skipped (config_of cw p) x s = false).
    { unfold skipped. now rewrite Hbc, Hex. }
    destruct (decorated_pass _ s x anc Hwf Hx Hanc Hs Hup s' Hrun) as (w & Hw & Hwo).
    pose proof Hwo as (Hp & _).
    destruct (pass_wraps_once _ s s' x Hwf Hrun (targets_in_order _ s x Hx))
      as [E | (w' & _ & _ & Hp' & Hpw & Hc & _)].
    - exfalso. rewrite Hp in E. symmetry in E.
      pose proof (old_lt s w Hwf
                    (parent_in_order s x w Hwf (targets_in_order _ s x Hx) E)). lia.
    - assert (Ew : w' = w) by congruence. subst w'. now exists w. }
  destruct (Hwrap A ancA HA HeA HbA HaA HupA) as (wA & HwA & PA & PwA & CA).
  destruct (Hwrap B ancB HB HeB HbB HaB HupB) as (wB & HwB & PB & PwB & CB).
  exists wA, wB. repeat split; try assumption; try congruence.
  - apply (ordered_wrappers s s' A B wA wB); try assumption.
    apply (ordered_pass s (config_of cw p) s s' Hwf); [|assumption].
    now apply ordered_start.
  - apply (ordered_wrappers s s' A B wA wB); try assumption.
    apply (ordered_pass s (config_of cw p) s s' Hwf); [|assumption].
    now apply ordered_start.
  - apply (ordered_wrappers s s' A B wA wB); try assumption.
    apply (ordered_pass s (config_of cw p) s s' Hwf); [|assumption].
    now apply ordered_start.
Qed.

Lemma wrappers_keep_order_witness :
  exists wA wB,
    next_id sample_form <= wA /\ next_id sample_form <= wB /\
    parent_in 3 (snd (run_pass no_layout V1_inputs sample_form)) = Some wA /\
    parent_in 5 (snd (run_pass no_layout V1_inputs sample_form)) = Some wB /\
    parent_in wA (snd (run_pass no_layout V1_inputs sample_form)) = Some 2 /\
    parent_in wB (snd (run_pass no_layout V1_inputs sample_form)) = Some 2 /\
    option_map classList (attrs_at wA (snd (run_pass no_layout V1_inputs sample_form))) =
      Some [cfg_wrapper (config_of no_layout V1_inputs)] /\
    option_map classList (attrs_at wB (snd (run_pass no_layout V1_inputs sample_form))) =
      Some [cfg_wrapper (config_of no_layout V1_inputs)] /\
    precedes wA wB (document_order (snd (run_pass no_layout V1_inputs sample_form))).
Proof.
  apply (wrappers_keep_order no_layout V1_inputs sample_form _ 3 5 2
           [(3, element "input" (Some "text") [] "200px");
            (2, element "body" None [] ""); (1, element "html" None [] "");
            (0, document_attrs)]
           [(5, element "textarea" None ["submit-btn"] "");
            (2, element "body" None [] ""); (1, element "html" None [] "");
            (0, document_attrs)]).
  - vm_compute. reflexivity.
  - vm_compute. reflexivity.
  - vm_compute. reflexivity.
  - vm_compute. reflexivity.
  - vm_compute. repeat split; try tauto. lia.
  - vm_compute. tauto.
  - vm_compute. tauto.
  - vm_compute. reflexivity.
  - vm_compute. reflexivity.
  - vm_compute. reflexivity.
  - vm_compute. reflexivity.
  - vm_compute. reflexivity.
  - vm_compute. reflexivity.
  - vm_compute. intros y [<-|[<-|[<-|[]]]] H; decompose [or] H; try discriminate; contradiction.
  - vm_compute. intros y [<-|[<-|[<-|[]]]] H; decompose [or] H; try discriminate; contradiction.
Defined.

(** Two pairs of eligible siblings without a wrapper for each.  In the first
    variant, the [<button type="submit" class="btn card-btn">] (4) and the
    [<textarea class="submit-btn">] (5) are children of the body and both
    match the button selector; the button pass wraps the textarea (in 6) and
    leaves the button, which carries an excluded class, where it was, below
    no wrapper at all.  In the second variant, the two inputs (4, 5) inside a
    [<div class="search-input">] (3) both match the input selector and carry
    no excluded class; the input pass wraps the [div] (in 6) and leaves both
    inputs in the [div]: the only wrapper above them is the one of the
    [div]. *)
Lemma sibling_without_wrapper :
  (let s' := snd (V1.button_pass sample_form) in
   fst (V1.button_pass sample_form) = Ok tt /\
   In 4 (targets v1_buttons sample_form) /\ In 5 (targets v1_buttons sample_form) /\
   parent_in 4 sample_form = Some 2 /\ parent_in 5 sample_form = Some 2 /\
   index_of 4 (document_order sample_form) < index_of 5 (document_order sample_form) /\
   parent_in 5 s' = Some 6 /\
   parent_in 4 s' = Some 2 /\
   below_class "btn-animated-wrapper" 4 s' = false) /\
  (let s' := snd (V2.input_pass sample_search_pair) in
   fst (V2.input_pass sample_search_pair) = Ok tt /\
   In 4 (targets v2_inputs sample_search_pair) /\
   In 5 (targets v2_inputs sample_search_pair) /\
   excluded v2_inputs 4 sample_search_pair = false /\
   excluded v2_inputs 5 sample_search_pair = false /\
   parent_in 4 sample_search_pair = Some 3 /\ parent_in 5 sample_search_pair = Some 3 /\
   option_map (map fst) (ancestors_at 4 s') = Some [4; 3; 6; 2; 1; 0] /\
   option_map (map fst) (ancestors_at 5 s') = Some [5; 3; 6; 2; 1; 0] /\
   option_map classList (attrs_at 3 s') = Some ["search-input"]).
Proof. vm_compute. repeat split; try tauto; lia. Qed.
(* ================================================================== *)
(** * Ancestors and tree order *)

(** The ancestors of a node that is in the child [t] of a node. *)
Lemma anc_in_child x i a k1 t k2 lt :
  NoDup (ids (Node i a (k1 ++ t :: k2))) ->
  inclusive_ancestors x t = Some lt ->
  inclusive_ancestors x (Node i a (k1 ++ t :: k2)) = Some (lt ++ [(i, a)]).
Proof.
  intros Hnd Ht. pose proof (anc_some_in _ _ _ Ht) as Hx.
  destruct (nodup_children _ _ _ _ _ Hnd) as [_ Hch].
  destruct (Hch x Hx) as (Nix & Hl & _).
  cbn [inclusive_ancestors]. destruct (Nat.eqb_spec i x); [contradiction|].
  rewrite first_some_app, first_some_none.
  - cbn [first_some]. now rewrite Ht.
  - intros k Hk. apply anc_notin. exact (notin_flat_ids _ _ _ Hl Hk).
Qed.

Lemma index_in_child x i a k1 t k2 :
  NoDup (ids (Node i a (k1 ++ t :: k2))) -> In x (ids t) ->
  index_of x (ids (Node i a (k1 ++ t :: k2))) =
  S (List.length (flat_map ids k1) + index_of x (ids t)).
Proof.
  intros Hnd Hx. destruct (nodup_children _ _ _ _ _ Hnd) as [_ Hch].
  destruct (Hch x Hx) as (Nix & Hl & _).
  rewrite ids_Node, flat_ids_app. cbn [flat_map index_of].
  destruct (Nat.eqb_spec i x); [contradiction|].
  now rewrite index_of_app_notin, index_of_app_in.
Qed.

Lemma nodup_child i a k1 t k2 :
  NoDup (ids (Node i a (k1 ++ t :: k2))) -> NoDup (ids t).
Proof.
  rewrite ids_Node, flat_ids_app. cbn [flat_map]. intros H.
  apply NoDup_cons_iff in H as [_ H].
  apply NoDup_app_remove_l in H. now apply NoDup_app_remove_r in H.
Qed.

(** In the list of the inclusive ancestors of [x], what follows an ancestor
    [y] is the list of the ancestors of [y]; and a proper ancestor comes
    before [x] in tree order. *)
Lemma anc_split t : NoDup (ids t) ->
  forall x l1 y ay l2,
    inclusive_ancestors x t = Some (l1 ++ (y, ay) :: l2) ->
    inclusive_ancestors y t = Some ((y, ay) :: l2) /\
    (l1 <> [] -> index_of y (ids t) < index_of x (ids t)).
Proof.
  pattern t. apply tree_induction. clear t.
  intros i a ks IH Hnd x l1 y ay l2. cbn [inclusive_ancestors].
  destruct (Nat.eqb_spec i x) as [->|Nix].
  - intros [= E]. destruct l1 as [|? [|? ?]]; try discriminate.
    injection E as <- <- <-. rewrite Nat.eqb_refl. split; [reflexivity | congruence].
  - destruct (first_some (inclusive_ancestors x) ks) as [lt|] eqn:Ex; [|discriminate].
    intros [= E].
    apply first_some_In in Ex as (t & Ht & Ext).
    apply in_split in Ht as (k1 & k2 & ->).
    rewrite Forall_forall in IH.
    specialize (IH t (in_elt t k1 k2) (nodup_child _ _ _ _ _ Hnd)).
    pose proof (anc_some_in _ _ _ Ext) as Hx.
    destruct (exists_last (l := (y, ay) :: l2) ltac:(discriminate)) as (m & last & Em).
    rewrite Em, app_assoc in E. apply app_inj_tail in E as [E <-].
    destruct m as [|ya m]; cbn [app] in Em.
    + injection Em as E1 E2 E3. subst y ay l2. rewrite Nat.eqb_refl.
      split; [reflexivity|].
      intros _. rewrite (index_in_child x i a k1 t k2 Hnd Hx).
      rewrite ids_Node. cbn [index_of]. rewrite Nat.eqb_refl. lia.
    + injection Em as E1 E2. subst ya l2 lt.
      destruct (IH x l1 y ay m Ext) as [Ey Hlt].
      pose proof (anc_some_in _ _ _ Ey) as Hy.
      rewrite <- Nat.eqb_neq in Nix.
      pose proof (anc_in_child y i a k1 t k2 _ Hnd Ey) as Ey'.
      cbn [inclusive_ancestors] in Ey'. split.
      * rewrite Ey'. now rewrite <- app_comm_cons.
      * intros Hl. rewrite !(index_in_child _ i a k1 t k2 Hnd) by assumption.
        specialize (Hlt Hl). lia.
Qed.

Lemma ancestors_of_ancestor s x l1 y ay l2 :
  well_formed s = true -> In x (document_order s) ->
  ancestors_at x s = Some (l1 ++ (y, ay) :: l2) ->
  In y (document_order s) /\
  ancestors_at y s = Some ((y, ay) :: l2) /\
  (l1 <> [] -> pos y s < pos x s).
Proof.
  intros Hwf Hx Hanc.
  pose proof Hwf as Hnd. apply well_formed_facts in Hnd as (Hnd & _).
  apply NoDup_app_remove_r in Hnd.
  unfold document_order, pos in *. rewrite ancestors_at_doc in Hanc by assumption.
  destruct (anc_split _ Hnd x l1 y ay l2 Hanc) as [Ey Hlt].
  pose proof (anc_some_in _ _ _ Ey) as Hy.
  rewrite ancestors_at_doc by assumption. auto.
Qed.

(** ** The elements of a pass are in tree order *)

Lemma StronglySorted_in {A} (R R' : A -> A -> Prop) (l : list A) :
  (forall a b, In a l -> In b l -> R a b -> R' a b) ->
  StronglySorted R l -> StronglySorted R' l.
Proof.
  intros H HS. induction HS as [|a l HS IH Hall]; constructor.
  - apply IH. intros x y Hx Hy. apply H; now right.
  - rewrite Forall_forall in *. intros b Hb. apply H; [now left | now right | auto].
Qed.

Lemma selected_in_order keep (D : list (node_id * attrs)) : forall L0,
  NoDup (L0 ++ map fst D) ->
  StronglySorted (fun a b => index_of a (L0 ++ map fst D) < index_of b (L0 ++ map fst D))
                 (map fst (filter keep D)).
Proof.
  induction D as [|[x a] r IH]; intros L0 Hnd; cbn [filter map fst]; [constructor|].
  assert (E : L0 ++ x :: map fst r = (L0 ++ [x]) ++ map fst r)
    by now rewrite <- app_assoc.
  cbn [map fst] in Hnd. specialize (IH (L0 ++ [x])). rewrite <- E in IH.
  specialize (IH Hnd).
  destruct (keep (x, a)); [|assumption]. cbn [map fst]. constructor; [assumption|].
  apply Forall_forall. intros b Hb.
  apply in_map_iff in Hb as ([b0 ab] & <- & Hb). apply filter_In in Hb as [Hb _].
  apply (in_map fst) in Hb. cbn [fst] in *.
  apply NoDup_remove in Hnd as [Hnd Hx].
  assert (HxL : ~ In x L0) by (intros H; apply Hx, in_or_app; now left).
  assert (Hxr : ~ In x (map fst r)) by (intros H; apply Hx, in_or_app; now right).
  assert (HbL : ~ In b0 L0).
  { intros H. apply NoDup_app_iff in Hnd as (_ & _ & Hd). now apply (Hd b0). }
  rewrite !index_of_app_notin by assumption. cbn [index_of].
  rewrite Nat.eqb_refl. destruct (Nat.eqb_spec x b0); [congruence | lia].
Qed.

Lemma targets_in_tree_order c s : well_formed s = true -> in_tree_order (targets c s) s.
Proof.
  intros Hwf. apply well_formed_facts in Hwf as (Hnd & _).
  apply NoDup_app_remove_r in Hnd.
  unfold in_tree_order, targets, pos, document_order, ids in *.
  rewrite nodes_descendants in *. cbn [map fst] in *.
  exact (selected_in_order _ (descendants (document s)) [root_id (document s)] Hnd).
Qed.

(* ================================================================== *)
(** * Created wrappers among the ancestors of a node *)

Lemma created_wrappers_app n0 cls l1 l2 :
  created_wrappers n0 cls (l1 ++ l2) = created_wrappers n0 cls l1 ++ created_wrappers n0 cls l2.
Proof. apply filter_app. Qed.

Lemma created_wrappers_none n0 cls l :
  (forall na, In na l -> n0 <= fst na -> matches [SelClass cls] (snd na) = false) ->
  created_wrappers n0 cls l = [].
Proof.
  induction l as [|na l IH]; intros H; cbn [created_wrappers filter]; [reflexivity|].
  destruct (Nat.leb_spec n0 (fst na)) as [Hle|Hlt]; cbn [andb].
  - rewrite (H na (or_introl eq_refl) Hle). apply IH. intros x Hx. apply H. now right.
  - apply IH. intros x Hx. apply H. now right.
Qed.

Lemma created_wrappers_cons_le n0 cls na l :
  List.length (created_wrappers n0 cls (na :: l)) <= S (List.length (created_wrappers n0 cls l)).
Proof.
  unfold created_wrappers. cbn [filter].
  match goal with |- context [if ?b then _ else _] => destruct b end;
    cbn [List.length]; lia.
Qed.

Lemma created_wrappers_tail_le n0 cls na l :
  List.length (created_wrappers n0 cls l) <= List.length (created_wrappers n0 cls (na :: l)).
Proof.
  unfold created_wrappers. cbn [filter].
  match goal with |- context [if ?b then _ else _] => destruct b end;
    cbn [List.length]; lia.
Qed.

Lemma created_wrappers_skip n0 cls i a l :
  matches [SelClass cls] a = false ->
  created_wrappers n0 cls ((i, a) :: l) = created_wrappers n0 cls l.
Proof.
  intros H. cbn [created_wrappers filter fst snd]. now rewrite H, andb_false_r.
Qed.

Lemma created_wrappers_tail n0 cls na l :
  created_wrappers n0 cls (na :: l) = [] -> created_wrappers n0 cls l = [].
Proof.
  unfold created_wrappers. cbn [filter].
  match goal with |- context [if ?b then _ else _] => destruct b end;
    [discriminate | trivial].
Qed.

(** An element that is not below the class has no ancestor with the class. *)
Lemma below_class_none cl x s anc n0 :
  below_class cl x s = false -> ancestors_at x s = Some anc ->
  created_wrappers n0 cl anc = [].
Proof.
  unfold below_class. intros H E. rewrite E in H. apply created_wrappers_none.
  intros na Hna _. destruct (matches [SelClass cl] (snd na)) eqn:Em; [|reflexivity].
  assert (existsb (fun na => matches [SelClass cl] (snd na)) anc = true); [|congruence].
  apply existsb_exists. now exists na.
Qed.

Lemma layers_free_layer cls d q cl :
  layers_free cls d = true -> In cl (cfg_layers d) ->
  matches [SelClass cls] (layer_attrs q cl) = false.
Proof.
  unfold layers_free. rewrite forallb_forall. intros H Hcl.
  assert (Hq : In q [false; true]) by (destruct q; cbn; auto).
  specialize (H q Hq). rewrite forallb_forall in H.
  now apply negb_true_iff, H.
Qed.

Lemma class_free_made_by cls d a :
  class_free cls d = true -> made_by d a -> matches [SelClass cls] a = false.
Proof.
  unfold class_free. rewrite andb_true_iff, forallb_forall.
  intros [Hw Hl] [(el & s & ->) | (q0 & cl & Hcl & ->)].
  - rewrite matches_wrapper_attrs. apply negb_true_iff, Hw.
    destruct (quirks_mode s); cbn; auto.
  - now apply (layers_free_layer cls d).
Qed.

(** Where a list of pairs is cut at a key that is not in the second part. *)
Lemma cut_before {B} (m1 X l1 l2 : list (node_id * B)) y b :
  m1 ++ X = l1 ++ (y, b) :: l2 -> ~ In y (map fst X) ->
  exists m', m1 = l1 ++ (y, b) :: m'.
Proof.
  revert l1. induction m1 as [|e m1 IH]; intros l1 E Hy; cbn [app] in E.
  - exfalso. apply Hy. rewrite E, map_app. apply in_or_app. right. now left.
  - destruct l1 as [|e1 l1]; cbn [app] in E; injection E as -> E.
    + now exists m1.
    + destruct (IH l1 E Hy) as [m' ->]. now exists m'.
Qed.

(** ** The ancestors of every node after a step that wrapped *)

Section WrappedChains.
Variables (c : config) (el : node_id) (s s' : dom).
Hypothesis Hwf : well_formed s = true.
Hypothesis Hws : wrapped_store c el s s'.

(** The chain of ancestors of a node of the new document is the chain it
    had, or that chain with the wrapper put in above the target, or the chain
    of a new node: the wrapper, or a layer and the wrapper, and then the
    proper ancestors of the target. *)
Lemma wrapped_chain x anc' :
  In x (document_order s') -> ancestors_at x s' = Some anc' ->
  exists a up,
    ancestors_at el s = Some ((el, a) :: up) /\
    ((In x (document_order s) /\ ancestors_at x s = Some anc') \/
     (In x (document_order s) /\
      exists l1, ancestors_at x s = Some (l1 ++ (el, a) :: up) /\
                 anc' = l1 ++ (el, a) :: (next_id s, wrapper_attrs c el s) :: up) \/
     (x = next_id s /\ anc' = (next_id s, wrapper_attrs c el s) :: up) \/
     (next_id s < x /\
      exists cl, In cl (cfg_layers c) /\
        anc' = (x, layer_attrs (quirks_mode s) cl)
               :: (next_id s, wrapper_attrs c el s) :: up)).
Proof.
  intros Hx Hanc.
  destruct (wrapped_ancestors_target c el s s' Hwf Hws) as (a & p & pa & tl & Eel & _ & Ew & Elay).
  exists a, ((p, pa) :: tl). split; [assumption|].
  apply (wrapped_in_order c el s s' Hws) in Hx as [Hx | [-> | Hx]].
  - unfold document_order in Hx. destruct (anc_in _ _ Hx) as [lx Elx].
    rewrite <- ancestors_at_doc in Elx by assumption.
    destruct (wrapped_ancestors c el s s' Hwf Hws x lx Hx Elx) as [E | (l1 & a' & up' & -> & E)].
    + left. split; [assumption|]. now rewrite Elx, <- E.
    + right; left. split; [assumption|].
      destruct (ancestors_of_ancestor s x l1 el a' up' Hwf Hx Elx) as (_ & E' & _).
      rewrite Eel in E'. injection E' as <- <-.
      exists l1. split; [assumption|].
      pose proof (eq_trans (eq_sym Hanc) E) as E0. now injection E0.
  - right; right; left. split; [reflexivity|].
    pose proof (eq_trans (eq_sym Hanc) Ew) as E0. now injection E0.
  - right; right; right.
    assert (Hi : x - S (next_id s) < List.length (cfg_layers c)) by lia.
    destruct (nth_error (cfg_layers c) (x - S (next_id s))) as [cl|] eqn:Ecl;
      [|apply nth_error_None in Ecl; lia].
    specialize (Elay _ _ Ecl).
    replace (S (next_id s) + (x - S (next_id s))) with x in Elay by lia.
    split; [lia|]. exists cl. split; [now apply nth_error_In in Ecl|].
    pose proof (eq_trans (eq_sym Hanc) Elay) as E0. now injection E0.
Qed.
End WrappedChains.

(* ================================================================== *)
(** * No wrapper below a wrapper *)

(** ** A pass and the wrappers of its own class *)

Lemma own_class_skip c n0 el rest st :
  own_class_inv c n0 (el :: rest) st -> own_class_inv c n0 rest st.
Proof.
  intros (HS & Hin & HA & HB). split; [|split; [|split]].
  - unfold in_tree_order in *. now apply StronglySorted_inv in HS.
  - intros y Hy. apply Hin. now right.
  - assumption.
  - intros y x l1 ay l2 Hy. apply HB. now right.
Qed.

Lemma own_class_wrap c n0 el rest st st' :
  layers_free (cfg_wrapper c) c = true ->
  well_formed st = true -> own_class_inv c n0 (el :: rest) st ->
  skipped c el st = false -> wrapped_store c el st st' ->
  own_class_inv c n0 rest st'.
Proof.
  intros Hfree Hwf (HS & Hin & HA & HB) Hsk Hws.
  pose proof (wrapped_target_in c el st st' Hws) as Hel.
  pose proof (wrapped_pos c el st st' Hwf Hws) as Hpos.
  unfold in_tree_order in HS. apply StronglySorted_inv in HS as [HS Hall].
  rewrite Forall_forall in Hall.
  assert (Hnb : below_class (cfg_wrapper c) el st = false).
  { unfold skipped in Hsk. now apply orb_false_iff in Hsk. }
  (* an element still to visit is not an ancestor of the target *)
  assert (Hup : forall y a up, In y rest ->
                  ancestors_at el st = Some ((el, a) :: up) -> ~ In y (map fst ((el, a) :: up))).
  { intros y a up Hy Ea Hyin. specialize (Hall y Hy).
    apply in_map_iff in Hyin as ([y0 ay] & E & Hyin). cbn [fst] in E. subst y0.
    apply in_split in Hyin as (l1 & l2 & E). rewrite E in Ea.
    destruct (ancestors_of_ancestor st el l1 y ay l2 Hwf Hel Ea) as (_ & Ey & Hlt).
    destruct l1 as [|e l1].
    - cbn [app] in E. injection E as E _ _. subst y. lia.
    - specialize (Hlt ltac:(discriminate)). lia. }
  split; [|split; [|split]].
  - unfold in_tree_order. apply (StronglySorted_in (fun a b => pos a st < pos b st)); [|assumption].
    intros a b Ha Hb Hlt.
    rewrite (Hpos a (Hin a (or_intror Ha))), (Hpos b (Hin b (or_intror Hb))).
    split_ltb; lia.
  - intros y Hy. apply (wrapped_in_order c el st st' Hws). left. apply Hin. now right.
  - intros x anc' Hx Hanc.
    destruct (wrapped_chain c el st st' Hwf Hws x anc' Hx Hanc)
      as (a & up & Eel & [[Hxo E] | [[Hxo (l1 & E & ->)] | [[_ ->] | (_ & cl & Hcl & ->)]]]).
    + exact (HA x anc' Hxo E).
    + pose proof (below_class_none (cfg_wrapper c) el st _ n0 Hnb Eel) as Hnone.
      rewrite created_wrappers_app.
      rewrite (HB el x l1 a up (or_introl eq_refl) Hxo E). cbn [app].
      assert (Ea : matches [SelClass (cfg_wrapper c)] a = false).
      { unfold below_class in Hnb. rewrite Eel in Hnb. cbn [existsb snd] in Hnb.
        now apply orb_false_iff in Hnb. }
      rewrite (created_wrappers_skip n0 (cfg_wrapper c) el a _ Ea).
      rewrite (created_wrappers_skip n0 (cfg_wrapper c) el a _ Ea) in Hnone.
      etransitivity; [apply created_wrappers_cons_le|]. rewrite Hnone. cbn. lia.
    + pose proof (below_class_none (cfg_wrapper c) el st _ n0 Hnb Eel) as Hnone.
      apply created_wrappers_tail in Hnone.
      etransitivity; [apply created_wrappers_cons_le|]. rewrite Hnone. cbn. lia.
    + pose proof (below_class_none (cfg_wrapper c) el st _ n0 Hnb Eel) as Hnone.
      apply created_wrappers_tail in Hnone.
      rewrite (created_wrappers_skip n0 (cfg_wrapper c) x _ _ (layers_free_layer (cfg_wrapper c) c _ cl Hfree Hcl)).
      etransitivity; [apply created_wrappers_cons_le|]. rewrite Hnone. cbn. lia.
  - intros y x l1 ay l2 Hy Hx Hanc.
    assert (Hyo : In y (document_order st)) by (apply Hin; now right).
    pose proof (old_lt st y Hwf Hyo) as Hylt.
    destruct (wrapped_chain c el st st' Hwf Hws x _ Hx Hanc)
      as (a & up & Eel & [[Hxo E] | [[Hxo (m1 & E & E')] | [[_ E'] | (Hlx & cl & Hcl & E')]]]).
    + exact (HB y x l1 ay l2 (or_intror Hy) Hxo E).
    + assert (Hnot : ~ In y (map fst ((el, a) :: (next_id st, wrapper_attrs c el st) :: up))).
      { pose proof (Hup y a up Hy Eel) as H0. cbn [map fst In] in *. intros [H|[H|H]].
        - apply H0. now left.
        - lia.
        - apply H0. now right. }
      symmetry in E'. destruct (cut_before _ _ _ _ _ _ E' Hnot) as [m' ->].
      rewrite <- app_assoc in E. cbn [app] in E.
      exact (HB y x l1 ay _ (or_intror Hy) Hxo E).
    + exfalso. pose proof (Hup y a up Hy Eel) as H0.
      assert (H1 : In y (map fst ((next_id st, wrapper_attrs c el st) :: up))).
      { rewrite <- E', map_app. apply in_or_app. right. now left. }
      cbn [map fst In] in *. destruct H1 as [H1|H1]; [lia|]. apply H0. now right.
    + exfalso. pose proof (Hup y a up Hy Eel) as H0.
      assert (H1 : In y (map fst ((x, layer_attrs (quirks_mode st) cl)
                                   :: (next_id st, wrapper_attrs c el st) :: up))).
      { rewrite <- E', map_app. apply in_or_app. right. now left. }
      cbn [map fst In] in *. destruct H1 as [H1|[H1|H1]]; [lia|lia|apply H0; now right].
Qed.

Lemma class_absent_chain n0 cls s x anc :
  well_formed s = true -> class_absent n0 cls s ->
  In x (document_order s) -> ancestors_at x s = Some anc ->
  forall l1 l2, anc = l1 ++ l2 -> created_wrappers n0 cls l1 = [].
Proof.
  intros Hwf Habs Hx Hanc l1 l2 ->. apply created_wrappers_none. intros [y a] Hy Hle.
  cbn [fst snd] in *.
  unfold document_order in Hx. rewrite ancestors_at_doc in Hanc by assumption.
  assert (Hn : In (y, a) (nodes (document s))).
  { apply (anc_incl _ _ _ _ Hanc). apply in_or_app. now left. }
  rewrite nodes_descendants in Hn. destruct Hn as [E|Hn]; [|now apply (Habs y a)].
  injection E as _ <-. apply well_formed_facts in Hwf as (_ & _ & Hk & _).
  destruct (matches [SelClass cls] (root_attrs (document s))) eqn:Em; [|reflexivity].
  apply matches_element in Em. unfold is_element in Em. now rewrite Hk in Em.
Qed.

(** After a pass, a node of the document has at most one ancestor that
    carries the wrapper class of the pass and that was created since [n0],
    when no node carried the class from [n0] on before the pass. *)
Lemma own_class_pass c n0 s s' :
  well_formed s = true -> layers_free (cfg_wrapper c) c = true ->
  class_absent n0 (cfg_wrapper c) s ->
  decorate c s = (Ok tt, s') ->
  forall x anc, In x (document_order s') -> ancestors_at x s' = Some anc ->
    List.length (created_wrappers n0 (cfg_wrapper c) anc) <= 1.
Proof.
  intros Hwf Hfree Habs. intros H. apply decorate_ok in H as [_ H].
  destruct (forEach_decorate_ind c (own_class_inv c n0))
    with (l := targets c s) (s := s) (s' := s') as [(_ & _ & HA & _) _]; try assumption.
  - intros el rest st _ _ HP _. now apply (own_class_skip c n0 el).
  - intros el rest st st' Hwf1 _ HP Hs Hws. now apply (own_class_wrap c n0 el rest st st').
  - intros el. apply targets_are_nodes.
  - split; [|split; [|split]].
    + now apply targets_in_tree_order.
    + intros y. apply targets_in_order.
    + intros x anc Hx Hanc.
      rewrite (class_absent_chain n0 _ s x anc Hwf Habs Hx Hanc anc [] (eq_sym (app_nil_r _))).
      cbn. lia.
    + intros y x l1 ay l2 _ Hx Hanc.
      exact (class_absent_chain n0 _ s x _ Hwf Habs Hx Hanc l1 _ eq_refl).
Qed.

(** ** A pass and the wrappers of another class *)

Lemma other_class_step c cls n0 el st st' :
  class_free cls c = true -> well_formed st = true -> wrapped_store c el st st' ->
  (forall x anc, In x (document_order st) -> ancestors_at x st = Some anc ->
     List.length (created_wrappers n0 cls anc) <= 1) ->
  forall x anc, In x (document_order st') -> ancestors_at x st' = Some anc ->
    List.length (created_wrappers n0 cls anc) <= 1.
Proof.
  intros Hfree Hwf Hws HA x anc' Hx Hanc.
  pose proof (wrapped_target_in c el st st' Hws) as Hel.
  assert (Hw : matches [SelClass cls] (wrapper_attrs c el st) = false).
  { apply (class_free_made_by cls c); [assumption|]. left. now exists el, st. }
  pose proof Hfree as Hlay. unfold class_free in Hlay. apply andb_true_iff in Hlay as [_ Hlay].
  destruct (wrapped_chain c el st st' Hwf Hws x anc' Hx Hanc)
    as (a & up & Eel & [[Hxo E] | [[Hxo (l1 & E & ->)] | [[_ ->] | (_ & cl & Hcl & ->)]]]).
  - exact (HA x anc' Hxo E).
  - specialize (HA x _ Hxo E). rewrite created_wrappers_app in *.
    assert (Ecut : created_wrappers n0 cls ((el, a) :: (next_id st, wrapper_attrs c el st) :: up)
                   = created_wrappers n0 cls ((el, a) :: up)).
    { change ((el, a) :: (next_id st, wrapper_attrs c el st) :: up)
        with ([(el, a)] ++ (next_id st, wrapper_attrs c el st) :: up).
      rewrite created_wrappers_app, (created_wrappers_skip n0 cls _ _ _ Hw).
      now rewrite <- created_wrappers_app. }
    now rewrite Ecut.
  - specialize (HA el _ Hel Eel). rewrite (created_wrappers_skip n0 cls _ _ _ Hw).
    pose proof (created_wrappers_tail_le n0 cls (el, a) up). lia.
  - specialize (HA el _ Hel Eel).
    rewrite (created_wrappers_skip n0 cls _ _ _ (layers_free_layer cls c _ cl Hlay Hcl)).
    rewrite (created_wrappers_skip n0 cls _ _ _ Hw).
    pose proof (created_wrappers_tail_le n0 cls (el, a) up). lia.
Qed.

Lemma other_class_pass c cls n0 s s' :
  class_free cls c = true -> well_formed s = true ->
  decorate c s = (Ok tt, s') ->
  (forall x anc, In x (document_order s) -> ancestors_at x s = Some anc ->
     List.length (created_wrappers n0 cls anc) <= 1) ->
  forall x anc, In x (document_order s') -> ancestors_at x s' = Some anc ->
    List.length (created_wrappers n0 cls anc) <= 1.
Proof.
  intros Hfree Hwf. intros H HA. apply decorate_ok in H as [_ H].
  destruct (forEach_decorate_ind c (fun _ st =>
              forall x anc, In x (document_order st) -> ancestors_at x st = Some anc ->
                List.length (created_wrappers n0 cls anc) <= 1))
    with (l := targets c s) (s := s) (s' := s') as [HP _]; try assumption.
  - trivial.
  - intros el rest st st' Hwf1 _ HP _ Hws. now apply (other_class_step c cls n0 el st st').
  - intros el. apply targets_are_nodes.
Qed.

(** The nodes a pass makes do not carry a class that its wrappers and layers
    do not have. *)
Lemma class_absent_after c cls n0 s s' :
  class_free cls c = true -> well_formed s = true ->
  decorate c s = (Ok tt, s') -> class_absent n0 cls s -> class_absent n0 cls s'.
Proof.
  intros Hfree Hwf H Habs x a Hx Hle.
  destruct (decorate_nodes c s s' Hwf H) as [_ Hn].
  destruct (Hn x a Hx) as [[Hold _] | [_ Hm]]; [now apply (Habs x a)|].
  now apply (class_free_made_by cls c).
Qed.

Lemma class_absent_start cls s : well_formed s = true -> class_absent (next_id s) cls s.
Proof.
  intros Hwf x a Hx Hle. apply descendants_in_order in Hx.
  pose proof (old_lt s x Hwf Hx). lia.
Qed.

Lemma passes_classes cw v :
  let c1 := config_of cw (input_pass_of v) in
  let c2 := config_of cw (button_pass_of v) in
  layers_free (cfg_wrapper c1) c1 = true /\ layers_free (cfg_wrapper c2) c2 = true /\
  class_free (cfg_wrapper c1) c2 = true /\ class_free (cfg_wrapper c2) c1 = true.
Proof. destruct v; repeat split. Qed.

(** After the listener, for the wrapper class of each of its passes: a node
    has at most one ancestor with the class among the nodes from [n0] on, when
    the document had no node with the class from [n0] on. *)
Lemma listener_created_wrappers cw v s s1 n0 p :
  well_formed s = true ->
  run_listener cw v s = (Ok tt, s1) ->
  p = input_pass_of v \/ p = button_pass_of v ->
  class_absent n0 (cfg_wrapper (config_of cw p)) s ->
  forall x anc, In x (document_order s1) -> ancestors_at x s1 = Some anc ->
    List.length (created_wrappers n0 (cfg_wrapper (config_of cw p)) anc) <= 1.
Proof.
  intros Hwf Hrun Hp Habs. apply run_listener_ok in Hrun as (s0 & D1 & D2).
  rewrite run_pass_eq in D1, D2.
  pose proof (decorate_well_formed _ _ _ Hwf D1) as Hwf0.
  destruct (passes_classes cw v) as (F1 & F2 & F12 & F21).
  destruct Hp as [-> | ->]; intros x anc Hx Hanc.
  - refine (other_class_pass _ _ n0 s0 s1 F12 Hwf0 D2 _ x anc Hx Hanc).
    now apply (own_class_pass _ n0 s s0 Hwf F1).
  - refine (own_class_pass _ n0 s0 s1 Hwf0 F2 _ D2 x anc Hx Hanc).
    now apply (class_absent_after _ _ n0 s s0 F21 Hwf).
Qed.

(* ================================================================== *)
(** * Running the listener again *)

(** C1, as the code has it.  When the listener has returned, running it
    again returns and leaves the store as it is: no node is created, moved or
    changed, so the tree after two invocations is the tree after one.  In that
    tree, a node has at most one inclusive ancestor that the listener created
    and that carries the wrapper class of a given pass; and when no element of
    the document carried that class before the listener ran, a node has at
    most one inclusive ancestor that carries it.  Without that condition a
    node can have two: see [second_wrapper_above_old_one]. *)
Theorem listener_twice (cw : tree -> node_id -> string) (v : variant) (s s1 : dom) :
  well_formed s = true ->
  run_listener cw v s = (Ok tt, s1) ->
  run_listener cw v s1 = (Ok tt, s1) /\
  forall p x anc,
    p = input_pass_of v \/ p = button_pass_of v ->
    In x (document_order s1) ->
    ancestors_at x s1 = Some anc ->
    List.length (created_wrappers (next_id s) (cfg_wrapper (config_of cw p)) anc) <= 1 /\
    ((forall y a, In (y, a) (descendants (document s)) ->
        matches [SelClass (cfg_wrapper (config_of cw p))] a = false) ->
     List.length (filter (fun na => matches [SelClass (cfg_wrapper (config_of cw p))] (snd na))
                         anc) <= 1).
Proof.
  intros Hwf Hrun. split.
  - now apply (run_listener_again cw v s s1).
  - intros p x anc Hp Hx Hanc. split.
    + apply (listener_created_wrappers cw v s s1 (next_id s) p Hwf Hrun Hp) with (x := x);
        try assumption.
      now apply class_absent_start.
    + intros Hclean.
      change (List.length (created_wrappers 0 (cfg_wrapper (config_of cw p)) anc) <= 1).
      apply (listener_created_wrappers cw v s s1 0 p Hwf Hrun Hp) with (x := x);
        try assumption.
      intros y a Hy _. exact (Hclean y a Hy).
Qed.

Lemma listener_twice_witness :
  run_listener no_layout Variant1 (snd (run_listener no_layout Variant1 sample_form)) =
    (Ok tt, snd (run_listener no_layout Variant1 sample_form)) /\
  forall p x anc,
    p = input_pass_of Variant1 \/ p = button_pass_of Variant1 ->
    In x (document_order (snd (run_listener no_layout Variant1 sample_form))) ->
    ancestors_at x (snd (run_listener no_layout Variant1 sample_form)) = Some anc ->
    List.length (created_wrappers (next_id sample_form)
                   (cfg_wrapper (config_of no_layout p)) anc) <= 1 /\
    ((forall y a, In (y, a) (descendants (document sample_form)) ->
        matches [SelClass (cfg_wrapper (config_of no_layout p))] a = false) ->
     List.length (filter (fun na => matches [SelClass (cfg_wrapper (config_of no_layout p))]
                                            (snd na)) anc) <= 1).
Proof.
  apply (listener_twice no_layout Variant1 sample_form).
  - vm_compute. reflexivity.
  - vm_compute. reflexivity.
Defined.

(** A document that already holds a node with the wrapper class: a
    [<div class="btn-primary">] (3) around a [<div class="btn-animated-wrapper">]
    (4) around a [<button type="submit">] (5).  The button pass of the first
    variant wraps the outer [div] in a wrapper (6) and skips the button, which
    is below (4).  After one invocation, and after two, the button has two
    ancestors that carry the wrapper class of the pass: (4) and (6). *)
Lemma second_wrapper_above_old_one :
  let s1 := snd (V1.listener no_layout sample_prewrapped) in
  let s2 := snd (V1.listener no_layout s1) in
  fst (V1.listener no_layout sample_prewrapped) = Ok tt /\
  fst (V1.listener no_layout s1) = Ok tt /\
  In 5 (targets v1_buttons sample_prewrapped) /\
  option_map (map fst) (ancestors_at 5 s2) = Some [5; 4; 3; 6; 2; 1; 0] /\
  option_map classList (attrs_at 4 s2) = Some ["btn-animated-wrapper"] /\
  option_map classList (attrs_at 6 s2) = Some ["btn-animated-wrapper"] /\
  option_map (fun anc => List.length
                (filter (fun na => matches [SelClass "btn-animated-wrapper"] (snd na)) anc))
             (ancestors_at 5 s2) = Some 2.
Proof. vm_compute. repeat split. tauto. Qed.
(* ================================================================== *)
(** * More about the listener: what it covers and what it leaves alone *)

Lemma descendant_attrs s x a :
  well_formed s = true -> In (x, a) (descendants (document s)) -> attrs_at x s = Some a.
Proof.
  intros Hwf Hx. apply well_formed_facts in Hwf as (Hnd & _).
  apply NoDup_app_remove_r in Hnd.
  destruct (descendant_facts _ _ _ Hnd Hx) as (Hin & _ & Hn).
  unfold attrs_at. rewrite node_at_doc by assumption.
  destruct (find_node_in _ _ Hin) as [U HU]. rewrite HU. cbn [option_map]. f_equal.
  apply find_node_nodes in HU.
  exact (pairs_functional _ _ _ _ Hnd HU Hn).
Qed.

Lemma attrs_descendant s x a :
  well_formed s = true -> In x (document_order s) -> x <> root_id (document s) ->
  attrs_at x s = Some a -> In (x, a) (descendants (document s)).
Proof.
  intros Hwf Hx Hr Ha. unfold document_order in Hx.
  unfold attrs_at in Ha. rewrite node_at_doc in Ha by assumption.
  destruct (find_node x (document s)) as [U|] eqn:HU; [|discriminate].
  injection Ha as <-. apply find_node_nodes in HU.
  rewrite nodes_descendants in HU. destruct HU as [E|HU]; [|assumption].
  injection E as E _. congruence.
Qed.

(** A pass leaves the document node where it is, and leaves no node out of
    the document. *)
Lemma decorate_root_detached c s s' :
  well_formed s = true -> decorate c s = (Ok tt, s') ->
  root_id (document s') = root_id (document s) /\ detached s' = detached s.
Proof.
  intros Hwf. intros H. apply decorate_ok in H as [_ H].
  destruct (forEach_decorate_ind c (fun _ st =>
              root_id (document st) = root_id (document s) /\ detached st = detached s))
    with (l := targets c s) (s := s) (s' := s') as [HP _]; try assumption.
  - trivial.
  - intros el rest st st' _ _ [HR HD] _ Hws.
    rewrite (wrapped_detached c el st st' Hws). split; [|assumption].
    destruct Hws as (cx & p & pa & l & r & K & E & _ & E' & _).
    rewrite <- HR, E, E'. now apply root_id_plug_same.
  - intros el. apply targets_are_nodes.
  - now split.
Qed.

(** X1.  After the listener, every element that is eligible for a pass is
    below a wrapper of that pass, carries one itself, or carries a class
    that the pass excludes: the passes leave no eligible element open. *)
Theorem listener_covers (cw : tree -> node_id -> string) (v : variant) (s s' : dom)
    (p : pass) (el : node_id) (a : attrs) :
  well_formed s = true ->
  run_listener cw v s = (Ok tt, s') ->
  p = input_pass_of v \/ p = button_pass_of v ->
  In (el, a) (descendants (document s')) ->
  matches (cfg_selector (config_of cw p)) a = true ->
  below_class (cfg_wrapper (config_of cw p)) el s' = true \/
  (exists cl, In cl (cfg_excluded (config_of cw p)) /\ has_class cl a = true).
Proof.
  intros Hwf Hrun Hp Hel Hm. apply run_listener_ok in Hrun as (s0 & D1 & D2).
  rewrite run_pass_eq in D1, D2.
  destruct (decorate_settles _ s s0 Hwf (unmatched_passes cw _ _) D1) as [Hset1 Hwf0].
  destruct (decorate_settles _ s0 s' Hwf0 (unmatched_passes cw _ _) D2) as [Hset2 Hwf1].
  pose proof (decorate_keeps_settled _ _ s0 s' Hwf0 (unmatched_passes cw _ _) Hset1 D2) as Hset1'.
  assert (Hs : skipped (config_of cw p) el s' = true).
  { destruct Hp as [-> | ->]; [now apply (Hset1' el a) | now apply (Hset2 el a)]. }
  unfold skipped in Hs. apply orb_true_iff in Hs as [Hs | Hs]; [now left | right].
  rewrite excluded_attrs, (descendant_attrs s' el a Hwf1 Hel) in Hs.
  apply existsb_exists in Hs as (cl & Hcl & Hh). now exists cl.
Qed.

Lemma listener_covers_witness :
  below_class (cfg_wrapper (config_of no_layout V1_inputs)) 3
    (snd (run_listener no_layout Variant1 sample_form)) = true \/
  (exists cl, In cl (cfg_excluded (config_of no_layout V1_inputs)) /\
              has_class cl (element "input" (Some "text") [] "200px") = true).
Proof.
  apply (listener_covers no_layout Variant1 sample_form _ V1_inputs 3).
  - vm_compute. reflexivity.
  - vm_compute. reflexivity.
  - left. reflexivity.
  - vm_compute. tauto.
  - vm_compute. reflexivity.
Defined.

(** ** The nodes the listener creates *)

Lemma listener_nodes cw v s s' i a :
  well_formed s = true -> run_listener cw v s = (Ok tt, s') ->
  In (i, a) (descendants (document s')) ->
  (In (i, a) (descendants (document s)) /\ i < next_id s) \/
  (next_id s <= i /\
   (made_by (config_of cw (input_pass_of v)) a \/ made_by (config_of cw (button_pass_of v)) a)).
Proof.
  intros Hwf Hrun Hi. apply run_listener_ok in Hrun as (s0 & D1 & D2).
  rewrite run_pass_eq in D1, D2.
  pose proof (decorate_well_formed _ _ _ Hwf D1) as Hwf0.
  destruct (decorate_nodes _ s s0 Hwf D1) as [Hn1 H1].
  destruct (decorate_nodes _ s0 s' Hwf0 D2) as [Hn2 H2].
  destruct (H2 i a Hi) as [[Hold _] | [Hle Hm]].
  - destruct (H1 i a Hold) as [[Hold' Hlt] | [Hle Hm]]; [now left | right; auto].
  - right. split; [lia | now right].
Qed.

(** X2.  No node that the listener creates is eligible for one of its
    passes: the passes never decorate a wrapper or a layer. *)
Theorem created_nodes_not_eligible (cw : tree -> node_id -> string) (v : variant)
    (s s' : dom) (p : pass) (i : node_id) (a : attrs) :
  well_formed s = true ->
  run_listener cw v s = (Ok tt, s') ->
  In (i, a) (descendants (document s')) ->
  next_id s <= i ->
  p = input_pass_of v \/ p = button_pass_of v ->
  matches (cfg_selector (config_of cw p)) a = false.
Proof.
  intros Hwf Hrun Hi Hle Hp.
  destruct (listener_nodes cw v s s' i a Hwf Hrun Hi) as [[_ Hlt] | [_ [Hm | Hm]]]; [lia| |].
  - exact (made_by_unmatched _ _ a (unmatched_passes cw p _) Hm).
  - exact (made_by_unmatched _ _ a (unmatched_passes cw p _) Hm).
Qed.

Lemma created_nodes_not_eligible_witness :
  matches (cfg_selector (config_of no_layout V2_buttons))
          (with_classList ["glow-input"] (new_element false "div")) = false.
Proof.
  apply (created_nodes_not_eligible no_layout Variant2 sample_form
           (snd (run_listener no_layout Variant2 sample_form)) V2_buttons 7).
  - vm_compute. reflexivity.
  - vm_compute. reflexivity.
  - vm_compute. tauto.
  - vm_compute. lia.
  - right. reflexivity.
Defined.

Lemma made_by_div c a :
  made_by c a ->
  nodeType a = ElementNode /\ localName a = "div" /\ typeAttr a = None /\
  exists cl, classList a = [cl] /\ (cl = cfg_wrapper c \/ In cl (cfg_layers c)).
Proof.
  intros [(el & s & ->) | (q0 & cl & Hcl & ->)].
  - split; [apply wrapper_attrs_element|].
    unfold wrapper_attrs, with_display, with_copied_width.
    destruct (cfg_display c), (cfg_width c); cbn;
      repeat match goal with |- context [if ?b then _ else _] => destruct b end; cbn;
      (split; [reflexivity | split; [reflexivity | exists (cfg_wrapper c); auto]]).
  - cbn. repeat split. exists cl. auto.
Qed.

(** X3.  Every node the listener creates is a [div] element with one class
    name: the wrapper class or a layer class of one of its two passes. *)
Theorem created_nodes_are_divs (cw : tree -> node_id -> string) (v : variant)
    (s s' : dom) (i : node_id) (a : attrs) :
  well_formed s = true ->
  run_listener cw v s = (Ok tt, s') ->
  In (i, a) (descendants (document s')) ->
  next_id s <= i ->
  nodeType a = ElementNode /\ localName a = "div" /\ typeAttr a = None /\
  exists p cl, (p = input_pass_of v \/ p = button_pass_of v) /\
    classList a = [cl] /\
    (cl = cfg_wrapper (config_of cw p) \/ In cl (cfg_layers (config_of cw p))).
Proof.
  intros Hwf Hrun Hi Hle.
  destruct (listener_nodes cw v s s' i a Hwf Hrun Hi) as [[_ Hlt] | [_ [Hm | Hm]]]; [lia| |];
    destruct (made_by_div _ a Hm) as (H1 & H2 & H3 & cl & H4 & H5);
    (split; [assumption | split; [assumption | split; [assumption|]]]).
  - exists (input_pass_of v), cl. auto.
  - exists (button_pass_of v), cl. auto.
Qed.

Lemma created_nodes_are_divs_witness :
  nodeType (with_classList ["glow-input"] (new_element false "div")) = ElementNode /\
  localName (with_classList ["glow-input"] (new_element false "div")) = "div" /\
  typeAttr (with_classList ["glow-input"] (new_element false "div")) = None /\
  exists p cl, (p = input_pass_of Variant2 \/ p = button_pass_of Variant2) /\
    classList (with_classList ["glow-input"] (new_element false "div")) = [cl] /\
    (cl = cfg_wrapper (config_of no_layout p) \/ In cl (cfg_layers (config_of no_layout p))).
Proof.
  apply (created_nodes_are_divs no_layout Variant2 sample_form
           (snd (run_listener no_layout Variant2 sample_form)) 7).
  - vm_compute. reflexivity.
  - vm_compute. reflexivity.
  - vm_compute. tauto.
  - vm_compute. lia.
Defined.

(** ** The nodes that were there *)

(** X4.  The listener removes no node and changes the attributes of no node
    that was in the document: tag, type, class list and inline style are
    what they were. It leaves no node out of the tree: the wrappers and
    layers it creates are all inserted, and the nodes that were detached
    stay as they were. The node identities of the new document are distinct. *)
Theorem listener_keeps_nodes (cw : tree -> node_id -> string) (v : variant)
    (s s' : dom) :
  well_formed s = true ->
  run_listener cw v s = (Ok tt, s') ->
  (forall x, In x (document_order s) ->
     In x (document_order s') /\ attrs_at x s' = attrs_at x s) /\
  detached s' = detached s /\
  NoDup (document_order s') /\
  root_id (document s') = root_id (document s).
Proof.
  intros Hwf Hrun. apply run_listener_ok in Hrun as (s0 & D1 & D2).
  rewrite run_pass_eq in D1, D2.
  destruct (decorate_effect _ s s0 Hwf D1) as (Hwf0 & _ & H1).
  destruct (decorate_effect _ s0 s' Hwf0 D2) as (Hwf1 & _ & H2).
  destruct (decorate_root_detached _ s s0 Hwf D1) as [R1 T1].
  destruct (decorate_root_detached _ s0 s' Hwf0 D2) as [R2 T2].
  split; [|split; [congruence | split; [|congruence]]].
  - intros x Hx. destruct (H1 x Hx) as (Hx0 & Ha0 & _).
    destruct (H2 x Hx0) as (Hx1 & Ha1 & _). split; [assumption | congruence].
  - apply well_formed_facts in Hwf1 as (Hnd & _). now apply NoDup_app_remove_r in Hnd.
Qed.

Lemma listener_keeps_nodes_witness :
  (forall x, In x (document_order sample_form) ->
     In x (document_order (snd (run_listener no_layout Variant2 sample_form))) /\
     attrs_at x (snd (run_listener no_layout Variant2 sample_form)) = attrs_at x sample_form) /\
  detached (snd (run_listener no_layout Variant2 sample_form)) = detached sample_form /\
  NoDup (document_order (snd (run_listener no_layout Variant2 sample_form))) /\
  root_id (document (snd (run_listener no_layout Variant2 sample_form))) =
    root_id (document sample_form).
Proof.
  apply (listener_keeps_nodes no_layout Variant2 sample_form).
  - vm_compute. reflexivity.
  - vm_compute. reflexivity.
Defined.

(** X5.  The listener keeps the tree order of the nodes that were in the
    document: a node that came before another one still does. *)
Theorem listener_keeps_tree_order (cw : tree -> node_id -> string) (v : variant)
    (s s' : dom) (x y : node_id) :
  well_formed s = true ->
  run_listener cw v s = (Ok tt, s') ->
  precedes x y (document_order s) ->
  precedes x y (document_order s').
Proof.
  intros Hwf Hrun (Hx & Hy & Hlt). apply run_listener_ok in Hrun as (s0 & D1 & D2).
  rewrite run_pass_eq in D1, D2.
  pose proof (decorate_well_formed _ _ _ Hwf D1) as Hwf0.
  pose proof (ordered_pass s _ s s0 Hwf (ordered_start s Hwf) D1) as H1.
  destruct (ordered_pass s _ s0 s' Hwf0 H1 D2) as (_ & Hin & Hord & _).
  split; [now apply Hin|]. split; [now apply Hin|]. now apply (Hord x y).
Qed.

Lemma listener_keeps_tree_order_witness :
  precedes 3 5 (document_order (snd (run_listener no_layout Variant2 sample_form))).
Proof.
  apply (listener_keeps_tree_order no_layout Variant2 sample_form).
  - vm_compute. reflexivity.
  - vm_compute. reflexivity.
  - vm_compute. repeat split; try tauto. lia.
Defined.

(** X6.  A node that is eligible for neither pass (an element that neither
    selector matches, a text node, a comment) keeps its parent. *)
Theorem ineligible_node_keeps_parent (cw : tree -> node_id -> string) (v : variant)
    (s s' : dom) (x : node_id) (a : attrs) :
  well_formed s = true ->
  run_listener cw v s = (Ok tt, s') ->
  In x (document_order s) ->
  attrs_at x s = Some a ->
  matches (cfg_selector (config_of cw (input_pass_of v))) a = false ->
  matches (cfg_selector (config_of cw (button_pass_of v))) a = false ->
  parent_in x s' = parent_in x s.
Proof.
  intros Hwf Hrun Hx Ha Hm1 Hm2. apply run_listener_ok in Hrun as (s0 & D1 & D2).
  rewrite run_pass_eq in D1, D2.
  destruct (decorate_effect _ s s0 Hwf D1) as (Hwf0 & _ & H1).
  destruct (decorate_effect _ s0 s' Hwf0 D2) as (Hwf1 & _ & H2).
  destruct (H1 x Hx) as (Hx0 & Ha0 & [E1 | (w & _ & _ & _ & Ht & _)]).
  - destruct (H2 x Hx0) as (_ & _ & [E2 | (w & _ & _ & _ & Ht & _)]); [congruence|].
    exfalso. apply targets_spec in Ht as (b & Hb & Hmb).
    rewrite (descendant_attrs s0 x b Hwf0 Hb) in Ha0. congruence.
  - exfalso. apply targets_spec in Ht as (b & Hb & Hmb).
    rewrite (descendant_attrs s x b Hwf Hb) in Ha. congruence.
Qed.

Lemma ineligible_node_keeps_parent_witness :
  parent_in 2 (snd (run_listener no_layout Variant1 sample_form)) = parent_in 2 sample_form.
Proof.
  apply (ineligible_node_keeps_parent no_layout Variant1 sample_form _ 2
           (element "body" None [] "")).
  - vm_compute. reflexivity.
  - vm_compute. reflexivity.
  - vm_compute. tauto.
  - vm_compute. reflexivity.
  - vm_compute. reflexivity.
  - vm_compute. reflexivity.
Defined.

(** ** The ancestors that were there *)

Lemma original_chain_step c el st st' n0 x anc :
  well_formed st = true -> wrapped_store c el st st' -> n0 <= next_id st ->
  In x (document_order st) ->
  (exists anc', ancestors_at x st = Some anc' /\
                filter (fun na => fst na <? n0) anc' = anc) ->
  exists anc', ancestors_at x st' = Some anc' /\
               filter (fun na => fst na <? n0) anc' = anc.
Proof.
  intros Hwf Hws Hn Hx (lx & Elx & Ef).
  destruct (wrapped_ancestors c el st st' Hwf Hws x lx Hx Elx) as [E | (l1 & a & up & -> & E)].
  - now exists lx.
  - eexists. split; [exact E|]. rewrite <- Ef, !filter_app. f_equal.
    cbn [filter fst]. destruct (el <? n0); [f_equal|];
      (destruct (Nat.ltb_spec (next_id st) n0); [lia | reflexivity]).
Qed.

Lemma original_chain_pass c s0 st st' :
  well_formed st = true -> next_id s0 <= next_id st ->
  decorate c st = (Ok tt, st') ->
  (forall x anc, In x (document_order s0) -> ancestors_at x s0 = Some anc ->
     In x (document_order st) /\
     exists anc', ancestors_at x st = Some anc' /\
                  filter (fun na => fst na <? next_id s0) anc' = anc) ->
  forall x anc, In x (document_order s0) -> ancestors_at x s0 = Some anc ->
    In x (document_order st') /\
    exists anc', ancestors_at x st' = Some anc' /\
                 filter (fun na => fst na <? next_id s0) anc' = anc.
Proof.
  intros Hwf Hn. intros H H0. apply decorate_ok in H as [_ H].
  destruct (forEach_decorate_ind c (fun _ st1 =>
              next_id s0 <= next_id st1 /\
              forall x anc, In x (document_order s0) -> ancestors_at x s0 = Some anc ->
                In x (document_order st1) /\
                exists anc', ancestors_at x st1 = Some anc' /\
                             filter (fun na => fst na <? next_id s0) anc' = anc))
    with (l := targets c st) (s := st) (s' := st') as [[_ HP] _]; try assumption.
  - trivial.
  - intros el rest s1 s2 Hwf1 _ [Hn1 HP1] _ Hws.
    split; [rewrite (wrapped_next c el s1 s2 Hws); lia|].
    intros x anc Hx Hanc. destruct (HP1 x anc Hx Hanc) as [Hx1 Hex].
    split; [apply (wrapped_in_order c el s1 s2 Hws); now left|].
    now apply (original_chain_step c el s1 s2 (next_id s0) x anc).
  - intros el. apply targets_are_nodes.
  - now split.
Qed.

(** X7.  The listener puts only nodes of its own between a node and its
    ancestors. For a node that was in the document, the ancestors it had are
    the ancestors it has, in the same order, once the created nodes are left
    out: no node is moved out of the subtree it was in, and none gets an
    ancestor it did not have among the nodes that were there. *)
Theorem listener_keeps_ancestors (cw : tree -> node_id -> string) (v : variant)
    (s s' : dom) (x : node_id) (anc : list (node_id * attrs)) :
  well_formed s = true ->
  run_listener cw v s = (Ok tt, s') ->
  In x (document_order s) ->
  ancestors_at x s = Some anc ->
  exists anc',
    ancestors_at x s' = Some anc' /\
    filter (fun na => fst na <? next_id s) anc' = anc.
Proof.
  intros Hwf Hrun Hx Hanc. apply run_listener_ok in Hrun as (s0 & D1 & D2).
  rewrite run_pass_eq in D1, D2.
  destruct (decorate_effect _ s s0 Hwf D1) as (Hwf0 & Hn0 & _).
  refine (proj2 (original_chain_pass _ s s0 s' Hwf0 Hn0 D2 _ x anc Hx Hanc)).
  apply (original_chain_pass _ s s s0 Hwf (le_n _) D1).
  intros y ly Hy Ely. split; [assumption|]. exists ly. split; [assumption|].
  apply forallb_filter_id. apply forallb_forall. intros [z az] Hz. cbn [fst].
  destruct (ancestors_attrs s y ly z az Hwf Hy Ely Hz) as [Hzo _].
  apply Nat.ltb_lt. now apply old_lt.
Qed.

Lemma listener_keeps_ancestors_witness :
  exists anc',
    ancestors_at 5 (snd (run_listener no_layout Variant1 sample_form)) = Some anc' /\
    filter (fun na => fst na <? next_id sample_form) anc' =
      [(5, element "textarea" None ["submit-btn"] ""); (2, element "body" None [] "");
       (1, element "html" None [] ""); (0, document_attrs)].
Proof.
  apply (listener_keeps_ancestors no_layout Variant1 sample_form).
  - vm_compute. reflexivity.
  - vm_compute. reflexivity.
  - vm_compute. tauto.
  - vm_compute. reflexivity.
Defined.

(* ================================================================== *)
(** * When a pass throws *)

Lemma root_chain s :
  ancestors_at (root_id (document s)) s =
  Some [(root_id (document s), root_attrs (document s))].
Proof.
  unfold ancestors_at, forest. destruct (document s) as [i a ks].
  cbn [first_some inclusive_ancestors root_id root_attrs]. now rewrite Nat.eqb_refl.
Qed.

(** The ancestors of a child of the document node. *)
Lemma child_of_root_chain s el :
  well_formed s = true -> In el (document_order s) ->
  parent_in el s = Some (root_id (document s)) ->
  exists a, ancestors_at el s =
            Some [(el, a); (root_id (document s), root_attrs (document s))].
Proof.
  intros Hwf Hel Hp. pose proof Hel as Hel'. unfold document_order in Hel'.
  destruct (anc_in _ _ Hel') as [lx Elx].
  rewrite <- ancestors_at_doc in Elx by assumption.
  destruct (ancestors_at_head el s lx Hel' Elx) as (a & rest & -> & _).
  rewrite (parent_in_ancestors el s _ Elx) in Hp.
  destruct rest as [|[p pa] tl]; [discriminate|]. injection Hp as ->.
  destruct (ancestors_of_ancestor s el [(el, a)] _ pa tl Hwf Hel Elx) as (_ & Er & _).
  rewrite root_chain in Er. injection Er as <- <-. now exists a.
Qed.

(** A step that wraps another element leaves a child of the document node
    as it is for the guard. *)
Lemma root_child_stays c el s s1 el0 :
  well_formed s = true -> wrapped_store c el s s1 ->
  el <> root_id (document s) ->
  In el0 (document_order s) -> el0 <> el ->
  parent_in el0 s = Some (root_id (document s)) ->
  parent_in el0 s1 = Some (root_id (document s1)) /\
  skipped c el0 s1 = skipped c el0 s.
Proof.
  intros Hwf Hws Hnr Hin Hne Hp.
  assert (Hr : root_id (document s1) = root_id (document s)).
  { destruct Hws as (cx & p & pa & l & r & K & E1 & _ & E2 & _).
    rewrite E1, E2. now apply root_id_plug_same. }
  split; [now rewrite (wrapped_parent c el s s1 Hwf Hws el0 Hin Hne), Hr|].
  symmetry. apply skipped_by_ancestors; [assumption| |].
  - apply (wrapped_in_order c el s s1 Hws). now left.
  - destruct (child_of_root_chain s el0 Hwf Hin Hp) as [a Ea].
    destruct (wrapped_ancestors c el s s1 Hwf Hws el0 _ Hin Ea) as [E | (l1 & b & up & E & _)];
      [congruence|].
    exfalso.
    assert (Hm : In el (map fst [(el0, a); (root_id (document s), root_attrs (document s))])).
    { rewrite E, map_app. apply in_or_app. right. now left. }
    cbn [map fst In] in Hm. destruct Hm as [Hm | [Hm | []]]; congruence.
Qed.

(** A pass over a document where an element that it has to wrap is a child of
    the document node throws. *)
Lemma forEach_throws c l : forall s el0,
  well_formed s = true -> NoDup l -> (forall el, In el l -> is_target_node el s) ->
  In el0 l -> parent_in el0 s = Some (root_id (document s)) -> skipped c el0 s = false ->
  exists e s', forEach l (decorate_one c) s = (Throw e, s').
Proof.
  induction l as [|el rest IH]; intros s el0 Hwf Hnd Ht Hin Hp Hs; [contradiction|].
  cbn [forEach]. inversion Hnd as [|? ? Hel Hnd']; subst.
  destruct (Ht el (or_introl eq_refl)) as (a & Ha & He).
  destruct (decorate_one_outcome c el a s Hwf Ha He)
    as [[Hsk E] | [(Hsk & _ & E) | [(Hsk & _ & Hnr & s1 & E & Hw)
                                   | (Hsk & _ & Hroot & s1 & E & _)]]].
  - rewrite (bind_ok _ _ _ _ _ E). destruct Hin as [-> | Hin]; [congruence|].
    apply (IH s el0); try assumption. intros x Hx. apply Ht. now right.
  - eexists _, _. now rewrite (bind_throw _ _ _ _ _ E).
  - rewrite (bind_ok _ _ _ _ _ E). destruct Hin as [-> | Hin]; [contradiction|].
    assert (Hne : el0 <> el) by (intros ->; contradiction).
    assert (Hin0 : In el0 (document_order s)).
    { destruct (Ht el0 (or_intror Hin)) as (b & Hb & _). now apply (descendants_in_order s el0 b). }
    assert (Hnroot : el <> root_id (document s)).
    { pose proof Hwf as Hnd0. apply well_formed_facts in Hnd0 as (Hnd0 & _).
      apply NoDup_app_remove_r in Hnd0. now destruct (descendant_facts _ _ _ Hnd0 Ha). }
    destruct (root_child_stays c el s s1 el0 Hwf Hw Hnroot Hin0 Hne Hp) as [Hp1 Hs1].
    apply (IH s1 el0); try assumption.
    + now apply (wrapped_well_formed c el s s1).
    + intros x Hx. apply (wrapped_target_node c el s s1 Hw). apply Ht. now right.
    + congruence.
  - eexists _, _. now rewrite (bind_throw _ _ _ _ _ E).
Qed.

(** X8.  What a pass that returns has met.  [document.querySelectorAll] was
    the method of the DOM.  No element that is eligible and that the guard
    does not skip is a child of the document node: there [insertBefore]
    would have to put the wrapper next to the document element.  And when
    [document.createElement] is not the method of the DOM, the guard has
    skipped every eligible element, and the pass has changed nothing. *)
Theorem pass_returns_only_if (cw : tree -> node_id -> string) (p : pass) (s s' : dom) :
  well_formed s = true ->
  run_pass cw p s = (Ok tt, s') ->
  shadowed "querySelectorAll" s = false /\
  (forall el, In el (targets (config_of cw p) s) ->
     parent_in el s = Some (root_id (document s)) ->
     skipped (config_of cw p) el s = true) /\
  (shadowed "createElement" s = true ->
   (forall el, In el (targets (config_of cw p) s) ->
      skipped (config_of cw p) el s = true) /\ s' = s).
Proof.
  intros Hwf Hrun. rewrite run_pass_eq in Hrun. apply decorate_ok in Hrun as [Hq H].
  set (c := config_of cw p) in *.
  assert (Ht : forall el, In el (targets c s) -> is_target_node el s)
    by (intros el; apply targets_are_nodes).
  split; [assumption|]. split.
  - intros el Hel Hp. destruct (skipped c el s) eqn:Hs; [reflexivity|]. exfalso.
    destruct (forEach_throws c (targets c s) s el Hwf (targets_NoDup c s Hwf) Ht Hel Hp Hs)
      as (e & s1 & E).
    congruence.
  - intros Hsh. exact (forEach_shadowed c (targets c s) s s' Hwf Ht Hsh H).
Qed.

Lemma pass_returns_only_if_witness :
  shadowed "querySelectorAll" sample_form = false /\
  (forall el, In el (targets (config_of no_layout V1_buttons) sample_form) ->
     parent_in el sample_form = Some (root_id (document sample_form)) ->
     skipped (config_of no_layout V1_buttons) el sample_form = true) /\
  (shadowed "createElement" sample_form = true ->
   (forall el, In el (targets (config_of no_layout V1_buttons) sample_form) ->
      skipped (config_of no_layout V1_buttons) el sample_form = true) /\
   snd (run_pass no_layout V1_buttons sample_form) = sample_form).
Proof.
  apply (pass_returns_only_if no_layout V1_buttons sample_form).
  - vm_compute. reflexivity.
  - vm_compute. reflexivity.
Defined.

(** X9.  Where the HierarchyRequestError of a pass comes from.  When a pass
    throws a HierarchyRequestError, an element that is eligible and that the
    guard does not skip is a child of the document node, and the methods
    [querySelectorAll], [createElement] and [insertBefore] of the document
    are those of the DOM: the exception is the one of [insertBefore] on the
    document node. *)
Theorem hierarchy_error_at_document (cw : tree -> node_id -> string) (p : pass)
    (s s' : dom) :
  well_formed s = true ->
  run_pass cw p s = (Throw HierarchyRequestError, s') ->
  shadowed "querySelectorAll" s = false /\
  shadowed "createElement" s = false /\
  shadowed "insertBefore" s = false /\
  exists el,
    In el (targets (config_of cw p) s) /\
    parent_in el s = Some (root_id (document s)) /\
    skipped (config_of cw p) el s = false.
Proof.
  intros Hwf Hrun. rewrite run_pass_eq, decorate_forEach in Hrun.
  set (c := config_of cw p) in *.
  destruct (shadowed "querySelectorAll" s) eqn:Hq; [discriminate|].
  split; [reflexivity|].
  assert (Ht : forall el, In el (targets c s) -> is_target_node el s)
    by (intros el; apply targets_are_nodes).
  destruct (forEach_throw_step c (targets c s) s _ s' Hwf Ht Hrun)
    as (done & el & rest & st & Et & Hd & Hwfst & (a & Ha & He) & Hth).
  assert (Htd : forall x, In x done -> is_target_node x s).
  { intros x Hx. apply Ht. rewrite Et. apply in_or_app. now left. }
  destruct (forEach_frame c done s st Hwf Htd Hd) as (Hn & _ & Hr).
  assert (Hsh : forall m, shadowed m st = shadowed m s).
  { intros m. unfold shadowed. now rewrite Hn. }
  assert (Hel : In el (targets c s)) by (rewrite Et; apply in_elt).
  assert (Hnd : ~ In el done).
  { pose proof (targets_NoDup c s Hwf) as Hnd. rewrite Et in Hnd.
    apply NoDup_remove_2 in Hnd. intros Hx. apply Hnd. apply in_or_app. now left. }
  pose proof (targets_in_order c s el Hel) as Hin.
  destruct (decorate_one_outcome c el a st Hwfst Ha He)
    as [[Hsk E] | [(Hsk & _ & E) | [(Hsk & _ & _ & s1 & E & _)
                                   | (Hsk & Hce & Hp & s1 & E & _)]]]; try congruence.
  rewrite Hth in E. rewrite !Hsh in *.
  destruct (shadowed "insertBefore" s) eqn:Hi; [discriminate|].
  split; [assumption|]. split; [reflexivity|].
  exists el. split; [assumption|]. split.
  - rewrite <- (forEach_keeps_parents c done s st Hwf Htd Hd el Hin Hnd). congruence.
  - destruct (skipped c el s) eqn:Hs; [|reflexivity].
    destruct (forEach_skipped_mono c done s st el Hwf Htd Hd Hin Hs) as [_ Hs']. congruence.
Qed.

Lemma hierarchy_error_at_document_witness :
  shadowed "querySelectorAll" sample_root_button = false /\
  shadowed "createElement" sample_root_button = false /\
  shadowed "insertBefore" sample_root_button = false /\
  exists el,
    In el (targets (config_of no_layout V1_buttons) sample_root_button) /\
    parent_in el sample_root_button = Some (root_id (document sample_root_button)) /\
    skipped (config_of no_layout V1_buttons) el sample_root_button = false.
Proof.
  apply (hierarchy_error_at_document no_layout V1_buttons sample_root_button
           (snd (run_pass no_layout V1_buttons sample_root_button))).
  - vm_compute. reflexivity.
  - vm_compute. reflexivity.
Defined.
(* ================================================================== *)
(** * The width of a wrapper, in general *)

Lemma styleWidth_wrapper c el s a :
  attrs_at el s = Some a ->
  styleWidth (wrapper_attrs c el s) =
  match cfg_width c with
  | Some computedWidth =>
      if String.eqb (styleWidth a) "" then computedWidth (document s) el else styleWidth a
  | None => ""
  end.
Proof.
  intros Ha. unfold attrs_at in Ha. destruct (node_at el s) as [t|] eqn:Et; [|discriminate].
  injection Ha as <-.
  unfold wrapper_attrs, with_display, with_copied_width. rewrite Et.
  destruct (cfg_display c), (cfg_width c) as [f|]; cbn;
    try reflexivity;
    destruct (String.eqb (styleWidth (root_attrs t)) "");
    match goal with |- context [if String.eqb ?w "" then _ else _] =>
      destruct (String.eqb_spec w "") as [E|E]; cbn; congruence end.
Qed.

(** X10.  The callback of the input pass of the first variant, on an element
    that it does not skip: when it returns, the element is inside the wrapper
    it has made, and the wrapper has the inline width of the element when the
    element has one, and otherwise the computed width of the element in the
    document as it was before the step.  When both are empty the wrapper has
    no inline width. *)
Theorem v1_wrapper_width (cw : tree -> node_id -> string) (el : node_id) (a : attrs)
    (s s' : dom) :
  well_formed s = true ->
  In (el, a) (descendants (document s)) ->
  is_element a = true ->
  skipped (v1_inputs cw) el s = false ->
  V1.wrap_input cw el s = (Ok tt, s') ->
  exists wa,
    parent_in el s' = Some (next_id s) /\
    attrs_at (next_id s) s' = Some wa /\
    styleWidth wa =
      (if String.eqb (styleWidth a) "" then cw (document s) el else styleWidth a).
Proof.
  intros Hwf Ha He Hs Hrun. rewrite v1_wrap_input_eq in Hrun.
  destruct (decorate_one_cases (v1_inputs cw) el a s Hwf Ha He)
    as [[Hsk _] | [(_ & s1 & E & Hw) | (_ & e & s1 & E & _)]]; [congruence | | congruence].
  assert (Es : s1 = s') by congruence. subst s1.
  exists (wrapper_attrs (v1_inputs cw) el s).
  destruct (wrapped_parent_target (v1_inputs cw) el s s' Hwf Hw) as (q & _ & Hpw & _).
  split; [assumption|]. split.
  - rewrite attrs_at_shape, (wrapped_shape_wrapper (v1_inputs cw) el s s' Hwf Hw). reflexivity.
  - now rewrite (styleWidth_wrapper _ el s a (descendant_attrs s el a Hwf Ha)).
Qed.

Lemma v1_wrapper_width_witness :
  exists wa,
    parent_in 4 (snd (V1.wrap_input (fun _ _ => "120px") 4 sample_search_box)) =
      Some (next_id sample_search_box) /\
    attrs_at (next_id sample_search_box)
      (snd (V1.wrap_input (fun _ _ => "120px") 4 sample_search_box)) = Some wa /\
    styleWidth wa =
      (if String.eqb (styleWidth (element "input" (Some "text") [] "")) ""
       then "120px" else styleWidth (element "input" (Some "text") [] "")).
Proof.
  apply (v1_wrapper_width (fun _ _ => "120px") 4 (element "input" (Some "text") [] "")
           sample_search_box).
  - vm_compute. reflexivity.
  - vm_compute. tauto.
  - vm_compute. reflexivity.
  - vm_compute. reflexivity.
  - vm_compute. reflexivity.
Defined.

Lemma made_by_width cw p a :
  made_by (config_of cw p) a -> styleWidth a <> "" ->
  p = V1_inputs /\ classList a = ["input-animated-wrapper"].
Proof.
  intros [(el & s & ->) | (q0 & cl & Hcl & ->)] Hw.
  - destruct p; try (exfalso; apply Hw;
      unfold wrapper_attrs, with_display, with_copied_width; cbn; reflexivity).
    split; [reflexivity | apply classList_wrapper].
  - exfalso. now apply Hw.
Qed.

(** X11.  Among the nodes the listener creates, only the input wrappers of
    the first variant can have an inline width: no button wrapper, no layer
    and no wrapper of the second variant gets one. *)
Theorem width_only_on_v1_input_wrappers (cw : tree -> node_id -> string) (v : variant)
    (s s' : dom) (i : node_id) (a : attrs) :
  well_formed s = true ->
  run_listener cw v s = (Ok tt, s') ->
  In (i, a) (descendants (document s')) ->
  next_id s <= i ->
  styleWidth a <> "" ->
  v = Variant1 /\ classList a = ["input-animated-wrapper"].
Proof.
  intros Hwf Hrun Hi Hle Hw.
  destruct (listener_nodes cw v s s' i a Hwf Hrun Hi) as [[_ Hlt] | [_ [Hm | Hm]]]; [lia| |];
    destruct (made_by_width cw _ a Hm Hw) as [Hp Hc]; destruct v; try discriminate; auto.
Qed.

Lemma width_only_on_v1_input_wrappers_witness :
  Variant1 = Variant1 /\
  classList (with_styleWidth "200px" (with_classList ["input-animated-wrapper"]
                                        (new_element false "div"))) = ["input-animated-wrapper"].
Proof.
  apply (width_only_on_v1_input_wrappers no_layout Variant1 sample_form
           (snd (run_listener no_layout Variant1 sample_form)) 6).
  - vm_compute. reflexivity.
  - vm_compute. reflexivity.
  - vm_compute. tauto.
  - vm_compute. lia.
  - vm_compute. discriminate.
Defined.

(* ================================================================== *)
(** * The children of the nodes that were there *)

Lemma slots_replace (n0 : node_id) (ks lids rids : list node_id) el w :
  n0 <= w ->
  Forall2 (fun k k' => k' = k \/ n0 <= k') ks (lids ++ el :: rids) ->
  Forall2 (fun k k' => k' = k \/ n0 <= k') ks (lids ++ w :: rids).
Proof.
  intros Hw H. apply Forall2_app_inv_r in H as (k1 & k2 & H1 & H2 & ->).
  inversion H2 as [|k ? k3 ? _ H3]; subst.
  apply Forall2_app; [assumption|]. constructor; [now right | assumption].
Qed.

Lemma child_slots_pass c s0 st st' :
  well_formed st = true -> next_id s0 <= next_id st ->
  decorate c st = (Ok tt, st') ->
  (forall x ks, In x (document_order s0) -> child_ids x s0 = Some ks ->
     In x (document_order st) /\
     exists ks', child_ids x st = Some ks' /\
                 Forall2 (fun k k' => k' = k \/ next_id s0 <= k') ks ks') ->
  forall x ks, In x (document_order s0) -> child_ids x s0 = Some ks ->
    In x (document_order st') /\
    exists ks', child_ids x st' = Some ks' /\
                Forall2 (fun k k' => k' = k \/ next_id s0 <= k') ks ks'.
Proof.
  intros Hwf Hn. intros H H0. apply decorate_ok in H as [_ H].
  destruct (forEach_decorate_ind c (fun _ st1 =>
              next_id s0 <= next_id st1 /\
              forall x ks, In x (document_order s0) -> child_ids x s0 = Some ks ->
                In x (document_order st1) /\
                exists ks', child_ids x st1 = Some ks' /\
                            Forall2 (fun k k' => k' = k \/ next_id s0 <= k') ks ks'))
    with (l := targets c st) (s := st) (s' := st') as [[_ HP] _]; try assumption.
  - trivial.
  - intros el rest s1 s2 Hwf1 _ [Hn1 HP1] _ Hws.
    split; [rewrite (wrapped_next c el s1 s2 Hws); lia|].
    intros x ks Hx Hks. destruct (HP1 x ks Hx Hks) as (Hx1 & ks1 & E1 & F1).
    split; [apply (wrapped_in_order c el s1 s2 Hws); now left|].
    destruct (wrapped_shape_parent c el s1 s2 Hwf1 Hws) as (p & pa & lids & rids & Hp & Sp & Sp').
    destruct (Nat.eq_dec x p) as [-> | Hxp].
    + rewrite child_ids_shape, Sp in E1. cbn [option_map snd] in E1. injection E1 as <-.
      exists (lids ++ next_id s1 :: rids). rewrite child_ids_shape, Sp'. split; [reflexivity|].
      now apply (slots_replace (next_id s0) ks lids rids el).
    + exists ks1. split; [|assumption].
      rewrite child_ids_shape, (wrapped_shape c el s1 s2 Hwf1 Hws x Hx1), <- child_ids_shape;
        [assumption|]. rewrite Hp. congruence.
  - intros el. apply targets_are_nodes.
  - now split.
Qed.

(** X12.  The listener keeps the child slots of every node that was in the
    document: the node has as many children as before, and in each place
    there is the child that was there or a node the listener created (the
    wrapper that now holds that child). *)
Theorem listener_keeps_child_slots (cw : tree -> node_id -> string) (v : variant)
    (s s' : dom) (x : node_id) (ks : list node_id) :
  well_formed s = true ->
  run_listener cw v s = (Ok tt, s') ->
  In x (document_order s) ->
  child_ids x s = Some ks ->
  exists ks',
    child_ids x s' = Some ks' /\
    List.length ks' = List.length ks /\
    Forall2 (fun k k' => k' = k \/ next_id s <= k') ks ks'.
Proof.
  intros Hwf Hrun Hx Hks. apply run_listener_ok in Hrun as (s0 & D1 & D2).
  rewrite run_pass_eq in D1, D2.
  destruct (decorate_effect _ s s0 Hwf D1) as (Hwf0 & Hn0 & _).
  assert (H0 : forall y ls, In y (document_order s) -> child_ids y s = Some ls ->
             In y (document_order s0) /\
             exists ls', child_ids y s0 = Some ls' /\
                         Forall2 (fun k k' => k' = k \/ next_id s <= k') ls ls').
  { apply (child_slots_pass _ s s s0 Hwf (le_n _) D1).
    intros y ls Hy Els. split; [assumption|]. exists ls. split; [assumption|].
    clear. induction ls; constructor; auto. }
  destruct (child_slots_pass _ s s0 s' Hwf0 Hn0 D2 H0 x ks Hx Hks) as (_ & ks' & E & F).
  exists ks'. split; [assumption|]. split; [|assumption].
  symmetry. exact (Forall2_length F).
Qed.

Lemma listener_keeps_child_slots_witness :
  exists ks',
    child_ids 2 (snd (run_listener no_layout Variant1 sample_form)) = Some ks' /\
    List.length ks' = List.length [3; 4; 5] /\
    Forall2 (fun k k' => k' = k \/ next_id sample_form <= k') [3; 4; 5] ks'.
Proof.
  apply (listener_keeps_child_slots no_layout Variant1 sample_form).
  - vm_compute. reflexivity.
  - vm_compute. reflexivity.
  - vm_compute. tauto.
  - vm_compute. reflexivity.
Defined.

(* ================================================================== *)
(** * Exactly which elements a pass wraps *)

(** An element that the guard skips before the pass keeps its parent. *)
Lemma skipped_keeps_parent c s s' x :
  well_formed s = true -> decorate c s = (Ok tt, s') ->
  In x (document_order s) -> skipped c x s = true ->
  parent_in x s' = parent_in x s.
Proof.
  intros Hwf. intros H Hx Hs. apply decorate_ok in H as [_ H].
  destruct (forEach_decorate_ind c (fun _ st =>
              In x (document_order st) /\ skipped c x st = true /\
              parent_in x st = parent_in x s))
    with (l := targets c s) (s := s) (s' := s') as [(_ & _ & HP) _]; try assumption.
  - trivial.
  - intros el rest st st' Hwf1 _ (Hx1 & Hs1 & Hp1) Hsel Hws.
    assert (Hne : x <> el) by congruence.
    split; [apply (wrapped_in_order c el st st' Hws); now left|].
    split; [now apply (skipped_mono c c el st st' Hwf1 Hws)|].
    now rewrite (wrapped_parent c el st st' Hwf1 Hws x Hx1 Hne).
  - intros el. apply targets_are_nodes.
  - auto.
Qed.

Lemma filter_length_pos {A} (f : A -> bool) (l : list A) e :
  In e l -> f e = true -> 1 <= List.length (filter f l).
Proof.
  intros Hin Hf. assert (H : In e (filter f l)) by (apply filter_In; now split).
  destruct (filter f l); [contradiction | cbn; lia].
Qed.

Lemma layers_free_own cw p : layers_free (cfg_wrapper (config_of cw p)) (config_of cw p) = true.
Proof. destruct p; reflexivity. Qed.

(** An element that gets a wrapper from a pass has no eligible ancestor
    that the pass does not exclude. *)
Lemma wrapped_below_excluded c s s' x anc w y :
  unmatched c c = true -> layers_free (cfg_wrapper c) c = true ->
  well_formed s = true -> decorate c s = (Ok tt, s') ->
  In x (document_order s) -> ancestors_at x s = Some anc ->
  next_id s <= w -> wrapper_of c x w s' ->
  below_class (cfg_wrapper c) x s = false ->
  In y (map fst (tl anc)) -> In y (targets c s) ->
  excluded c y s = true.
Proof.
  intros Hun Hfree Hwf D Hx Hanc Hw Hwo Hnb Hy Hyt.
  destruct (excluded c y s) eqn:Hex; [reflexivity | exfalso].
  destruct (decorate_effect c s s' Hwf D) as (Hwf' & _ & Heff).
  destruct (decorate_settles c s s' Hwf Hun D) as [Hset _].
  destruct (decorate_root_detached c s s' Hwf D) as [Hroot _].
  (* [y] in the document before and after *)
  apply in_map_iff in Hy as ([y0 ay] & E & Hy). cbn [fst] in E. subst y0.
  destruct (ancestors_at_head x s anc Hx Hanc) as (ax & up & -> & _). cbn [tl] in Hy.
  apply in_split in Hy as (u1 & u2 & ->).
  destruct (ancestors_of_ancestor s x ((x, ax) :: u1) y ay u2 Hwf Hx Hanc) as (Hyo & Ecy & _).
  destruct (Heff y Hyo) as (Hyo' & Hya & _).
  destruct (Heff x Hx) as (Hxo' & _ & _).
  apply targets_spec in Hyt as (b & Hb & Hmb).
  pose proof (descendant_attrs s y b Hwf Hb) as Hab.
  assert (Hb' : In (y, b) (descendants (document s'))).
  { apply attrs_descendant; try assumption; [|congruence].
    rewrite Hroot. apply well_formed_facts in Hwf as (Hnd & _).
    apply NoDup_app_remove_r in Hnd. now destruct (descendant_facts _ _ _ Hnd Hb). }
  pose proof (Hset y b Hb' Hmb) as Hsk. unfold skipped in Hsk.
  rewrite (excluded_attrs c y s'), Hya, <- (excluded_attrs c y s), Hex, orb_false_r in Hsk.
  (* the chains after the pass *)
  destruct (original_chain_pass c s s s' Hwf (le_n _) D) with (x := x) (anc := (x, ax) :: u1 ++ (y, ay) :: u2)
    as (_ & cx' & Ecx' & Fx); try assumption.
  { intros z lz Hz Elz. split; [assumption|]. exists lz. split; [assumption|].
    apply forallb_filter_id, forallb_forall. intros [q aq] Hq. cbn [fst].
    destruct (ancestors_attrs s z lz q aq Hwf Hz Elz Hq) as [Hqo _].
    apply Nat.ltb_lt. now apply old_lt. }
  assert (Hyc : In (y, ay) cx').
  { assert (H : In (y, ay) (filter (fun na => fst na <? next_id s) cx')).
    { rewrite Fx. right. apply in_elt. }
    now apply filter_In in H. }
  apply in_split in Hyc as (l1 & l2 & ->).
  destruct (ancestors_of_ancestor s' x l1 y ay l2 Hwf' Hxo' Ecx') as (_ & Ecy' & _).
  (* the wrapper of [x] is before [y] in the chain of [x] *)
  destruct Hwo as (Hpw & Hwin & (sj & Hsh & _) & _).
  pose proof (old_lt s y Hwf Hyo) as Hylt.
  assert (Hl1 : exists wa, In (w, wa) l1 /\ matches [SelClass (cfg_wrapper c)] wa = true).
  { destruct (ancestors_at_head x s' _ Hxo' Ecx') as (ax' & rest & E & _).
    rewrite (parent_in_ancestors x s' _ Ecx'), E in Hpw.
    destruct rest as [|[q wa] rest]; [discriminate|]. injection Hpw as ->.
    assert (Hwa : attrs_at w s' = Some wa).
    { apply (ancestors_attrs s' x _ w wa Hwf' Hxo' Ecx'). rewrite E. right. now left. }
    rewrite attrs_at_shape, Hsh in Hwa. cbn [option_map fst] in Hwa. injection Hwa as <-.
    exists (wrapper_attrs c x sj). split; [|apply matches_wrapper_class].
    destruct l1 as [|e1 [|e2 l1]]; cbn [app] in E.
    - injection E as E _. 
      assert (In y (document_order s)) by assumption.
      destruct (ancestors_of_ancestor s x ((x, ax) :: u1) y ay u2 Hwf Hx Hanc) as (_ & _ & Hlt).
      specialize (Hlt ltac:(discriminate)). subst y. lia.
    - injection E as _ E _. lia.
    - injection E as _ E _. subst e2. right. now left. }
  destruct Hl1 as (wa & Hwl1 & Hwm).
  (* an ancestor of [y] with the class *)
  unfold below_class in Hsk. rewrite Ecy' in Hsk.
  apply existsb_exists in Hsk as ([z az] & Hz & Hzm). cbn [snd] in Hzm.
  destruct (Nat.lt_ge_cases z (next_id s)) as [Hzold | Hznew].
  - (* it was there: [x] was below the class before the pass *)
    assert (Hzf : In (z, az) (filter (fun na => fst na <? next_id s) (l1 ++ (y, ay) :: l2))).
    { apply filter_In. split; [apply in_or_app; now right|]. cbn [fst]. now apply Nat.ltb_lt. }
    rewrite Fx in Hzf.
    unfold below_class in Hnb. rewrite Hanc in Hnb.
    assert (existsb (fun na => matches [SelClass (cfg_wrapper c)] (snd na))
                    ((x, ax) :: u1 ++ (y, ay) :: u2) = true); [|congruence].
    apply existsb_exists. now exists (z, az).
  - (* it is new: two created wrappers above [x] *)
    pose proof (own_class_pass c (next_id s) s s' Hwf Hfree
                  (class_absent_start _ s Hwf) D x _ Hxo' Ecx') as Hcount.
    rewrite created_wrappers_app, length_app in Hcount.
    assert (H1 : 1 <= List.length (created_wrappers (next_id s) (cfg_wrapper c) l1)).
    { apply (filter_length_pos _ _ (w, wa) Hwl1). cbn [fst snd].
      rewrite Hwm, andb_true_r. now apply Nat.leb_le. }
    assert (H2 : 1 <= List.length (created_wrappers (next_id s) (cfg_wrapper c) ((y, ay) :: l2))).
    { apply (filter_length_pos _ _ (z, az) Hz). cbn [fst snd].
      rewrite Hzm, andb_true_r. now apply Nat.leb_le. }
    lia.
Qed.

(** X13.  A pass that returns gives a wrapper to an element exactly when the
    element is eligible, carries no excluded class, is not below an element
    with the wrapper class (and does not carry it), and has no eligible
    ancestor other than excluded ones. *)
Theorem pass_wraps_exactly (cw : tree -> node_id -> string) (p : pass) (s s' : dom)
    (x : node_id) (anc : list (node_id * attrs)) :
  well_formed s = true ->
  run_pass cw p s = (Ok tt, s') ->
  In x (document_order s) ->
  ancestors_at x s = Some anc ->
  ((exists w, next_id s <= w /\ parent_in x s' = Some w) <->
   (In x (targets (config_of cw p) s) /\
    excluded (config_of cw p) x s = false /\
    below_class (cfg_wrapper (config_of cw p)) x s = false /\
    forall y, In y (map fst (tl anc)) -> In y (targets (config_of cw p) s) ->
              excluded (config_of cw p) y s = true)).
Proof.
  intros Hwf Hrun Hx Hanc. rewrite run_pass_eq in Hrun. split.
  - intros (w & Hw & Hpw).
    destruct (decorate_effect _ s s' Hwf Hrun) as (_ & _ & Heff).
    assert (Hnew : parent_in x s' <> parent_in x s).
    { rewrite Hpw. intros E. symmetry in E.
      pose proof (old_lt s w Hwf (parent_in_order s x w Hwf Hx E)). lia. }
    destruct (Heff x Hx) as (_ & _ & [E | (w' & Hw' & Hwo & _ & Ht & Hex)]); [contradiction|].
    assert (Hnb : below_class (cfg_wrapper (config_of cw p)) x s = false).
    { destruct (below_class (cfg_wrapper (config_of cw p)) x s) eqn:Hb; [|reflexivity].
      exfalso. apply Hnew. apply (skipped_keeps_parent _ s s' x Hwf Hrun Hx).
      unfold skipped. now rewrite Hb. }
    repeat split; try assumption.
    intros y Hy Hyt.
    exact (wrapped_below_excluded _ s s' x anc w' y (unmatched_passes cw p p)
             (layers_free_own cw p) Hwf Hrun Hx Hanc Hw' Hwo Hnb Hy Hyt).
  - intros (Ht & Hex & Hnb & Hup).
    assert (Hs : skipped (config_of cw p) x s = false).
    { unfold skipped. now rewrite Hnb, Hex. }
    destruct (decorated_pass _ s x anc Hwf Ht Hanc Hs Hup s' Hrun) as (w & Hw & Hp & _).
    now exists w.
Qed.

Lemma pass_wraps_exactly_witness :
  (exists w, next_id sample_search_box <= w /\
             parent_in 4 (snd (run_pass no_layout V2_inputs sample_search_box)) = Some w) <->
  (In 4 (targets (config_of no_layout V2_inputs) sample_search_box) /\
   excluded (config_of no_layout V2_inputs) 4 sample_search_box = false /\
   below_class (cfg_wrapper (config_of no_layout V2_inputs)) 4 sample_search_box = false /\
   forall y,
     In y (map fst (tl [(4, element "input" (Some "text") [] "");
                        (3, element "div" None ["search-input"] "");
                        (2, element "body" None [] ""); (1, element "html" None [] "");
                        (0, document_attrs)])) ->
     In y (targets (config_of no_layout V2_inputs) sample_search_box) ->
     excluded (config_of no_layout V2_inputs) y sample_search_box = true).
Proof.
  apply (pass_wraps_exactly no_layout V2_inputs sample_search_box).
  - vm_compute. reflexivity.
  - vm_compute. reflexivity.
  - vm_compute. tauto.
  - vm_compute. reflexivity.
Defined.

(* ================================================================== *)
(** * A pass that throws at the document element *)

(** X14.  When the first eligible element in tree order is a child of the
    document node and the guard does not skip it (the case of an eligible
    document element), the pass throws, and it throws before it has changed
    the document: the tree is as it was. *)
Theorem pass_throws_before_any_change (cw : tree -> node_id -> string) (p : pass)
    (s : dom) (el : node_id) (rest : list node_id) :
  well_formed s = true ->
  targets (config_of cw p) s = el :: rest ->
  parent_in el s = Some (root_id (document s)) ->
  skipped (config_of cw p) el s = false ->
  exists e s', run_pass cw p s = (Throw e, s') /\ document s' = document s.
Proof.
  intros Hwf Et Hp Hs. rewrite run_pass_eq, decorate_forEach.
  destruct (shadowed "querySelectorAll" s); [now exists TypeError, s|].
  rewrite Et. cbn [forEach].
  assert (Hel : In el (targets (config_of cw p) s)) by (rewrite Et; now left).
  destruct (targets_are_nodes _ s el Hel) as (a & Ha & He).
  destruct (decorate_one_outcome (config_of cw p) el a s Hwf Ha He)
    as [[Hsk _] | [(_ & _ & E) | [(_ & _ & Hnr & _) | (_ & _ & _ & s1 & E & Hd)]]];
    [congruence | | contradiction |].
  - exists TypeError, s. now rewrite (bind_throw _ _ _ _ _ E).
  - eexists _, s1. split; [now rewrite (bind_throw _ _ _ _ _ E) | assumption].
Qed.

Lemma pass_throws_before_any_change_witness :
  exists e s', run_pass no_layout V1_buttons sample_root_button = (Throw e, s') /\
               document s' = document sample_root_button.
Proof.
  apply (pass_throws_before_any_change no_layout V1_buttons sample_root_button 1 []).
  - vm_compute. reflexivity.
  - vm_compute. reflexivity.
  - vm_compute. reflexivity.
  - vm_compute. reflexivity.
Defined.
(* ================================================================== *)
(** * The mode of the document and the names of its elements, on sample pages *)

(** The guard of a step is a selector match, and a selector matches a class
    name as the mode of the document has it.  On
    [<div class="Input-Animated-Wrapper"><input type="TEXT"></div>] in
    no-quirks mode the input pass of the first variant wraps the input (the
    value of [type] is matched without regard to case): its parent is the new
    node (5).  On the same page in quirks mode [closest] finds the [div],
    and the pass leaves the store as it is.  [classList.contains] compares
    the names as they are, in both modes. *)
Lemma guard_follows_the_mode :
  In 4 (targets (v1_inputs no_layout) sample_capital_wrapper) /\
  parent_in 4 (snd (V1.input_pass no_layout sample_capital_wrapper)) = Some 5 /\
  In 4 (targets (v1_inputs no_layout) (quirks_page sample_capital_wrapper)) /\
  closest 4 [SelClass "input-animated-wrapper"] (quirks_page sample_capital_wrapper) =
    (Ok (Some 3), quirks_page sample_capital_wrapper) /\
  V1.input_pass no_layout (quirks_page sample_capital_wrapper) =
    (Ok tt, quirks_page sample_capital_wrapper) /\
  classList_contains 3 "input-animated-wrapper" (quirks_page sample_capital_wrapper) =
    (Ok false, quirks_page sample_capital_wrapper).
Proof. vm_compute. repeat split; tauto. Qed.

(** On [<input type="text"> <img name="createElement">] the image is what
    [document.createElement] evaluates to.  The input pass finds the input,
    its guard does not skip it, and the call of [createElement] throws a
    TypeError: in both variants the pass throws, and the store is as it
    was. *)
Lemma named_image_stops_pass :
  targets (v1_inputs no_layout) sample_named_image = [3] /\
  skipped (v1_inputs no_layout) 3 sample_named_image = false /\
  shadowed "createElement" sample_named_image = true /\
  V1.input_pass no_layout sample_named_image = (Throw TypeError, sample_named_image) /\
  V2.input_pass sample_named_image = (Throw TypeError, sample_named_image).
Proof. vm_compute. repeat split. Qed.

(** In a wrapper that a step makes on a page in quirks mode, the class
    selector of the guard finds the wrapper class: a second run of the pass
    changes nothing there either. *)
Lemma quirks_page_settles :
  let s1 := snd (V2.listener (quirks_page sample_form)) in
  fst (V2.listener (quirks_page sample_form)) = Ok tt /\
  V2.listener s1 = (Ok tt, s1).
Proof. vm_compute. repeat split. Qed.
